(** * Trace-context propagation and function instrumentation

    A shallow embedding of the tracer package of nodejs-commons
    ([packages/tracer/lib]: [logger.ts], [types.ts], [utils.ts],
    [context.ts]) together with the properties of its behaviour.

    JavaScript objects live in a heap of property lists, so that sharing
    between a context's payload and its parent's payload is visible.  The
    process-wide statics of [TraceContext] and [Logger], the spans created
    by the trace driver and the calls received by the drivers are fields of
    one [World]; every effectful function is a state transformer that
    either returns a value or throws. *)

From Stdlib Require Import ZArith String Ascii List Bool Lia.
From stdpp Require Import base option list strings pretty gmap.

Set Warnings "-register-all,-clear-no-such-hyp".

Local Open Scope string_scope.
Local Open Scope list_scope.

(** ** Enumerations of [types.ts] *)

Inductive TLogLevel := LError | LWarn | LInfo | LDebug | LVerbose.

Inductive SpanStatus :=
| ABORTED | ALREADY_EXISTS | CANCELLED | DATA_LOSS | DEADLINE_EXCEEDED
| FAILED_PRECONDITION | INTERNAL_ERROR | INVALID_ARGUMENT | NOT_FOUND
| OK | OUT_OF_RANGE | PERMISSION_DENIED | RESOURCE_EXHAUSTED
| UNAUTHENTICATED | UNAVAILABLE | UNIMPLEMENTED | UNKNOWN_ERROR.

Inductive TraceContextInjectMode := IN_FIRST_ARG_OBJECT | AS_ARG.

#[global] Instance TLogLevel_eq_dec : EqDecision TLogLevel.
Proof. solve_decision. Defined.

#[global] Instance SpanStatus_eq_dec : EqDecision SpanStatus.
Proof. solve_decision. Defined.

#[global] Instance InjectMode_eq_dec : EqDecision TraceContextInjectMode.
Proof. solve_decision. Defined.

(** ** Drivers

    A driver is an object supplied by the application; the model keeps its
    identity and records every call it receives in the world's event
    list.  [ConsoleLogDriver] is the driver [sharedInit] creates when the
    configuration names none. *)

Inductive ILogDriver :=
| ConsoleLogDriver (ref : nat)
| CustomLogDriver (ref : nat).

Inductive ITraceDriver :=
| CustomTraceDriver (ref : nat).

#[global] Instance ILogDriver_eq_dec : EqDecision ILogDriver.
Proof. solve_decision. Defined.

#[global] Instance ITraceDriver_eq_dec : EqDecision ITraceDriver.
Proof. solve_decision. Defined.

(** ** Trace contexts

    One frame of a call-stack chain ([ICallStackNamesChainItem]). *)

Record ICallStackNamesChainItem := mkItem {
  item_fnName : string;
  item_className : option string;
  item_serviceName : option string;
}.

#[global] Instance ICallStackNamesChainItem_eq_dec :
  EqDecision ICallStackNamesChainItem.
Proof. solve_decision. Defined.

(** The read-only fields of a [TraceContext] instance.  [ctx_ref] is the
    identity of the object ([===] compares it).  The two public mutable
    fields, [data] and [span], are kept in the world under that identity.
    The private logger of the context is given by the driver and the level
    it was built with; its back-reference to the context is implicit.  The
    fields [_fnArgs], [_fnArgsToLog] and [_fnResultsToLog] are stored by
    the constructor and read by no function of the package; they are left
    out. *)

Inductive TraceContext := mkTraceContext {
  ctx_ref : nat;
  _id : string;
  _autoTracing : bool;
  _serviceName : option string;
  _serviceColor : option string;
  _callStackNamesChain : option (list ICallStackNamesChainItem);
  _className : option string;
  _filePath : option string;
  _fnName : option string;
  _parent : option TraceContext;
  _spanHash : option string;
  _logger_driver : option ILogDriver;
  _logger_level : option TLogLevel;
}.

(** ** JavaScript values, objects and the heap *)

Definition loc := nat.

Inductive jsval :=
| VUndef
| VNull
| VBool (b : bool)
| VNum (n : Z)
| VStr (s : string)
| VRef (l : loc)            (* an object or an array of the heap *)
| VCtx (c : TraceContext)   (* an instance of TraceContext *)
| VPromise (p : nat).       (* an instance of Promise *)

Inductive objkind := KPlain | KArray | KInstance.

#[global] Instance objkind_eq_dec : EqDecision objkind.
Proof. solve_decision. Defined.

(** An object is its kind and its own enumerable properties in insertion
    order; an array has the decimal indices as keys. *)

Record jsobj := mkObj {
  okind : objkind;
  oprops : list (string * jsval);
}.

(** Plain data as [JSON.parse] produces it. *)

Inductive json :=
| JNull
| JBool (b : bool)
| JNum (n : Z)
| JStr (s : string)
| JArr (l : list json)
| JObj (kvs : list (string * json)).

(** Thrown values: [Error] objects with their name, message and the
    non-standard [fileName] the failure log reads. *)

Record JsError := mkError {
  ename : string;
  emessage : string;
  efileName : option string;
}.

Definition Error (message : string) : JsError := mkError "Error" message None.
Definition TypeError (message : string) : JsError :=
  mkError "TypeError" message None.
Definition SyntaxError (message : string) : JsError :=
  mkError "SyntaxError" message None.

(** ** Spans and driver events *)

Record Span := mkSpan {
  sp_opName : string;
  sp_parent : option nat;
  sp_parentHash : option string;
  sp_status : option SpanStatus;
  sp_finished : nat;             (* number of calls of finish() *)
}.

Record ITraceContextUser := mkUser {
  user_id : string;
  user_username : option string;
  user_email : option string;
}.

Inductive Event :=
| EvLogDriverInit (d : ILogDriver) (serviceName : option string)
| EvTraceDriverInit (d : ITraceDriver)
| EvLog (d : ILogDriver) (level : TLogLevel) (message : string)
        (data : option json) (traceCtx : option TraceContext)
| EvSpanStart (d : ITraceDriver) (span : nat)
| EvErrorNotify (d : ITraceDriver) (error : JsError)
| EvSetUser (d : ITraceDriver) (user : ITraceContextUser).

(** What the completion handlers of a traced promise close over. *)

Record TracedCall := mkTracedCall {
  tc_ctx : TraceContext;
  tc_startTime : Z;
  tc_shouldLogStartEnd : bool;
  tc_shouldRecordTracing : bool;
}.

(** ** The world *)

Record Statics := mkStatics {
  TC_serviceName : option string;
  TC_serviceColor : option string;
  TC_logLevel : option TLogLevel;
  TC_shouldLogStartEnd : bool;
  TC_traceDriver : option ITraceDriver;
  TC_shouldRecordTracing : bool;
  TC_logDriver : option ILogDriver;
  TC_shared : option TraceContext;
  TC_user : option ITraceContextUser;
  TC_injectMode : option TraceContextInjectMode;
  Logger_level : option TLogLevel;
}.

Record World := mkWorld {
  statics : Statics;
  env_LOG_SILENT : option string;
  heap : list jsobj;
  ctx_data : gmap nat jsval;
  ctx_span : gmap nat nat;
  spans : list Span;
  next_ref : nat;
  nanoid_calls : nat;
  clock : Z;
  pending : list (nat * nat * TracedCall);
  events : list Event;
}.

(** The statics as the class bodies initialise them. *)

Definition initial_statics : Statics :=
  mkStatics None None (Some LInfo) true None true None None None None
            (Some LInfo).

Definition initial_world : World :=
  mkWorld initial_statics None [] ∅ ∅ [] 0 0 0%Z [] [].

Definition set_statics (s : Statics) (w : World) : World :=
  mkWorld s (env_LOG_SILENT w) (heap w) (ctx_data w) (ctx_span w) (spans w)
          (next_ref w) (nanoid_calls w) (clock w) (pending w) (events w).

Definition set_heap (h : list jsobj) (w : World) : World :=
  mkWorld (statics w) (env_LOG_SILENT w) h (ctx_data w) (ctx_span w) (spans w)
          (next_ref w) (nanoid_calls w) (clock w) (pending w) (events w).

Definition set_ctx_data (d : gmap nat jsval) (w : World) : World :=
  mkWorld (statics w) (env_LOG_SILENT w) (heap w) d (ctx_span w) (spans w)
          (next_ref w) (nanoid_calls w) (clock w) (pending w) (events w).

Definition set_ctx_span (s : gmap nat nat) (w : World) : World :=
  mkWorld (statics w) (env_LOG_SILENT w) (heap w) (ctx_data w) s (spans w)
          (next_ref w) (nanoid_calls w) (clock w) (pending w) (events w).

Definition set_spans (s : list Span) (w : World) : World :=
  mkWorld (statics w) (env_LOG_SILENT w) (heap w) (ctx_data w) (ctx_span w) s
          (next_ref w) (nanoid_calls w) (clock w) (pending w) (events w).

Definition set_next_ref (n : nat) (w : World) : World :=
  mkWorld (statics w) (env_LOG_SILENT w) (heap w) (ctx_data w) (ctx_span w)
          (spans w) n (nanoid_calls w) (clock w) (pending w) (events w).

Definition set_nanoid_calls (n : nat) (w : World) : World :=
  mkWorld (statics w) (env_LOG_SILENT w) (heap w) (ctx_data w) (ctx_span w)
          (spans w) (next_ref w) n (clock w) (pending w) (events w).

Definition set_pending (p : list (nat * nat * TracedCall)) (w : World)
  : World :=
  mkWorld (statics w) (env_LOG_SILENT w) (heap w) (ctx_data w) (ctx_span w)
          (spans w) (next_ref w) (nanoid_calls w) (clock w) p (events w).

Definition add_event (e : Event) (w : World) : World :=
  mkWorld (statics w) (env_LOG_SILENT w) (heap w) (ctx_data w) (ctx_span w)
          (spans w) (next_ref w) (nanoid_calls w) (clock w) (pending w)
          (events w ++ [e]).

(** ** Computations

    A call returns, throws, or leaves the model ([Stuck]: a payload too
    deep for the traversal budget, or an object shape the model has no
    value for). *)

Inductive Result (A : Type) :=
| Ok (a : A)
| Throw (e : JsError)
| Stuck.

Arguments Ok {A} a.
Arguments Throw {A} e.
Arguments Stuck {A}.

Definition M (A : Type) : Type := World → Result A * World.

Definition ret {A} (a : A) : M A := λ w, (Ok a, w).
Definition throw {A} (e : JsError) : M A := λ w, (Throw e, w).
Definition stuck {A} : M A := λ w, (Stuck, w).

Definition bind {A B} (m : M A) (k : A → M B) : M B :=
  λ w, match m w with
       | (Ok a, w') => k a w'
       | (Throw e, w') => (Throw e, w')
       | (Stuck, w') => (Stuck, w')
       end.

Definition get_world : M World := λ w, (Ok w, w).
Definition modify (f : World → World) : M unit := λ w, (Ok tt, f w).
Definition emit (e : Event) : M unit := modify (add_event e).

(** [try { m } catch (error) { handler error }] *)

Definition try_catch {A} (m : M A) (handler : JsError → M A) : M A :=
  λ w, match m w with
       | (Throw e, w') => handler e w'
       | r => r
       end.

#[global] Instance M_ret : MRet M := @ret.
#[global] Instance M_bind : MBind M := λ A B k m, bind m k.

(** ** Property lists and the heap *)

Fixpoint assoc {V} (k : string) (ps : list (string * V)) : option V :=
  match ps with
  | [] => None
  | (k', v) :: ps' => if String.eqb k' k then Some v else assoc k ps'
  end.

(** [o[k] = v]: an existing key keeps its position. *)

Fixpoint set_in {V} (k : string) (v : V) (ps : list (string * V))
  : list (string * V) :=
  match ps with
  | [] => [(k, v)]
  | (k', v') :: ps' =>
      if String.eqb k' k then (k, v) :: ps' else (k', v') :: set_in k v ps'
  end.

Fixpoint remove_key {V} (k : string) (ps : list (string * V))
  : list (string * V) :=
  match ps with
  | [] => []
  | (k', v') :: ps' =>
      if String.eqb k' k then remove_key k ps' else (k', v') :: remove_key k ps'
  end.

Definition get_prop (o : jsobj) (k : string) : jsval :=
  default VUndef (assoc k (oprops o)).

Definition has_prop (o : jsobj) (k : string) : bool :=
  bool_decide (is_Some (assoc k (oprops o))).

Definition set_prop (o : jsobj) (k : string) (v : jsval) : jsobj :=
  mkObj (okind o) (set_in k v (oprops o)).

Definition alloc (o : jsobj) (h : list jsobj) : list jsobj * loc :=
  (h ++ [o], length h).

(** [v.k] for any value: a property of a heap object, [undefined] on the
    rest (the context fields are never read through this). *)

Definition read_prop (h : list jsobj) (v : jsval) (k : string) : jsval :=
  match v with
  | VRef l => match h !! l with Some o => get_prop o k | None => VUndef end
  | _ => VUndef
  end.

(** JavaScript truthiness. *)

Definition truthy (v : jsval) : bool :=
  match v with
  | VUndef | VNull => false
  | VBool b => b
  | VNum n => negb (n =? 0)%Z
  | VStr s => negb (String.eqb s "")
  | VRef _ | VCtx _ | VPromise _ => true
  end.

Definition truthy_str (s : option string) : bool :=
  match s with
  | Some s => negb (String.eqb s "")
  | None => false
  end.

(** ** The lodash functions the package uses *)

Definition isPlainObject (h : list jsobj) (v : jsval) : bool :=
  match v with
  | VRef l => match h !! l with
              | Some o => bool_decide (okind o = KPlain)
              | None => false
              end
  | _ => false
  end.

Definition isArray (h : list jsobj) (v : jsval) : bool :=
  match v with
  | VRef l => match h !! l with
              | Some o => bool_decide (okind o = KArray)
              | None => false
              end
  | _ => false
  end.

(** lodash [eq] (SameValueZero). *)

Definition eq_js (a b : jsval) : bool :=
  match a, b with
  | VUndef, VUndef | VNull, VNull => true
  | VBool x, VBool y => Bool.eqb x y
  | VNum x, VNum y => (x =? y)%Z
  | VStr x, VStr y => String.eqb x y
  | VRef x, VRef y => Nat.eqb x y
  | VCtx x, VCtx y => Nat.eqb (ctx_ref x) (ctx_ref y)
  | VPromise x, VPromise y => Nat.eqb x y
  | _, _ => false
  end.

Definition is_undefined (v : jsval) : bool :=
  match v with VUndef => true | _ => false end.

(** [assignMergeValue(object, key, value)]. *)

Definition assignMergeValue (h : list jsobj) (object : loc) (key : string)
    (value : jsval) : option (list jsobj) :=
  o ← h !! object;
  if (negb (is_undefined value) && negb (eq_js (get_prop o key) value))
     || (is_undefined value && negb (has_prop o key))
  then Some (<[object := set_prop o key value]> h)
  else Some h.

(** [baseMerge(object, source)].  [mergeProperty] is the body of its loop
    with [baseMergeDeep] inlined: an array or plain-object property of the
    source is merged recursively into the destination's value (a new
    array or object when the destination has none to merge into), every
    other value is assigned.  lodash's cache of visited sources is not
    modelled: a cyclic source exhausts the budget.  [None] also covers a
    destination value that is a context or a promise, for which the model
    has no property list. *)

Definition mergeProperty
    (baseMerge : list jsobj → loc → loc → option (list jsobj))
    (object source : loc) (h : list jsobj) (key : string)
  : option (list jsobj) :=
  src ← h !! source;
  obj ← h !! object;
  let srcValue := get_prop src key in
  let objValue := get_prop obj key in
  match srcValue with
  | VRef sl =>
    sobj ← h !! sl;
    match okind sobj with
    | KArray =>
      if isArray h objValue then
        match objValue with
        | VRef ol =>
            h1 ← baseMerge h ol sl;
            assignMergeValue h1 object key objValue
        | _ => None
        end
      else
        let '(h0, nl) := alloc (mkObj KArray []) h in
        h1 ← baseMerge h0 nl sl;
        assignMergeValue h1 object key (VRef nl)
    | KPlain =>
      match objValue with
      | VRef ol =>
          h1 ← baseMerge h ol sl;
          assignMergeValue h1 object key objValue
      | VCtx _ | VPromise _ => None
      | _ =>
          let '(h0, nl) := alloc (mkObj KPlain []) h in
          h1 ← baseMerge h0 nl sl;
          assignMergeValue h1 object key (VRef nl)
      end
    | KInstance => assignMergeValue h object key srcValue
    end
  | _ => assignMergeValue h object key srcValue
  end.

Fixpoint baseMerge (fuel : nat) (h : list jsobj) (object source : loc)
  : option (list jsobj) :=
  match fuel with
  | 0 => None
  | S fuel' =>
    if Nat.eqb object source then Some h else
    src ← h !! source;
    foldl (λ acc key, h ← acc; mergeProperty (baseMerge fuel') object source h key)
          (Some h) (oprops src).*1
  end.

(** One source of [_.merge(object, ...sources)]: falsy sources are
    skipped, numbers and booleans have no keys. *)

Definition merge_source (fuel : nat) (h : list jsobj) (object : loc)
    (source : jsval) : option (list jsobj) :=
  if negb (truthy source) then Some h else
  match source with
  | VRef sl => baseMerge fuel h object sl
  | VNum _ | VBool _ => Some h
  | _ => None
  end.

(** [_.merge({}, a, b)]. *)

Definition merge_into_new (fuel : nat) (h : list jsobj) (a b : jsval)
  : option (list jsobj * loc) :=
  let '(h0, nl) := alloc (mkObj KPlain []) h in
  h1 ← merge_source fuel h0 nl a;
  h2 ← merge_source fuel h1 nl b;
  Some (h2, nl).

(** ** JSON

    The traversal of [JSON.stringify]: [undefined] has no text (it is left
    out of objects and becomes [null] in arrays), a promise has no own
    property, a trace context is circular through its logger
    ([ctx._logger._traceCtx === ctx]) and makes the call throw; so does a
    cycle of the heap, which is what exhausting a budget larger than the
    heap means.  [None] is the thrown [TypeError]. *)

Fixpoint to_json (fuel : nat) (h : list jsobj) (v : jsval)
  : option (option json) :=
  match v with
  | VUndef => Some None
  | VNull => Some (Some JNull)
  | VBool b => Some (Some (JBool b))
  | VNum n => Some (Some (JNum n))
  | VStr s => Some (Some (JStr s))
  | VPromise _ => Some (Some (JObj []))
  | VCtx _ => None
  | VRef l =>
    match fuel with
    | 0 => None
    | S fuel' =>
      o ← h !! l;
      match okind o with
      | KArray =>
          js ← mapM (λ kv : string * jsval,
                       default JNull <$> to_json fuel' h kv.2) (oprops o);
          Some (Some (JArr js))
      | _ =>
          kvs ← mapM (λ kv : string * jsval,
                        j ← to_json fuel' h kv.2; Some (kv.1, j)) (oprops o);
          Some (Some (JObj (omap (λ kj : string * option json,
                                    j ← kj.2; Some (kj.1, j)) kvs)))
      end
    end
  end.

(** The objects [JSON.parse] builds for a parsed text. *)

Fixpoint alloc_json (j : json) (h : list jsobj) : list jsobj * jsval :=
  match j with
  | JNull => (h, VNull)
  | JBool b => (h, VBool b)
  | JNum n => (h, VNum n)
  | JStr s => (h, VStr s)
  | JArr l =>
      let '(h1, vs) :=
        (fix go (l : list json) (h : list jsobj) : list jsobj * list jsval :=
           match l with
           | [] => (h, [])
           | x :: r =>
               let '(h1, v) := alloc_json x h in
               let '(h2, vs) := go r h1 in
               (h2, v :: vs)
           end) l h in
      (h1 ++ [mkObj KArray (imap (λ i v, (pretty i, v)) vs)], VRef (length h1))
  | JObj kvs =>
      let '(h1, ps) :=
        (fix go (l : list (string * json)) (h : list jsobj)
           : list jsobj * list (string * jsval) :=
           match l with
           | [] => (h, [])
           | (k, x) :: r =>
               let '(h1, v) := alloc_json x h in
               let '(h2, ps) := go r h1 in
               (h2, (k, v) :: ps)
           end) kvs h in
      (h1 ++ [mkObj KPlain (foldl (λ acc kv, set_in kv.1 kv.2 acc) [] ps)],
       VRef (length h1))
  end.

(** ** Third-party functions

    [lz-string], the text side of the JSON built-ins, [nanoid], the path
    functions of lodash and the span handle of the trace driver are not
    code of the package: they are taken as parameters.
    [decompressFromBase64] answers [null] ([None]) on some inputs;
    [JSON_read] is [None] where [JSON.parse] throws a [SyntaxError]. *)

Record Externals := mkExternals {
  compressToBase64 : string → string;
  decompressFromBase64 : string → option string;
  JSON_print : json → string;
  JSON_read : string → option json;
  nanoid : nat → string;
  span_toHash : nat → string;
  lodash_get : list jsobj → list jsval → string → jsval;
  lodash_set : list jsobj → loc → string → jsval → list jsobj;
}.

(** ** [utils.ts]: the hash codec *)

Definition TRACE_HASH_PREFIX : string := "$TRACE_HASH_".

Fixpoint drop_string (n : nat) (s : string) : string :=
  match n, s with
  | S n', String _ s' => drop_string n' s'
  | _, _ => s
  end.

(** [s.replace(pattern, replacement)] for a string pattern: the first
    occurrence only. *)

Fixpoint replace_first (pattern replacement s : string) : string :=
  if String.prefix pattern s
  then replacement +:+ drop_string (String.length pattern) s
  else match s with
       | EmptyString => EmptyString
       | String c s' => String c (replace_first pattern replacement s')
       end.

(** [ITraceHashData].  The payload is held as the plain data
    [JSON.stringify] reads from it. *)

Record ITraceHashData := mkHashData {
  hd_callStackNamesChain : option (list ICallStackNamesChainItem);
  hd_className : option string;
  hd_data : option json;
  hd_fnName : option string;
  hd_id : option string;
  hd_serviceName : option string;
  hd_spanHash : option string;
}.

Definition opt_field (k : string) (v : option json) : list (string * json) :=
  match v with
  | Some j => [(k, j)]
  | None => []
  end.

Definition json_of_item (i : ICallStackNamesChainItem) : json :=
  JObj (opt_field "className" (JStr <$> item_className i)
        ++ [("fnName", JStr (item_fnName i))]
        ++ opt_field "serviceName" (JStr <$> item_serviceName i)).

Definition json_of_hashData (d : ITraceHashData) : json :=
  JObj (opt_field "callStackNamesChain"
          ((λ c, JArr (json_of_item <$> c)) <$> hd_callStackNamesChain d)
        ++ opt_field "className" (JStr <$> hd_className d)
        ++ opt_field "data" (hd_data d)
        ++ opt_field "fnName" (JStr <$> hd_fnName d)
        ++ opt_field "id" (JStr <$> hd_id d)
        ++ opt_field "serviceName" (JStr <$> hd_serviceName d)
        ++ opt_field "spanHash" (JStr <$> hd_spanHash d)).

(** Reading a decoded object back at the types of [ITraceHashData];
    [None] when a field has another type. *)

Definition str_field (k : string) (kvs : list (string * json))
  : option (option string) :=
  match assoc k kvs with
  | None => Some None
  | Some (JStr s) => Some (Some s)
  | Some _ => None
  end.

Definition item_of_json (j : json) : option ICallStackNamesChainItem :=
  match j with
  | JObj kvs =>
      fnName ← str_field "fnName" kvs;
      fnName ← fnName;
      className ← str_field "className" kvs;
      serviceName ← str_field "serviceName" kvs;
      Some (mkItem fnName className serviceName)
  | _ => None
  end.

Definition chain_field (kvs : list (string * json))
  : option (option (list ICallStackNamesChainItem)) :=
  match assoc "callStackNamesChain" kvs with
  | None => Some None
  | Some (JArr l) => Some <$> mapM item_of_json l
  | Some _ => None
  end.

Definition hashData_of_json (j : json) : option ITraceHashData :=
  match j with
  | JObj kvs =>
      chain ← chain_field kvs;
      className ← str_field "className" kvs;
      fnName ← str_field "fnName" kvs;
      id ← str_field "id" kvs;
      serviceName ← str_field "serviceName" kvs;
      spanHash ← str_field "spanHash" kvs;
      Some (mkHashData chain className (assoc "data" kvs) fnName id
                       serviceName spanHash)
  | _ => None
  end.

Section Tracer.

Context (ext : Externals).

(** [JSON.stringify(v)]: [undefined] for a value without text, a
    [TypeError] on a circular structure. *)

Definition JSON_stringify (h : list jsobj) (v : jsval)
  : Result (option string) :=
  match to_json (S (length h)) h v with
  | None => Throw (TypeError "Converting circular structure to JSON")
  | Some None => Ok None
  | Some (Some j) => Ok (Some (JSON_print ext j))
  end.

(** [JSON.parse(text)]; the argument is converted to a string first, so
    [null] parses to [null] and [undefined] is a syntax error. *)

Definition JSON_parse (text : string) : Result json :=
  match JSON_read ext text with
  | Some j => Ok j
  | None => Throw (SyntaxError "Unexpected token in JSON")
  end.

Definition hashEncode (hashData : ITraceHashData) : string :=
  let base64Hash :=
    compressToBase64 ext (JSON_print ext (json_of_hashData hashData)) in
  TRACE_HASH_PREFIX +:+ base64Hash.

Definition hashDecode (hash : string) : Result json :=
  let base64Hash := replace_first TRACE_HASH_PREFIX "" hash in
  let hashDataStr := decompressFromBase64 ext base64Hash in
  match hashDataStr with
  | None => Ok JNull
  | Some text => JSON_parse text
  end.

(** ** [logger.ts] *)

Definition LOG_LEVELS : list TLogLevel :=
  [LError; LWarn; LInfo; LDebug; LVerbose].

Fixpoint indexOf_from {A} `{EqDecision A} (l : list A) (x : A) (i : Z) : Z :=
  match l with
  | [] => (-1)%Z
  | y :: l' => if decide (y = x) then i else indexOf_from l' x (i + 1)%Z
  end.

(** [LOG_LEVELS.indexOf(level)], [-1] for [undefined]. *)

Definition indexOf (level : option TLogLevel) : Z :=
  match level with
  | Some l => indexOf_from LOG_LEVELS l 0%Z
  | None => (-1)%Z
  end.

Record Logger := mkLogger {
  _traceCtx : option TraceContext;
  _driver : option ILogDriver;
  _level : option TLogLevel;
  _scope : option string;
}.

Record ILoggerConfig := mkLoggerConfig {
  lc_driver : option ILogDriver;
  lc_level : option TLogLevel;
  lc_scope : option string;
  lc_traceCtx : option TraceContext;
}.

(** [new Logger(config)] in a world where [Logger.level] is [global]. *)

Definition Logger_new (global : option TLogLevel) (config : ILoggerConfig)
  : Logger :=
  mkLogger (lc_traceCtx config)
           (lc_driver config)
           (match lc_level config with
            | Some l => Some l
            | None => global
            end)
           (lc_scope config).

(** The item [_log] builds for [dataToStringify]: a plain object with a
    truthy [$ctx] is copied without it. *)

Definition cleanItem (item : jsval) : M jsval :=
  w ← get_world;
  if isPlainObject (heap w) item && truthy (read_prop (heap w) item "$ctx")
  then
    match item with
    | VRef l =>
        match heap w !! l with
        | Some o =>
            let '(h, rest) :=
              alloc (mkObj KPlain (remove_key "$ctx" (oprops o))) (heap w) in
            modify (set_heap h);; mret (VRef rest)
        | None => mret item
        end
    | _ => mret item
    end
  else mret item.

Fixpoint cleanItems (data : list jsval) : M (list jsval) :=
  match data with
  | [] => mret []
  | item :: data' =>
      c ← cleanItem item;
      cs ← cleanItems data';
      mret (c :: cs)
  end.

(** [JSON.parse(JSON.stringify(x))] under [try]/[catch]: [undefined] when
    either call throws.  [x] is the rest array [data] itself, or its only
    element. *)

Definition plain_of (h : list jsobj) (data : list jsval) : option json :=
  let text :=
    match data with
    | [item] => JSON_stringify h item
    | _ =>
        match mapM (λ v, default JNull <$> to_json (S (length h)) h v) data with
        | Some js => Ok (Some (JSON_print ext (JArr js)))
        | None => Throw (TypeError "Converting circular structure to JSON")
        end
    end in
  match text with
  | Ok (Some t) => JSON_read ext t
  | _ => None
  end.

(** [_log(level, message, ...data)].  The file path of the caller is
    computed by the source and used nowhere; it is left out. *)

Definition _log (self : Logger) (level : TLogLevel) (message : string)
    (data : list jsval) : M unit :=
  match _driver self with
  | None => throw (Error "no log driver provided")
  | Some driver =>
    w ← get_world;
    if bool_decide (env_LOG_SILENT w = Some "true") then mret tt else
    let currentLevelIdx := indexOf (_level self) in
    let levelIdx := indexOf (Some level) in
    if (levelIdx <? 0)%Z || (levelIdx >? currentLevelIdx)%Z then mret tt else
    let scopedMessage :=
      match _scope self with
      | Some scope =>
          if truthy_str (Some scope) then scope +:+ " : " +:+ message
          else message
      | None => message
      end in
    plainData ←
      (if bool_decide (0 < length data) then
         dataToStringify ← cleanItems data;
         w' ← get_world;
         mret (plain_of (heap w') data)
       else mret None);
    emit (EvLog driver level scopedMessage plainData (_traceCtx self))
  end.

Definition debug (self : Logger) (message : string) (data : list jsval)
  : M unit := _log self LDebug message data.

Definition verbose (self : Logger) (message : string) (data : list jsval)
  : M unit := _log self LVerbose message data.

Definition info (self : Logger) (message : string) (data : list jsval)
  : M unit := _log self LInfo message data.

Definition warn (self : Logger) (message : string) (data : list jsval)
  : M unit := _log self LWarn message data.

Definition error (self : Logger) (message : string) (data : list jsval)
  : M unit := _log self LError message data.

(** [TraceContext.prototype.errorNotify] ([context.ts]). *)

Definition errorNotify (self : TraceContext) (err : JsError) : M unit :=
  w ← get_world;
  match TC_traceDriver (statics w) with
  | Some d => emit (EvErrorNotify d err)
  | None => mret tt
  end.

Definition critical (self : Logger) (message : string) (data : list jsval)
  : M unit :=
  _log self LError message data;;
  match _traceCtx self with
  | Some ctx => errorNotify ctx (Error message)
  | None =>
      throw (TypeError
               "Cannot read properties of undefined (reading 'errorNotify')")
  end.

Definition fork (self : Logger) (scope : string) : M Logger :=
  w ← get_world;
  mret (Logger_new (Logger_level (statics w))
          (mkLoggerConfig
             (_driver self)
             None
             (Some (String.concat "."
                      (filter (λ s, s ≠ "")
                         (option_list (_scope self) ++ [scope]))))
             (_traceCtx self))).

(** ** [context.ts]: the context class *)

Record ITraceContextConfig := mkConfig {
  cfg_id : option string;
  cfg_autoTracing : option bool;
  cfg_callStackNamesChain : option (list ICallStackNamesChainItem);
  cfg_className : option string;
  cfg_data : jsval;
  cfg_filePath : option string;
  cfg_fnName : option string;
  cfg_parent : option TraceContext;
  cfg_serviceColor : option string;
  cfg_serviceName : option string;
  cfg_spanHash : option string;
}.

Definition empty_config : ITraceContextConfig :=
  mkConfig None None None None VUndef None None None None None None.

(** [a ?? b] on optional fields. *)

Definition nullish {A} (a b : option A) : option A :=
  match a with
  | Some x => Some x
  | None => b
  end.

Definition fresh_ref : M nat :=
  w ← get_world;
  modify (set_next_ref (S (next_ref w)));;
  mret (next_ref w).

Definition nanoid_draw : M string :=
  w ← get_world;
  modify (set_nanoid_calls (S (nanoid_calls w)));;
  mret (nanoid ext (nanoid_calls w)).

(** The public fields [data] and [span] of a context in a world. *)

Definition data_of (w : World) (c : TraceContext) : jsval :=
  default VUndef (ctx_data w !! ctx_ref c).

Definition span_of (w : World) (c : TraceContext) : option nat :=
  ctx_span w !! ctx_ref c.

Definition set_data (c : TraceContext) (v : jsval) : M unit :=
  modify (λ w, set_ctx_data (<[ctx_ref c := v]> (ctx_data w)) w).

(** [new TraceContext(config)]. *)

Definition TraceContext_new (config : ITraceContextConfig) : M TraceContext :=
  id ← match cfg_id config with
       | Some id => mret id
       | None => nanoid_draw
       end;
  ref ← fresh_ref;
  w ← get_world;
  let self :=
    mkTraceContext ref id
      (default true (cfg_autoTracing config))
      (nullish (cfg_serviceName config) (TC_serviceName (statics w)))
      (nullish (cfg_serviceColor config) (TC_serviceColor (statics w)))
      (cfg_callStackNamesChain config)
      (cfg_className config)
      (cfg_filePath config)
      (cfg_fnName config)
      (cfg_parent config)
      (cfg_spanHash config)
      (TC_logDriver (statics w))
      (nullish (TC_logLevel (statics w)) (Logger_level (statics w))) in
  set_data self (cfg_data config);;
  match cfg_parent config with
  | Some parent =>
      if truthy (data_of w parent) then
        match merge_into_new (S (length (heap w))) (heap w)
                (cfg_data config) (data_of w parent) with
        | Some (h, merged) =>
            modify (set_heap h);;
            set_data self (VRef merged);;
            mret self
        | None => stuck
        end
      else mret self
  | None => mret self
  end.

(** The logger the constructor gives the context. *)

Definition logger (self : TraceContext) : Logger :=
  mkLogger (Some self) (_logger_driver self) (_logger_level self) None.

Definition isShared (w : World) (self : TraceContext) : bool :=
  match TC_shared (statics w) with
  | Some shared => Nat.eqb (ctx_ref self) (ctx_ref shared)
  | None => false
  end.

(** The frame of a context: [{ className, fnName: fnName || id,
    serviceName }]. *)

Definition frame_of (c : TraceContext) : ICallStackNamesChainItem :=
  mkItem (if truthy_str (_fnName c) then default "" (_fnName c) else _id c)
         (_className c)
         (_serviceName c).

(** The [while (nextParent)] loop of [_evalCallStackNamesChain], entered
    with [nextParent = p]. *)

Fixpoint walk_parents (p : TraceContext)
    (names : list ICallStackNamesChainItem)
  : list ICallStackNamesChainItem :=
  match _callStackNamesChain p with
  | Some chain => chain ++ names
  | None =>
      match _parent p with
      | Some q => walk_parents q (frame_of p :: names)
      | None => frame_of p :: names
      end
  end.

Definition _evalCallStackNamesChain (w : World) (self : TraceContext)
  : list ICallStackNamesChainItem :=
  if isShared w self then [] else
  match _callStackNamesChain self with
  | Some chain => chain
  | None =>
      match _parent self with
      | Some p => walk_parents p [frame_of self]
      | None => [frame_of self]
      end
  end.

(** The loop of the [callStackName] getter. *)

Record NamesState := mkNames {
  currServiceName : option string;
  currClassName : option string;
  names : list string;
  currNames : list string;
}.

Definition callStackName_step (globalService : option string)
    (st : NamesState) (item : ICallStackNamesChainItem) : NamesState :=
  let itemNames := [item_fnName item] in
  if bool_decide (item_className item ≠ currClassName st)
     || bool_decide (item_serviceName item ≠ currServiceName st)
  then
    let names' :=
      match currNames st with
      | [] => names st
      | _ => names st ++ [String.concat "." (currNames st)]
      end in
    let itemNames1 :=
      if truthy_str (item_className item)
      then default "" (item_className item) :: itemNames
      else itemNames in
    let itemNames2 :=
      if truthy_str (item_serviceName item)
         && bool_decide (item_serviceName item ≠ currServiceName st)
         && bool_decide (item_serviceName item ≠ globalService)
      then
        match itemNames1 with
        | first :: others =>
            ("[" +:+ default "" (item_serviceName item) +:+ "]" +:+ first)
            :: others
        | [] => []
        end
      else itemNames1 in
    mkNames (item_serviceName item) (item_className item) names'
            [String.concat ":" itemNames2]
  else
    mkNames (currServiceName st) (currClassName st) (names st)
            (currNames st ++ [String.concat ":" itemNames]).

Definition render_chain (globalService : option string)
    (chain : list ICallStackNamesChainItem) : string :=
  let st :=
    foldl (callStackName_step globalService)
          (mkNames globalService None [] []) chain in
  let names' :=
    match currNames st with
    | [] => names st
    | _ => names st ++ [String.concat "." (currNames st)]
    end in
  String.concat "->" names'.

Definition callStackName (w : World) (self : TraceContext) : string :=
  render_chain (TC_serviceName (statics w)) (_evalCallStackNamesChain w self).

(** [toHash()]: the snapshot and its token.  Reading the payload is the
    part of [JSON.stringify] that can throw. *)

Definition hashData_of (w : World) (self : TraceContext) (data : option json)
  : ITraceHashData :=
  mkHashData (Some (_evalCallStackNamesChain w self))
             (_className self)
             data
             (_fnName self)
             (Some (_id self))
             (TC_serviceName (statics w))
             (span_toHash ext <$> span_of w self).

Definition toHash (self : TraceContext) : M string :=
  w ← get_world;
  match to_json (S (length (heap w))) (heap w) (data_of w self) with
  | Some data => mret (hashEncode (hashData_of w self data))
  | None => throw (TypeError "Converting circular structure to JSON")
  end.

(** The configuration the constructor reads from a decoded value: a
    property of [null] cannot be read, a primitive or an array has none of
    the fields.  [stuck] on a field of another type than the interface
    declares, and on a [parent] field. *)

Definition bool_field (k : string) (kvs : list (string * json))
  : option (option bool) :=
  match assoc k kvs with
  | None => Some None
  | Some (JBool b) => Some (Some b)
  | Some _ => None
  end.

Definition config_of_json (j : json) : M ITraceContextConfig :=
  match j with
  | JNull => throw (TypeError "Cannot read properties of null (reading 'id')")
  | JObj kvs =>
      match hashData_of_json j, bool_field "autoTracing" kvs,
            str_field "filePath" kvs, str_field "serviceColor" kvs,
            assoc "parent" kvs with
      | Some hd, Some autoTracing, Some filePath, Some serviceColor, None =>
          w ← get_world;
          let '(h, data) :=
            match hd_data hd with
            | Some d => alloc_json d (heap w)
            | None => (heap w, VUndef)
            end in
          modify (set_heap h);;
          mret (mkConfig (hd_id hd) autoTracing (hd_callStackNamesChain hd)
                  (hd_className hd) data filePath (hd_fnName hd) None
                  serviceColor (hd_serviceName hd) (hd_spanHash hd))
      | _, _, _, _, _ => stuck
      end
  | _ => mret empty_config
  end.

Definition fromHash (hash : string) : M TraceContext :=
  match hashDecode hash with
  | Ok hashData =>
      config ← config_of_json hashData;
      TraceContext_new config
  | Throw e => throw e
  | Stuck => stuck
  end.

(** [traceStart()]: the driver's [spanStart] creates the span. *)

Definition traceStart (self : TraceContext) : M unit :=
  w ← get_world;
  match TC_traceDriver (statics w) with
  | Some driver =>
      if _autoTracing self && truthy_str (_fnName self) then
        let span := length (spans w) in
        modify (set_spans
                  (spans w ++
                   [mkSpan (default "" (_fnName self))
                           (p ← _parent self; span_of w p)
                           (p ← _parent self; _spanHash p)
                           None 0]));;
        emit (EvSpanStart driver span);;
        modify (λ w, set_ctx_span (<[ctx_ref self := span]> (ctx_span w)) w)
      else mret tt
  | None => mret tt
  end.

(** [traceFinish(status = SpanStatus.OK)]. *)

Definition span_finish (status : SpanStatus) (s : Span) : Span :=
  mkSpan (sp_opName s) (sp_parent s) (sp_parentHash s) (Some status)
         (S (sp_finished s)).

Definition traceFinish (self : TraceContext) (status : option SpanStatus)
  : M unit :=
  w ← get_world;
  match span_of w self with
  | Some span =>
      modify (set_spans
                (alter (span_finish (default OK status)) span (spans w)))
  | None => mret tt
  end.

(** [TraceContext.sharedInit(config)]. *)

Record ITraceContextSharedInitConfig := mkSharedInitConfig {
  si_injectMode : option TraceContextInjectMode;
  si_logDriver : option ILogDriver;
  si_logLevel : option TLogLevel;
  si_shouldLogStartEnd : option bool;
  si_serviceColor : option string;
  si_serviceName : option string;
  si_traceDriver : option ITraceDriver;
  si_shouldRecordTracing : option bool;
}.

Definition sharedInit (config : ITraceContextSharedInitConfig)
  : M TraceContext :=
  w ← get_world;
  match TC_shared (statics w) with
  | Some shared => mret shared
  | None =>
      logDriver ← match si_logDriver config with
                  | Some d => mret d
                  | None => ref ← fresh_ref; mret (ConsoleLogDriver ref)
                  end;
      let st := statics w in
      modify (set_statics
                (mkStatics (si_serviceName config) (si_serviceColor config)
                   (si_logLevel config) (TC_shouldLogStartEnd st)
                   (si_traceDriver config) (TC_shouldRecordTracing st)
                   (Some logDriver) None (TC_user st) (TC_injectMode st)
                   (Logger_level st)));;
      shared ← TraceContext_new
                 (mkConfig None None None None VUndef None (Some "main")
                           None None None None);
      modify (set_statics
                (mkStatics (si_serviceName config) (si_serviceColor config)
                   (si_logLevel config)
                   (default true (si_shouldLogStartEnd config))
                   (si_traceDriver config)
                   (default true (si_shouldRecordTracing config))
                   (Some logDriver) (Some shared) (TC_user st)
                   (Some (default AS_ARG (si_injectMode config)))
                   (si_logLevel config)));;
      match si_traceDriver config with
      | Some d => emit (EvTraceDriverInit d)
      | None => mret tt
      end;;
      emit (EvLogDriverInit logDriver (si_serviceName config));;
      mret shared
  end.

(** ** [context.ts]: [traceFn]

    A function value is its [name], the parameter names of its signature
    (what [getFnArgNames] recovers from the source text and caches in
    [$__argNames]) and its body. *)

Record JsFunction := mkFunction {
  fn_name : string;
  fn_argNames : list string;
  fn_call : list jsval → M jsval;
}.

Inductive LogArgs :=
| LogArgsOff                        (* absent or false *)
| LogArgsAll                        (* true *)
| LogArgsKeys (keys : list string). (* an array of keys *)

Record ITraceFnConfig := mkTraceFnConfig {
  tf_config : ITraceContextConfig;
  tf_fnArgNames : option (list string);
  tf_injectMode : option TraceContextInjectMode;
  tf_logArgs : LogArgs;
  tf_shouldLogStartEnd : option bool;
  tf_originalFn : option JsFunction;
  tf_shouldRecordTracing : option bool;
  tf_traceHashArgPath : option string;
}.

Definition empty_traceFnConfig : ITraceFnConfig :=
  mkTraceFnConfig empty_config None None LogArgsOff None None None None.

(** [CTX_ARG_NAME_REGEX.test(name)] for [/^_?\$ctx$/]. *)

Definition is_ctx_arg_name (name : string) : bool :=
  String.eqb name "$ctx" || String.eqb name "_$ctx".

(** [key.split(".")]. *)

Fixpoint split_dots (s : string) (current : string) : list string :=
  match s with
  | EmptyString => [current]
  | String c s' =>
      if Ascii.eqb c "."%char then current :: split_dots s' ""
      else split_dots s' (current +:+ String c "")
  end.

Fixpoint findIndex (name : string) (argNames : list string) (i : nat)
  : option nat :=
  match argNames with
  | [] => None
  | n :: rest =>
      if String.eqb name n then Some i else findIndex name rest (S i)
  end.

(** The scan of the arguments for a parent context or a trace hash: the
    values of [$parentCtx] and [$parentTraceHash] when the loop ends. *)

Fixpoint find_parent (h : list jsobj) (args : list jsval)
    (parentCtx parentTraceHash : jsval) : jsval * jsval :=
  match args with
  | [] => (parentCtx, parentTraceHash)
  | arg :: rest =>
      let '(pc, ph) :=
        if isPlainObject h arg
        then (read_prop h arg "$ctx", read_prop h arg "$traceHash")
        else match arg with
             | VCtx _ => (arg, parentTraceHash)
             | VStr s =>
                 if String.prefix TRACE_HASH_PREFIX s
                 then (parentCtx, arg)
                 else (parentCtx, parentTraceHash)
             | _ => (parentCtx, parentTraceHash)
             end in
      if truthy pc || truthy ph then (pc, ph) else find_parent h rest pc ph
  end.

(** [finish(result, error)]. *)

Definition finish (call : TracedCall) (result : jsval)
    (err : option JsError) : M jsval :=
  w ← get_world;
  let endTime := clock w in
  (if tc_shouldLogStartEnd call then
     verbose (logger (tc_ctx call))
       ("end [ELAPSED=" +:+ pretty (endTime - tc_startTime call)%Z +:+ "]") []
   else mret tt);;
  (if tc_shouldRecordTracing call then
     traceFinish (tc_ctx call)
       (Some (match err with Some _ => INTERNAL_ERROR | None => OK end))
   else mret tt);;
  mret result.

(** The body both [catch] handlers share: the failure log and the second
    [finish]. *)

Definition log_fail (call : TracedCall) (err : JsError) : M unit :=
  w ← get_world;
  let '(h, info) :=
    alloc (mkObj KPlain
             [("fileName", match efileName err with
                           | Some f => VStr f
                           | None => VUndef
                           end);
              ("message", VStr (emessage err))]) (heap w) in
  modify (set_heap h);;
  error (logger (tc_ctx call)) "fail" [VRef info];;
  finish call VNull (Some err);;
  mret tt.

(** What [result.then(finish).catch(...)] does when [result] settles. *)

Definition settle (call : TracedCall) (outcome : Result jsval) : M jsval :=
  match outcome with
  | Ok value =>
      try_catch (finish call value None)
                (λ err, log_fail call err;; throw err)
  | Throw err => log_fail call err;; throw err
  | Stuck => stuck
  end.

(** The start arguments [traceFnConfig.logArgs] asks for.  [_.get(argVal,
    valPath)] is taken as [_.get([argVal], "0." + valPath)]. *)

Definition start_args (logArgs : LogArgs) (argNames : list string)
    (args : list jsval) : M jsval :=
  match logArgs with
  | LogArgsOff => mret VUndef
  | LogArgsKeys keys =>
      w ← get_world;
      let '(h, startArgs) := alloc (mkObj KPlain []) (heap w) in
      modify (set_heap h);;
      foldl (λ (acc : M unit) key,
               acc;;
               match split_dots key "" with
               | argName :: keyParts =>
                   match findIndex argName argNames 0 with
                   | Some argIdx =>
                       w ← get_world;
                       let argVal := default VUndef (args !! argIdx) in
                       let valPath := String.concat "." keyParts in
                       let valToLog :=
                         match keyParts with
                         | [] => argVal
                         | _ =>
                             if String.eqb valPath "" then argVal
                             else lodash_get ext (heap w) [argVal]
                                    ("0." +:+ valPath)
                         end in
                       modify (set_heap
                                 (lodash_set ext (heap w) startArgs key
                                    valToLog))
                   | None => mret tt
                   end
               | [] => mret tt
               end)
            (mret tt) keys;;
      mret (VRef startArgs)
  | LogArgsAll =>
      w ← get_world;
      let '(h, startArgs) := alloc (mkObj KPlain []) (heap w) in
      modify (set_heap h);;
      foldl (λ (acc : M unit) (ia : nat * jsval),
               acc;;
               w ← get_world;
               modify (set_heap
                         (lodash_set ext (heap w) startArgs
                            (default "undefined" (argNames !! ia.1)) ia.2)))
            (mret tt) (imap (λ i a, (i, a)) args);;
      mret (VRef startArgs)
  end.

(** The arguments of the call: the context at every parameter named
    [$ctx], the received arguments elsewhere, [undefined] beyond them. *)

Definition new_args (argNames : list string) (args : list jsval)
    (ctx : TraceContext) : list jsval :=
  imap (λ i name,
          if bool_decide (i < length args) then
            if is_ctx_arg_name name then VCtx ctx
            else default VUndef (args !! i)
          else if is_ctx_arg_name name then VCtx ctx
          else VUndef)
       argNames.

Definition inject_first_arg (newArgs : list jsval) (ctx : TraceContext)
  : M (list jsval) :=
  newArgs1 ← match newArgs with
             | [] =>
                 w ← get_world;
                 let '(h, o) := alloc (mkObj KPlain []) (heap w) in
                 modify (set_heap h);;
                 mret [VRef o]
             | _ => mret newArgs
             end;
  w ← get_world;
  match newArgs1 with
  | VRef l :: rest =>
      match heap w !! l with
      | Some o =>
          if bool_decide (okind o = KPlain) then
            let '(h, o') :=
              alloc (mkObj KPlain (set_in "$ctx" (VCtx ctx) (oprops o)))
                    (heap w) in
            modify (set_heap h);;
            mret (VRef o' :: rest)
          else mret newArgs1
      | None => mret newArgs1
      end
  | _ => mret newArgs1
  end.

(** [traceFn(fnName, traceFnConfig, fnToTrace)] applied to [args].  The
    two shorter overloads are the cases [fnName = None] and
    [traceFnConfig = empty_traceFnConfig]; a call without a function
    returns [null] instead of a wrapper and has no value here.  A [$ctx]
    property that is truthy and is no context has no value in the model
    ([stuck]); functions are not among the values, so the value at
    [traceHashArgPath] is a string or is ignored. *)

Definition traceFn (fnName : option string) (traceFnConfig : ITraceFnConfig)
    (fnToCall : JsFunction) (args : list jsval) : M jsval :=
  let fnToGetInfoFrom := default fnToCall (tf_originalFn traceFnConfig) in
  let base := tf_config traceFnConfig in
  let config_fnName :=
    Some (default (fn_name fnToGetInfoFrom)
            (nullish (cfg_fnName base) fnName)) in
  let argNames :=
    default (fn_argNames fnToGetInfoFrom) (tf_fnArgNames traceFnConfig) in
  w ← get_world;
  let injectMode :=
    nullish (tf_injectMode traceFnConfig) (TC_injectMode (statics w)) in
  let shouldLogStartEnd :=
    default (TC_shouldLogStartEnd (statics w))
            (tf_shouldLogStartEnd traceFnConfig) in
  let shouldRecordTracing :=
    default (TC_shouldRecordTracing (statics w))
            (tf_shouldRecordTracing traceFnConfig) in
  let '(parentCtx0, parentTraceHash0) :=
    match cfg_parent base with
    | Some p => (VCtx p, VUndef)
    | None => find_parent (heap w) args VUndef VUndef
    end in
  let parentTraceHash :=
    match tf_traceHashArgPath traceFnConfig with
    | Some path =>
        if String.eqb path "" then parentTraceHash0 else
        match lodash_get ext (heap w) args path with
        | VStr s => VStr s
        | _ => parentTraceHash0
        end
    | None => parentTraceHash0
    end in
  parentCtx ←
    (if truthy parentCtx0 then
       match parentCtx0 with
       | VCtx p => mret (Some p)
       | _ => stuck
       end
     else if truthy parentTraceHash then
       match parentTraceHash with
       | VStr hash => p ← fromHash hash; mret (Some p)
       | _ => throw (TypeError "hash.replace is not a function")
       end
     else mret None);
  ctx ← TraceContext_new
          (mkConfig (cfg_id base) (cfg_autoTracing base)
             (cfg_callStackNamesChain base) (cfg_className base)
             (cfg_data base) (cfg_filePath base) config_fnName parentCtx
             (cfg_serviceColor base) (cfg_serviceName base)
             (cfg_spanHash base));
  (if shouldRecordTracing then traceStart ctx else mret tt);;
  w1 ← get_world;
  let startTime := clock w1 in
  startArgs ← start_args (tf_logArgs traceFnConfig) argNames args;
  (if shouldLogStartEnd then verbose (logger ctx) "start" [startArgs]
   else mret tt);;
  let call := mkTracedCall ctx startTime shouldLogStartEnd
                           shouldRecordTracing in
  newArgs ←
    (if bool_decide (injectMode = Some IN_FIRST_ARG_OBJECT)
     then inject_first_arg (new_args argNames args ctx) ctx
     else mret (new_args argNames args ctx));
  result ← fn_call fnToCall newArgs;
  match result with
  | VPromise p =>
      p' ← fresh_ref;
      modify (λ w, set_pending (pending w ++ [(p, p', call)]) w);;
      mret (VPromise p')
  | _ =>
      try_catch (finish call VUndef None;; mret tt)
                (λ err, log_fail call err);;
      mret result
  end.

End Tracer.

(** ** A reference instance of the third-party functions

    Used to run the model on concrete inputs.  The JSON text functions
    print and read the compact form [JSON.stringify] produces (integers,
    strings with escaped quotes and backslashes).  The stand-in for
    lz-string keeps the text as it is; like the library it answers
    [null] on the empty input. *)

Module Reference.

Definition dquote : ascii := ascii_of_nat 34.
Definition backslash : ascii := ascii_of_nat 92.

Fixpoint escape (s : string) : string :=
  match s with
  | EmptyString => EmptyString
  | String c s' =>
      if Ascii.eqb c dquote || Ascii.eqb c backslash
      then String backslash (String c (escape s'))
      else String c (escape s')
  end.

Definition quote (s : string) : string :=
  String dquote (escape s) +:+ String dquote "".

Fixpoint print (j : json) : string :=
  match j with
  | JNull => "null"
  | JBool true => "true"
  | JBool false => "false"
  | JNum n => pretty n
  | JStr s => quote s
  | JArr l => "[" +:+ String.concat "," (List.map print l) +:+ "]"
  | JObj kvs =>
      "{" +:+ String.concat ","
                (List.map (λ kv : string * json,
                             let '(k, v) := kv in quote k +:+ ":" +:+ print v)
                          kvs)
          +:+ "}"
  end.

(** The characters of a string literal up to its closing quote. *)

Fixpoint read_string (s : string) (acc : string) : option (string * string) :=
  match s with
  | EmptyString => None
  | String c s' =>
      if Ascii.eqb c dquote then Some (acc, s')
      else if Ascii.eqb c backslash then
        match s' with
        | String d s'' => read_string s'' (acc +:+ String d "")
        | EmptyString => None
        end
      else read_string s' (acc +:+ String c "")
  end.

Definition digit_of (c : ascii) : option Z :=
  let n := nat_of_ascii c in
  if Nat.leb 48 n && Nat.leb n 57 then Some (Z.of_nat (n - 48)) else None.

Fixpoint read_digits (s : string) (acc : Z) : Z * string :=
  match s with
  | String c s' =>
      match digit_of c with
      | Some d => read_digits s' (10 * acc + d)%Z
      | None => (acc, s)
      end
  | EmptyString => (acc, s)
  end.

Definition read_number (s : string) : option (json * string) :=
  match s with
  | String "-" (String c s') =>
      match digit_of c with
      | Some d => let '(n, r) := read_digits s' d in Some (JNum (- n), r)
      | None => None
      end
  | String c s' =>
      match digit_of c with
      | Some d => let '(n, r) := read_digits s' d in Some (JNum n, r)
      | None => None
      end
  | EmptyString => None
  end.

Definition after (word s : string) : option string :=
  if String.prefix word s then Some (drop_string (String.length word) s)
  else None.

Fixpoint read_value (fuel : nat) (s : string) : option (json * string) :=
  match fuel with
  | 0 => None
  | S fuel' =>
    match s with
    | EmptyString => None
    | String c s' =>
      if Ascii.eqb c dquote then
        '(str, r) ← read_string s' ""; Some (JStr str, r)
      else if Ascii.eqb c "["%char then
        match s' with
        | String "]" r => Some (JArr [], r)
        | _ => '(l, r) ← read_elements fuel' s'; Some (JArr l, r)
        end
      else if Ascii.eqb c "{"%char then
        match s' with
        | String "}" r => Some (JObj [], r)
        | _ => '(kvs, r) ← read_members fuel' s'; Some (JObj kvs, r)
        end
      else
        match after "null" s, after "true" s, after "false" s with
        | Some r, _, _ => Some (JNull, r)
        | _, Some r, _ => Some (JBool true, r)
        | _, _, Some r => Some (JBool false, r)
        | _, _, _ => read_number s
        end
    end
  end
with read_elements (fuel : nat) (s : string) : option (list json * string) :=
  match fuel with
  | 0 => None
  | S fuel' =>
    '(v, r) ← read_value fuel' s;
    match r with
    | String "," r' => '(l, r'') ← read_elements fuel' r'; Some (v :: l, r'')
    | String "]" r' => Some ([v], r')
    | _ => None
    end
  end
with read_members (fuel : nat) (s : string)
  : option (list (string * json) * string) :=
  match fuel with
  | 0 => None
  | S fuel' =>
    match s with
    | String c s' =>
      if Ascii.eqb c dquote then
        '(k, r) ← read_string s' "";
        match r with
        | String ":" r1 =>
          '(v, r2) ← read_value fuel' r1;
          match r2 with
          | String "," r3 =>
              '(kvs, r4) ← read_members fuel' r3; Some ((k, v) :: kvs, r4)
          | String "}" r3 => Some ([(k, v)], r3)
          | _ => None
          end
        | _ => None
        end
      else None
    | EmptyString => None
    end
  end.

Definition read (s : string) : option json :=
  match read_value (S (String.length s)) s with
  | Some (j, EmptyString) => Some j
  | _ => None
  end.

Definition decompress (s : string) : option string :=
  match s with
  | EmptyString => None
  | _ => Some s
  end.

(** [_.get(root, path)] and [_.set(object, path, value)] for dotted
    paths. *)

Fixpoint get_path (h : list jsobj) (v : jsval) (path : list string) : jsval :=
  match path with
  | [] => v
  | k :: path' => get_path h (read_prop h v k) path'
  end.

Definition get (h : list jsobj) (root : list jsval) (path : string) : jsval :=
  let h' := h ++ [mkObj KArray (imap (λ i v, (pretty i, v)) root)] in
  get_path h' (VRef (length h)) (split_dots path "").

Fixpoint set_path (h : list jsobj) (object : loc) (path : list string)
    (value : jsval) : list jsobj :=
  match path with
  | [] => h
  | [k] =>
      match h !! object with
      | Some o => <[object := set_prop o k value]> h
      | None => h
      end
  | k :: path' =>
      match h !! object with
      | Some o =>
          match get_prop o k with
          | VRef l => set_path h l path' value
          | _ =>
              let l := length h in
              set_path (<[object := set_prop o k (VRef l)]> h ++
                        [mkObj KPlain []]) l path' value
          end
      | None => h
      end
  end.

Definition set (h : list jsobj) (object : loc) (path : string)
    (value : jsval) : list jsobj :=
  set_path h object (split_dots path "") value.

Definition ext : Externals :=
  mkExternals (λ s, s) decompress print read
              (λ n, "ID" +:+ pretty n)
              (λ n, "span-" +:+ pretty n)
              get set.

End Reference.

(** ** Concrete worlds

    A process initialised with a log driver, a trace driver and the
    [verbose] level, in which the examples run. *)

Module Scenario.

Import Reference.

Definition logDriver : ILogDriver := CustomLogDriver 100.
Definition traceDriver : ITraceDriver := CustomTraceDriver 200.

Definition init_config : ITraceContextSharedInitConfig :=
  mkSharedInitConfig None (Some logDriver) (Some LVerbose) None None
                     (Some "svc") (Some traceDriver) None.

Definition world0 : World := snd (sharedInit ext init_config initial_world).

Definition shared0 : TraceContext :=
  default (mkTraceContext 0 "" true None None None None None None None None
                          None None)
          (TC_shared (statics world0)).

(** A context with a started span. *)

Definition traced_config : ITraceContextConfig :=
  mkConfig None None None (Some "Foo") VUndef None (Some "f") None None None
           None.

Definition traced_ctx : TraceContext :=
  match TraceContext_new ext traced_config world0 with
  | (Ok c, _) => c
  | _ => shared0
  end.

Definition world_traced : World :=
  snd (traceStart traced_ctx (snd (TraceContext_new ext traced_config world0))).

End Scenario.

(** ** Specification predicates *)

(** The third-party codec functions are inverse to each other on the text
    of the JSON value [j]. *)

Definition codec_ok (ext : Externals) (j : json) : Prop :=
  JSON_read ext (JSON_print ext j) = Some j
  ∧ decompressFromBase64 ext (compressToBase64 ext (JSON_print ext j))
    = Some (JSON_print ext j).

Fixpoint ctx_depth (c : TraceContext) : nat :=
  match _parent c with
  | Some p => S (ctx_depth p)
  | None => 0
  end.

(** The shared context was allocated before the next object will be. *)

Definition wf_shared (w : World) : Prop :=
  match TC_shared (statics w) with
  | Some shared => ctx_ref shared < next_ref w
  | None => True
  end.

(** ** Lineage examples: constructing children of a live context and of
    the context rebuilt from its hash. *)

Module Lineage.

Import Reference.

Definition child_config (parent : TraceContext) : ITraceContextConfig :=
  mkConfig None None None (Some "Foo") VUndef None (Some "f") (Some parent)
           None None None.

(** [new TraceContext(config)], for configurations on which the
    constructor returns. *)

Definition construct (config : ITraceContextConfig) (w : World)
  : TraceContext * World :=
  match TraceContext_new ext config w with
  | (Ok c, w') => (c, w')
  | (_, w') => (Scenario.shared0, w')
  end.

(** A child of the shared context. *)

Definition live_child : TraceContext * World :=
  construct (child_config Scenario.shared0) Scenario.world0.

(** The shared context rebuilt from its own hash, and a child of the
    rebuilt context. *)

Definition rebuilt : TraceContext * World :=
  match toHash ext Scenario.shared0 Scenario.world0 with
  | (Ok token, w) =>
      match fromHash ext token w with
      | (Ok c, w') => (c, w')
      | (_, w') => (Scenario.shared0, w')
      end
  | (_, w) => (Scenario.shared0, w)
  end.

Definition rebuilt_child : TraceContext * World :=
  construct (child_config (fst rebuilt)) (snd rebuilt).

(** The same below a context that is not the shared one. *)

Definition parent : TraceContext * World :=
  construct (mkConfig None None None (Some "Bar") VUndef None (Some "g") None
                      None None None) Scenario.world0.

Definition parent_child : TraceContext * World :=
  construct (child_config (fst parent)) (snd parent).

(** A second process, initialised with another service name, and the
    context [parent] of the first process rebuilt there from its
    hash. *)

Definition world_billing : World :=
  snd (sharedInit ext
         (mkSharedInitConfig None (Some Scenario.logDriver) (Some LVerbose)
            None None (Some "billing") (Some Scenario.traceDriver) None)
         initial_world).

Definition rebuilt_elsewhere : TraceContext * World :=
  match toHash ext (fst parent) (snd parent) with
  | (Ok token, _) =>
      match fromHash ext token world_billing with
      | (Ok c, w') => (c, w')
      | (_, w') => (Scenario.shared0, w')
      end
  | (_, _) => (Scenario.shared0, world_billing)
  end.

End Lineage.

(** ** Traced functions of the examples *)

Module Calls.

Import Reference.

(** A business function whose call is visible in the world. *)

Definition charge : JsFunction :=
  mkFunction "charge" ["token"]
    (λ _, emit (EvLog Scenario.logDriver LInfo "charged" None None);;
          mret (VNum 42)).

(** [function f() { throw new Error("E"); }] *)

Definition thrower : JsFunction :=
  mkFunction "f" [] (λ _, throw (Error "E")).

(** The context the wrapper builds for a call of [thrower] in the
    initialised process. *)

Definition thrower_ctx : TraceContext :=
  fst (Lineage.construct
         (mkConfig None None None None VUndef None (Some "f") None None None
                   None)
         Scenario.world0).

(** The world with the object [{ a: 1, $ctx: <the shared context> }] at
    location 0, and with [{ a: 1, $ctx: 1 }]. *)

Definition world_item : World :=
  set_heap [mkObj KPlain [("a", VNum 1); ("$ctx", VCtx Scenario.shared0)]]
           Scenario.world0.

Definition world_item_number : World :=
  set_heap [mkObj KPlain [("a", VNum 1); ("$ctx", VNum 1)]] Scenario.world0.

End Calls.

(** ** Payloads *)

Definition is_primitive (v : jsval) : bool :=
  match v with
  | VUndef | VNull | VBool _ | VNum _ | VStr _ => true
  | VRef _ | VCtx _ | VPromise _ => false
  end.

(** [plain_data h n v]: [v] is a primitive, or a plain object or array of
    [h] with distinct keys whose values are plain data, nested at most
    [n] deep. *)

Fixpoint plain_data (h : list jsobj) (n : nat) (v : jsval) : bool :=
  match v with
  | VRef l =>
      match n with
      | 0 => false
      | S n' =>
          match h !! l with
          | Some o =>
              negb (bool_decide (okind o = KInstance))
              && bool_decide (NoDup (oprops o).*1)
              && forallb (λ kv : string * jsval, plain_data h n' kv.2)
                         (oprops o)
          | None => false
          end
      end
  | VCtx _ | VPromise _ => false
  | _ => true
  end.

(** The objects a value leads to. *)

Inductive reach (h : list jsobj) : jsval → loc → Prop :=
| reach_here (l : loc) : reach h (VRef l) l
| reach_prop (l : loc) (o : jsobj) (k : string) (v : jsval) (l' : loc) :
    h !! l = Some o → (k, v) ∈ oprops o → reach h v l' →
    reach h (VRef l) l'.

(** [extends h0 h]: [h] is [h0] with new objects behind it; a new object
    holds primitives and references to newer objects only. *)

Definition extends (h0 h : list jsobj) : Prop :=
  (length h0 ≤ length h)%nat
  ∧ (∀ l, (l < length h0)%nat → h !! l = h0 !! l)
  ∧ (∀ l o k v,
       (length h0 ≤ l)%nat → h !! l = Some o → (k, v) ∈ oprops o →
       is_primitive v = true ∨ ∃ l', v = VRef l' ∧ (l < l' < length h)%nat).

(** What merging the object [src] into an object does to the value of
    the key [k]: [o] before, [o'] after. *)

Definition merged_key (src o o' : jsobj) (k : string) : Prop :=
  match assoc k (oprops src) with
  | Some v =>
      if is_primitive v then
        if is_undefined v then get_prop o' k = get_prop o k
        else get_prop o' k = v
      else ∃ l', get_prop o' k = VRef l'
  | None => assoc k (oprops o') = assoc k (oprops o)
  end.

(** ** The content of a payload

    A value read to the end: a primitive, or the kind and the properties
    of an object with the content of each.  [None] when the budget is
    exhausted or a reference leads nowhere. *)

Inductive tree :=
| TLeaf (v : jsval)
| TNode (kind : objkind) (props : list (string * tree)).

Fixpoint tree_of (fuel : nat) (h : list jsobj) (v : jsval) : option tree :=
  match v with
  | VRef l =>
      match fuel with
      | 0 => None
      | S fuel' =>
          o ← h !! l;
          props ← mapM (λ kv : string * jsval,
                          t ← tree_of fuel' h kv.2; Some (kv.1, t))
                       (oprops o);
          Some (TNode (okind o) props)
      end
  | _ => Some (TLeaf v)
  end.

Definition props_of (t : tree) : list (string * tree) :=
  match t with
  | TNode _ props => props
  | TLeaf _ => []
  end.

(** The deep merge of the specification, in the words of lodash's
    [merge]: the properties of the source are assigned to the
    destination in their order; a source property that is [undefined] is
    skipped when the destination has a value; array and plain-object
    properties are merged recursively (into the destination's value when
    it is an object to merge into, into a new array or object
    otherwise); every other value overrides the destination's.
    [deep_merge_value d s] is the value of a key after the merge, from
    the destination's value [d] before ([None] when it has none) and the
    source's value [s]. *)

Fixpoint deep_merge_value (objValue : option tree) (srcValue : tree) : tree :=
  match srcValue with
  | TLeaf v => if is_undefined v then default srcValue objValue else srcValue
  | TNode KInstance _ => srcValue
  | TNode kind srcProps =>
      let '(kind', objProps) :=
        match objValue with
        | Some (TNode k props) =>
            if bool_decide (kind = KArray) && negb (bool_decide (k = KArray))
            then (KArray, [])
            else (k, props)
        | _ => (kind, [])
        end in
      TNode kind'
        (foldl (λ acc kv,
                  set_in kv.1 (deep_merge_value (assoc kv.1 acc) kv.2) acc)
               objProps srcProps)
  end.

Definition deep_merge_props (objProps srcProps : list (string * tree))
  : list (string * tree) :=
  foldl (λ acc kv, set_in kv.1 (deep_merge_value (assoc kv.1 acc) kv.2) acc)
        objProps srcProps.

(** Plain content: no class instance, distinct keys, primitive
    leaves. *)

Fixpoint plain_tree (t : tree) : bool :=
  match t with
  | TLeaf v => is_primitive v
  | TNode kind props =>
      negb (bool_decide (kind = KInstance))
      && bool_decide (NoDup props.*1)
      && forallb (λ kt : string * tree, plain_tree kt.2) props
  end.

(** [rep h v t F]: in the heap [h] the value [v] has the content [t],
    and the objects it leads to lie in [F], each under one property
    only: the values of two properties of an object lead to disjoint
    parts of [F]. *)

Inductive rep (h : list jsobj) : jsval → tree → gset loc → Prop :=
| rep_leaf (v : jsval) (F : gset loc) :
    is_primitive v = true → rep h v (TLeaf v) F
| rep_node (l : loc) (o : jsobj) (ts : list (string * tree))
    (F : gset loc) :
    h !! l = Some o → l ∈ F →
    reps h (oprops o) ts (F ∖ {[l]}) →
    rep h (VRef l) (TNode (okind o) ts) F
with reps (h : list jsobj)
  : list (string * jsval) → list (string * tree) → gset loc → Prop :=
| reps_nil (F : gset loc) : reps h [] [] F
| reps_cons (k : string) (v : jsval) (t : tree)
    (ps : list (string * jsval)) (ts : list (string * tree))
    (F F1 F2 : gset loc) :
    F1 ## F2 → F1 ∪ F2 ⊆ F →
    rep h v t F1 → reps h ps ts F2 →
    reps h ((k, v) :: ps) ((k, t) :: ts) F.

Scheme rep_mind := Minimality for rep Sort Prop
  with reps_mind := Minimality for reps Sort Prop.

(** The objects allocated between two heaps. *)

Definition new_locs (h h' : list jsobj) : gset loc :=
  set_seq (length h) (length h' - length h).

(** ** Payload examples *)

Module Inheritance.

Import Reference.

(** The payload of the parent,
    [{ a: 1, region: "eu", limits: { rate: 5, burst: [1, 2] } }], at
    location 0 and the payload supplied to the child,
    [{ a: 2, own: true, limits: { rate: 9, extra: 0 } }], at location 1. *)

Definition parent_payload : jsobj :=
  mkObj KPlain [("a", VNum 1); ("region", VStr "eu"); ("limits", VRef 2)].

Definition supplied_payload : jsobj :=
  mkObj KPlain [("a", VNum 2); ("own", VBool true); ("limits", VRef 3)].

Definition world_payloads : World :=
  set_heap [parent_payload;
            supplied_payload;
            mkObj KPlain [("rate", VNum 5); ("burst", VRef 4)];
            mkObj KPlain [("rate", VNum 9); ("extra", VNum 0)];
            mkObj KArray [("0", VNum 1); ("1", VNum 2)]]
           Scenario.world0.

Definition parent : TraceContext * World :=
  Lineage.construct
    (mkConfig None None None None (VRef 0) None (Some "g") None None None None)
    world_payloads.

Definition child : TraceContext * World :=
  Lineage.construct
    (mkConfig None None None None (VRef 1) None (Some "f")
              (Some (fst parent)) None None None)
    (snd parent).

(** A parent payload [{ user: u }] where [u] is an instance of a class. *)

Definition world_instance : World :=
  set_heap [mkObj KPlain [("user", VRef 1)];
            mkObj KInstance [("name", VStr "ann")]]
           Scenario.world0.

Definition parent_i : TraceContext * World :=
  Lineage.construct
    (mkConfig None None None None (VRef 0) None (Some "g") None None None None)
    world_instance.

Definition child_i : TraceContext * World :=
  Lineage.construct
    (mkConfig None None None None VUndef None (Some "f")
              (Some (fst parent_i)) None None None)
    (snd parent_i).

(** [child.data.user.name = "bob"] in the world of [child_i]. *)

Definition rename_through_child : list jsobj :=
  match read_prop (heap (snd child_i)) (data_of (snd child_i) (fst child_i))
                  "user" with
  | VRef u =>
      alter (λ o, set_prop o "name" (VStr "bob")) u (heap (snd child_i))
  | _ => heap (snd child_i)
  end.

End Inheritance.

(** ** [context.ts]: the remaining members of [TraceContext] *)

(** The static getter [TraceContext.logger]: the logger of the shared
    context, or a new logger without driver and context. *)

Definition TraceContext_logger (w : World) : Logger :=
  match TC_shared (statics w) with
  | Some shared => logger shared
  | None =>
      Logger_new (Logger_level (statics w))
        (mkLoggerConfig None (TC_logLevel (statics w)) None None)
  end.

(** [TraceContext.sharedExists()]. *)

Definition sharedExists (w : World) : bool :=
  match TC_shared (statics w) with
  | Some _ => true
  | None => false
  end.

(** The own enumerable properties an object spread [{ ...v }] copies.
    The characters of a string and the fields of a context are not
    modelled. *)

Definition spread (h : list jsobj) (v : jsval)
  : option (list (string * jsval)) :=
  match v with
  | VRef l => oprops <$> h !! l
  | VUndef | VNull | VBool _ | VNum _ | VPromise _ => Some []
  | VStr _ | VCtx _ => None
  end.

Section Binding.

Context (ext : Externals).

(** [call(fn, args)]: [fn({ ...args, $ctx: this })]. *)

Definition TraceContext_call (self : TraceContext) (fn : JsFunction)
    (args : jsval) : M jsval :=
  w ← get_world;
  match spread (heap w) args with
  | Some ps =>
      let '(h, o) :=
        alloc (mkObj KPlain (set_in "$ctx" (VCtx self) ps)) (heap w) in
      modify (set_heap h);;
      fn_call fn [VRef o]
  | None => stuck
  end.

(** [bind(args)]: [{ ...args, $ctx: this, $traceHash: this.toHash() }]. *)

Definition TraceContext_bind (self : TraceContext) (args : jsval) : M jsval :=
  w ← get_world;
  match spread (heap w) args with
  | Some ps =>
      traceHash ← toHash ext self;
      let '(h, o) :=
        alloc (mkObj KPlain
                 (set_in "$traceHash" (VStr traceHash)
                    (set_in "$ctx" (VCtx self) ps))) (heap w) in
      modify (set_heap h);;
      mret (VRef o)
  | None => stuck
  end.

End Binding.

(** ** [drivers/sentry.ts]: the span of the Sentry driver *)

Module Sentry.

(** The values of the enumeration [SpanStatus] ([types.ts]). *)

Definition SpanStatus_value (s : SpanStatus) : string :=
  match s with
  | ABORTED => "aborted"
  | ALREADY_EXISTS => "already_exists"
  | CANCELLED => "cancelled"
  | DATA_LOSS => "data_loss"
  | DEADLINE_EXCEEDED => "deadline_exceeded"
  | FAILED_PRECONDITION => "failed_precondition"
  | INTERNAL_ERROR => "internal_error"
  | INVALID_ARGUMENT => "invalid_argument"
  | NOT_FOUND => "not_found"
  | OK => "ok"
  | OUT_OF_RANGE => "out_of_range"
  | PERMISSION_DENIED => "permission_denied"
  | RESOURCE_EXHAUSTED => "resource_exhausted"
  | UNAUTHENTICATED => "unauthenticated"
  | UNAVAILABLE => "unavailable"
  | UNIMPLEMENTED => "unimplemented"
  | UNKNOWN_ERROR => "unknown_error"
  end.

(** [ourSpanStatusToTheir(status)]; [None] is the absent argument and
    the [null] result. *)

Definition ourSpanStatusToTheir (status : option SpanStatus) : option string :=
  match status with
  | None => None
  | Some ABORTED => Some "aborted"
  | Some ALREADY_EXISTS => Some "already_exists"
  | Some CANCELLED => Some "cancelled"
  | Some DATA_LOSS => Some "data_loss"
  | Some DEADLINE_EXCEEDED => Some "deadline_exceeded"
  | Some FAILED_PRECONDITION => Some "failed_precondition"
  | Some INTERNAL_ERROR => Some "internal_error"
  | Some INVALID_ARGUMENT => Some "invalid_argument"
  | Some NOT_FOUND => Some "not_found"
  | Some OK => Some "ok"
  | Some OUT_OF_RANGE => Some "out_of_range"
  | Some PERMISSION_DENIED => Some "permission_denied"
  | Some RESOURCE_EXHAUSTED => Some "resource_exhausted"
  | Some UNAUTHENTICATED => Some "unauthenticated"
  | Some UNAVAILABLE => Some "unavailable"
  | Some UNIMPLEMENTED => Some "unimplemented"
  | Some UNKNOWN_ERROR => Some "unknown_error"
  end.

(** [theirSpanStatusToOur(status)]: the [switch] over the status strings
    of Sentry, [null] on every other string. *)

Definition theirSpanStatusToOur (status : option string) : option SpanStatus :=
  match status with
  | None => None
  | Some s =>
      if String.eqb s "" then None
      else if String.eqb s "aborted" then Some ABORTED
      else if String.eqb s "already_exists" then Some ALREADY_EXISTS
      else if String.eqb s "cancelled" then Some CANCELLED
      else if String.eqb s "data_loss" then Some DATA_LOSS
      else if String.eqb s "deadline_exceeded" then Some DEADLINE_EXCEEDED
      else if String.eqb s "failed_precondition" then Some FAILED_PRECONDITION
      else if String.eqb s "internal_error" then Some INTERNAL_ERROR
      else if String.eqb s "invalid_argument" then Some INVALID_ARGUMENT
      else if String.eqb s "not_found" then Some NOT_FOUND
      else if String.eqb s "ok" then Some OK
      else if String.eqb s "out_of_range" then Some OUT_OF_RANGE
      else if String.eqb s "permission_denied" then Some PERMISSION_DENIED
      else if String.eqb s "resource_exhausted" then Some RESOURCE_EXHAUSTED
      else if String.eqb s "unauthenticated" then Some UNAUTHENTICATED
      else if String.eqb s "unavailable" then Some UNAVAILABLE
      else if String.eqb s "unimplemented" then Some UNIMPLEMENTED
      else if String.eqb s "unknown_error" then Some UNKNOWN_ERROR
      else None
  end.

(** The span of the Sentry SDK a [SentryTraceDriverSpan] wraps: the
    fields the driver reads and writes. *)

Record ISentrySpan := mkSentrySpan {
  spanId : string;
  traceId : string;
  status : option string;
  finishes : nat;                (* number of calls of finish() *)
}.

(** The accessors [status] of [SentryTraceDriverSpan] and [finish()]. *)

Definition get_status (span : ISentrySpan) : option SpanStatus :=
  theirSpanStatusToOur (status span).

Definition set_status (s : option SpanStatus) (span : ISentrySpan)
  : ISentrySpan :=
  mkSentrySpan (spanId span) (traceId span) (ourSpanStatusToTheir s)
               (finishes span).

Definition finish (span : ISentrySpan) : ISentrySpan :=
  mkSentrySpan (spanId span) (traceId span) (status span) (S (finishes span)).

End Sentry.

(** ** Further specification notions *)

(** The rank of a level in [LOG_LEVELS]: the most severe first. *)

Definition severity (l : TLogLevel) : nat :=
  match l with
  | LError => 0 | LWarn => 1 | LInfo => 2 | LDebug => 3 | LVerbose => 4
  end.

(** The message a logger hands to its driver. *)

Definition scoped (self : Logger) (message : string) : string :=
  match _scope self with
  | Some scope => if String.eqb scope "" then message
                  else scope +:+ " : " +:+ message
  | None => message
  end.

(** Whether a logger lets a level through in a world: the process is
    not silenced and the level is at least as severe as the logger's. *)

Definition lets_through (self : Logger) (w : World) (level : TLogLevel)
  : bool :=
  negb (bool_decide (env_LOG_SILENT w = Some "true"))
  && match _level self with
     | Some current => Nat.leb (severity level) (severity current)
     | None => false
     end.

(** The driver call a log call without data makes, if any. *)

Definition log_events (self : Logger) (w : World) (level : TLogLevel)
    (message : string) : list Event :=
  match _driver self with
  | Some d =>
      if lets_through self w level
      then [EvLog d level (scoped self message) None (_traceCtx self)]
      else []
  | None => []
  end.

(** Whether an argument of a traced call carries a parent: a plain object
    with a truthy [$ctx] or [$traceHash], a context, or a hash token. *)

Definition carries_parent (h : list jsobj) (arg : jsval) : bool :=
  if isPlainObject h arg
  then truthy (read_prop h arg "$ctx") || truthy (read_prop h arg "$traceHash")
  else match arg with
       | VCtx _ => true
       | VStr s => String.prefix TRACE_HASH_PREFIX s
       | _ => false
       end.

(** The world [finish(result, error)] leaves when the logger of the
    context has the driver [d]: the "end" line if it is let through, and
    the span of the context finished with the status of the outcome. *)

Definition after_finish (call : TracedCall) (d : ILogDriver)
    (err : option JsError) (w : World) : World :=
  let ctx := tc_ctx call in
  let wE :=
    if tc_shouldLogStartEnd call && lets_through (logger ctx) w LVerbose
    then add_event
           (EvLog d LVerbose
              ("end [ELAPSED=" +:+ pretty (clock w - tc_startTime call)%Z +:+ "]")
              None (Some ctx)) w
    else w in
  if tc_shouldRecordTracing call then
    match span_of wE ctx with
    | Some i =>
        set_spans
          (alter (span_finish (match err with
                               | Some _ => INTERNAL_ERROR
                               | None => OK
                               end)) i (spans wE)) wE
    | None => wE
    end
  else wE.

(** The label of a frame that opens a group of a rendered chain, in a
    chain of one service. *)

Definition frame_label (item : ICallStackNamesChainItem) : string :=
  if truthy_str (item_className item)
  then default "" (item_className item) +:+ ":" +:+ item_fnName item
  else item_fnName item.

(** The state of the [callStackName] loop as a list of groups: the closed
    groups and the open one. *)

Definition groups (st : NamesState) : list string :=
  match currNames st with
  | [] => names st
  | _ => names st ++ [String.concat "." (currNames st)]
  end.

(** ** Further example worlds *)

Module Quiet.

(** The initialised process with [LOG_SILENT=true]. *)

Definition world_silent : World :=
  mkWorld (statics Scenario.world0) (Some "true") (heap Scenario.world0)
          (ctx_data Scenario.world0) (ctx_span Scenario.world0)
          (spans Scenario.world0) (next_ref Scenario.world0)
          (nanoid_calls Scenario.world0) (clock Scenario.world0)
          (pending Scenario.world0) (events Scenario.world0).

(** A process initialised without a log level, and a context created in
    it afterwards. *)

Definition init_config : ITraceContextSharedInitConfig :=
  mkSharedInitConfig None (Some Scenario.logDriver) None None None
                     (Some "svc") None None.

Definition world_unleveled : World :=
  snd (sharedInit Reference.ext init_config initial_world).

Definition later_ctx : TraceContext * World :=
  match TraceContext_new Reference.ext empty_config world_unleveled with
  | (Ok c, w) => (c, w)
  | (_, w) => (Scenario.shared0, w)
  end.

End Quiet.

(** A context created before any initialisation: its logger has no
    driver. *)

Module Bare.

Definition ctx : TraceContext :=
  match TraceContext_new Reference.ext
          (mkConfig None None None None VUndef None (Some "f") None None None
                    None) initial_world with
  | (Ok c, _) => c
  | _ => Scenario.shared0
  end.

End Bare.

(** ** Plain JSON values *)

(** The objects of a JSON value have distinct keys, at every depth. *)

Fixpoint json_ok (j : json) : bool :=
  match j with
  | JArr l => forallb json_ok l
  | JObj kvs =>
      bool_decide (NoDup kvs.*1)
      && forallb (λ kv : string * json, json_ok kv.2) kvs
  | _ => true
  end.

(** The nesting depth of a JSON value. *)

Fixpoint json_depth (j : json) : nat :=
  match j with
  | JArr l => S (foldr (λ x d, Nat.max (json_depth x) d) 0 l)
  | JObj kvs =>
      S (foldr (λ (kv : string * json) d, Nat.max (json_depth kv.2) d) 0 kvs)
  | _ => 0
  end.

(** The two loops of [alloc_json], over the elements of an array and over
    the members of an object. *)

Fixpoint alloc_json_list (l : list json) (h : list jsobj)
  : list jsobj * list jsval :=
  match l with
  | [] => (h, [])
  | x :: r =>
      let '(h1, v) := alloc_json x h in
      let '(h2, vs) := alloc_json_list r h1 in
      (h2, v :: vs)
  end.

Fixpoint alloc_json_members (l : list (string * json)) (h : list jsobj)
  : list jsobj * list (string * jsval) :=
  match l with
  | [] => (h, [])
  | (k, x) :: r =>
      let '(h1, v) := alloc_json x h in
      let '(h2, ps) := alloc_json_members r h1 in
      (h2, (k, v) :: ps)
  end.

(** * Properties *)

(** ** Computation rules *)

Lemma bind_ok {A B} (m : M A) (k : A → M B) (w w' : World) (a : A) :
  m w = (Ok a, w') → (m ≫= k) w = k a w'.
Proof. intros H. unfold mbind, M_bind, bind. now rewrite H. Qed.

Lemma bind_throw {A B} (m : M A) (k : A → M B) (w w' : World) (e : JsError) :
  m w = (Throw e, w') → (m ≫= k) w = (Throw e, w').
Proof. intros H. unfold mbind, M_bind, bind. now rewrite H. Qed.

Lemma bind_stuck {A B} (m : M A) (k : A → M B) (w w' : World) :
  m w = (Stuck, w') → (m ≫= k) w = (Stuck, w').
Proof. intros H. unfold mbind, M_bind, bind. now rewrite H. Qed.

(** ** The logger *)

(** Building the copy for [dataToStringify] never throws. *)

Lemma cleanItem_ok (item : jsval) (w : World) :
  ∃ v w', cleanItem item w = (Ok v, w').
Proof.
  unfold cleanItem, mbind, M_bind, bind, get_world, mret, M_ret, ret, modify.
  destruct (isPlainObject (heap w) item && truthy (read_prop (heap w) item "$ctx"));
    [|eauto].
  destruct item; eauto.
  destruct (heap w !! l); eauto.
Qed.

Lemma cleanItems_ok (data : list jsval) (w : World) :
  ∃ vs w', cleanItems data w = (Ok vs, w').
Proof.
  revert w. induction data as [|item data IH]; intros w; simpl.
  - eexists _, _. reflexivity.
  - destruct (cleanItem_ok item w) as (v & w1 & Hv).
    destruct (IH w1) as (vs & w2 & Hvs).
    exists (v :: vs), w2.
    rewrite (bind_ok _ _ _ _ _ Hv), (bind_ok _ _ _ _ _ Hvs). reflexivity.
Qed.

(** With a driver, a log call returns. *)

Lemma _log_ok (ext : Externals) (self : Logger) (driver : ILogDriver)
    (level : TLogLevel) (message : string) (data : list jsval) (w : World) :
  _driver self = Some driver →
  ∃ w', _log ext self level message data w = (Ok tt, w').
Proof.
  intros Hd. unfold _log. rewrite Hd.
  unfold mbind at 1, M_bind, bind at 1, get_world.
  destruct (bool_decide (env_LOG_SILENT w = Some "true")); [eexists; reflexivity|].
  destruct ((indexOf (Some level) <? 0)%Z
            || (indexOf (Some level) >? indexOf (_level self))%Z);
    [eexists; reflexivity|].
  destruct (bool_decide (0 < length data)).
  - destruct (cleanItems_ok data w) as (vs & w1 & Hvs).
    eexists. unfold mbind, M_bind, bind. rewrite Hvs. reflexivity.
  - eexists. reflexivity.
Qed.

(** C9: a logger built without a driver exists, and each of its six
    leveled methods throws the no-driver error at once, before anything
    reaches a driver or changes the world. *)
Theorem C9_driverless_logger_throws_on_every_level
    (ext : Externals) (global level : option TLogLevel)
    (scope : option string) (traceCtx : option TraceContext)
    (message : string) (data : list jsval) (w : World) :
  let lg := Logger_new global (mkLoggerConfig None level scope traceCtx) in
  let failure := (Throw (Error "no log driver provided"), w) in
  _driver lg = None
  ∧ debug ext lg message data w = failure
  ∧ verbose ext lg message data w = failure
  ∧ info ext lg message data w = failure
  ∧ warn ext lg message data w = failure
  ∧ error ext lg message data w = failure
  ∧ critical ext lg message data w = failure.
Proof. repeat split. Qed.

(** What [errorNotify] leaves in the world: one call of the trace
    driver's [errorNotify] when a trace driver is configured. *)

Lemma errorNotify_spec (self : TraceContext) (err : JsError) (w : World) :
  errorNotify self err w =
    (Ok tt,
     match TC_traceDriver (statics w) with
     | Some d => add_event (EvErrorNotify d err) w
     | None => w
     end).
Proof.
  unfold errorNotify, mbind, M_bind, bind, get_world.
  destruct (TC_traceDriver (statics w)); reflexivity.
Qed.

(** C10 (as amended): [critical] does what [error] does and then needs
    the bound context.  On a logger with a driver the log call returns;
    with a bound context [critical] then calls the context's
    [errorNotify] exactly once, with [new Error(message)], and returns;
    without one the dereference of the absent context throws a
    [TypeError] after the log call.  On a logger without a driver the
    log call throws the no-driver error, with or without a bound
    context: nothing is logged and [errorNotify] is not called. *)
Theorem C10_critical_needs_driver_and_bound_context
    (ext : Externals) (lg : Logger) (message : string) (data : list jsval)
    (w : World) :
  let logged := snd (error ext lg message data w) in
  (∀ driver, _driver lg = Some driver →
     fst (error ext lg message data w) = Ok tt
     ∧ (∀ ctx, _traceCtx lg = Some ctx →
          critical ext lg message data w
          = errorNotify ctx (Error message) logged
          ∧ fst (critical ext lg message data w) = Ok tt
          ∧ events (snd (critical ext lg message data w))
            = events logged
              ++ match TC_traceDriver (statics logged) with
                 | Some d => [EvErrorNotify d (Error message)]
                 | None => []
                 end)
     ∧ (_traceCtx lg = None →
        critical ext lg message data w
        = (Throw (TypeError
                    "Cannot read properties of undefined (reading 'errorNotify')"),
           logged)))
  ∧ (_driver lg = None →
     error ext lg message data w
     = (Throw (Error "no log driver provided"), w)
     ∧ critical ext lg message data w
       = (Throw (Error "no log driver provided"), w)).
Proof.
  intros logged. subst logged. split.
  - intros driver Hd.
    destruct (_log_ok ext lg driver LError message data w Hd) as (w1 & Hlog).
    change (_log ext lg LError message data) with (error ext lg message data)
      in Hlog.
    rewrite Hlog. cbn [fst snd]. split; [reflexivity|]. split.
    + intros ctx Hctx.
      assert (Hrun : critical ext lg message data w
                     = errorNotify ctx (Error message) w1).
      { unfold critical. rewrite Hctx.
        change (_log ext lg LError message data)
          with (error ext lg message data).
        now rewrite (bind_ok _ _ _ _ _ Hlog). }
      split; [exact Hrun|]. rewrite Hrun, errorNotify_spec. cbn [fst snd].
      split; [reflexivity|].
      destruct (TC_traceDriver (statics w1)); simpl; [reflexivity|].
      now rewrite app_nil_r.
    + intros Hctx. unfold critical. rewrite Hctx.
      change (_log ext lg LError message data)
        with (error ext lg message data).
      now rewrite (bind_ok _ _ _ _ _ Hlog).
  - intros Hd.
    assert (Herr : error ext lg message data w
                   = (Throw (Error "no log driver provided"), w)).
    { unfold error, _log. now rewrite Hd. }
    split; [exact Herr|]. unfold critical.
    change (_log ext lg LError message data) with (error ext lg message data).
    now rewrite (bind_throw _ _ _ _ _ Herr).
Qed.

Lemma C10_witness :
  _traceCtx (logger Scenario.shared0) = Some Scenario.shared0
  ∧ _driver (logger Scenario.shared0) = Some Scenario.logDriver
  ∧ events (snd (critical Reference.ext (logger Scenario.shared0) "boom" []
                          Scenario.world0))
    = events Scenario.world0
      ++ [EvLog Scenario.logDriver LError "boom" None (Some Scenario.shared0);
          EvErrorNotify Scenario.traceDriver (Error "boom")].
Proof.
  split; [reflexivity|]. split; [reflexivity|].
  destruct (C10_critical_needs_driver_and_bound_context Reference.ext
              (logger Scenario.shared0) "boom" [] Scenario.world0)
    as (Hdrv & _).
  destruct (Hdrv Scenario.logDriver eq_refl) as (_ & Hctx & _).
  destruct (Hctx Scenario.shared0 eq_refl) as (_ & _ & Hev).
  rewrite Hev. vm_compute. reflexivity.
Defined.

(** The claim as stated fails: a context built before [sharedInit] gives
    its logger no driver, and [critical] on that logger, which has a
    bound context, throws the no-driver error without calling
    [errorNotify], also once a trace driver is configured. *)
Lemma C10_counterexample :
  _traceCtx (logger Bare.ctx) = Some Bare.ctx
  ∧ _driver (logger Bare.ctx) = None
  ∧ critical Reference.ext (logger Bare.ctx) "boom" [] initial_world
    = (Throw (Error "no log driver provided"), initial_world)
  ∧ TC_traceDriver (statics Scenario.world0) = Some Scenario.traceDriver
  ∧ critical Reference.ext (logger Bare.ctx) "boom" [] Scenario.world0
    = (Throw (Error "no log driver provided"), Scenario.world0).
Proof. vm_compute. repeat split. Qed.

(** ** Shared initialisation *)


(** ** Span finishing *)

Lemma traceFinish_spec (self : TraceContext) (status : option SpanStatus)
    (w : World) :
  traceFinish self status w =
    (Ok tt,
     match span_of w self with
     | Some i =>
         set_spans (alter (span_finish (default OK status)) i (spans w)) w
     | None => w
     end).
Proof.
  unfold traceFinish, mbind, M_bind, bind, get_world.
  destruct (span_of w self); reflexivity.
Qed.

(** C8 (as amended): [traceFinish] is a no-op on a context without a span;
    on a context with a span it sets the status and calls [finish()], and
    it does so again on every later call: after a second call the span
    carries the second status and has been finished twice. *)
Theorem C8_traceFinish_finishes_the_span_on_each_call
    (self : TraceContext) (status1 status2 : option SpanStatus) (w : World) :
  match span_of w self with
  | None => traceFinish self status1 w = (Ok tt, w)
  | Some i =>
      let w1 :=
        set_spans (alter (span_finish (default OK status1)) i (spans w)) w in
      traceFinish self status1 w = (Ok tt, w1)
      ∧ fst (traceFinish self status2 w1) = Ok tt
      ∧ ∀ s, spans w !! i = Some s →
          spans w1 !! i
          = Some (mkSpan (sp_opName s) (sp_parent s) (sp_parentHash s)
                         (Some (default OK status1)) (S (sp_finished s)))
          ∧ spans (snd (traceFinish self status2 w1)) !! i
            = Some (mkSpan (sp_opName s) (sp_parent s) (sp_parentHash s)
                           (Some (default OK status2))
                           (S (S (sp_finished s))))
  end.
Proof.
  destruct (span_of w self) as [i|] eqn:Hspan.
  - cbv zeta. rewrite !traceFinish_spec, Hspan.
    split; [reflexivity|]. split; [reflexivity|].
    intros s Hs.
    assert (Hspan1 :
      span_of (set_spans (alter (span_finish (default OK status1)) i (spans w)) w)
              self = Some i) by exact Hspan.
    rewrite Hspan1. simpl.
    split; repeat (rewrite list_lookup_alter; rewrite decide_True by reflexivity);
      rewrite Hs; reflexivity.
  - rewrite traceFinish_spec, Hspan. reflexivity.
Qed.

Lemma C8_witness :
  span_of Scenario.world_traced Scenario.traced_ctx = Some 0
  ∧ spans Scenario.world_traced !! 0 = Some (mkSpan "f" None None None 0)
  ∧ spans (snd (traceFinish Scenario.traced_ctx (Some OK)
                  (snd (traceFinish Scenario.traced_ctx (Some INTERNAL_ERROR)
                          Scenario.world_traced)))) !! 0
    = Some (mkSpan "f" None None (Some OK) 2).
Proof.
  split; [reflexivity|]. split; [reflexivity|].
  pose proof (C8_traceFinish_finishes_the_span_on_each_call
                Scenario.traced_ctx (Some INTERNAL_ERROR) (Some OK)
                Scenario.world_traced) as H.
  change (span_of Scenario.world_traced Scenario.traced_ctx) with (Some 0) in H.
  destruct H as (H1 & _ & H3).
  destruct (H3 (mkSpan "f" None None None 0) eq_refl) as (_ & H4).
  rewrite H1. exact H4.
Defined.

(** The claim as stated fails: on a context whose span was finished with
    an error status, a second [traceFinish] is not a no-op; it overwrites
    the status and finishes the span a second time. *)
Lemma C8_counterexample :
  let w1 := snd (traceFinish Scenario.traced_ctx (Some INTERNAL_ERROR)
                   Scenario.world_traced) in
  let w2 := snd (traceFinish Scenario.traced_ctx None w1) in
  spans w1 = [mkSpan "f" None None (Some INTERNAL_ERROR) 1]
  ∧ spans w2 = [mkSpan "f" None None (Some OK) 2]
  ∧ w2 ≠ w1.
Proof.
  cbv zeta. split; [reflexivity|]. split; [reflexivity|].
  intros Heq. apply (f_equal spans) in Heq. vm_compute in Heq. discriminate.
Qed.

(** ** The hash codec *)

Lemma replace_first_prefix (b : string) :
  replace_first TRACE_HASH_PREFIX "" (TRACE_HASH_PREFIX +:+ b) = b.
Proof. destruct b; reflexivity. Qed.

Lemma hashDecode_hashEncode (ext : Externals) (hashData : ITraceHashData) :
  codec_ok ext (json_of_hashData hashData) →
  hashDecode ext (hashEncode ext hashData) = Ok (json_of_hashData hashData).
Proof.
  intros [Hjson Hlz]. unfold hashDecode, hashEncode, JSON_parse.
  now rewrite replace_first_prefix, Hlz, Hjson.
Qed.

Lemma item_of_json_of_item (i : ICallStackNamesChainItem) :
  item_of_json (json_of_item i) = Some i.
Proof. destruct i as [f [c|] [s|]]; reflexivity. Qed.

Lemma items_of_json_of_items (l : list ICallStackNamesChainItem) :
  mapM item_of_json (json_of_item <$> l) = Some l.
Proof.
  induction l as [|i l IH]; [reflexivity|].
  cbn [fmap list_fmap mapM]. rewrite item_of_json_of_item. cbn.
  fold (json_of_item <$> l). rewrite IH. reflexivity.
Qed.

Lemma hashData_of_json_of_hashData (hashData : ITraceHashData) :
  hashData_of_json (json_of_hashData hashData) = Some hashData.
Proof.
  destruct hashData as [chain className data fnName id serviceName spanHash].
  assert (Hchain : ∀ rest,
    chain_field (opt_field "callStackNamesChain"
                   ((λ c, JArr (json_of_item <$> c)) <$> chain) ++ rest)
    = match chain with
      | Some c => Some (Some c)
      | None => chain_field rest
      end).
  { intros rest. destruct chain as [c|]; [|reflexivity].
    unfold chain_field. cbn. now rewrite items_of_json_of_items. }
  unfold hashData_of_json, json_of_hashData. cbn [hd_callStackNamesChain
    hd_className hd_data hd_fnName hd_id hd_serviceName hd_spanHash].
  rewrite Hchain.
  destruct chain, className, data, fnName, id, serviceName, spanHash;
    reflexivity.
Qed.

(** C3: for every snapshot on whose JSON text the third-party codec
    functions are inverse to each other, decoding the encoded token gives
    back the object of the snapshot: field by field it is the snapshot. *)
Theorem C3_hashDecode_hashEncode_roundtrip
    (ext : Externals) (s : ITraceHashData) :
  codec_ok ext (json_of_hashData s) →
  ∃ decoded,
    hashDecode ext (hashEncode ext s) = Ok decoded
    ∧ decoded = json_of_hashData s
    ∧ hashData_of_json decoded = Some s.
Proof.
  intros Hok. exists (json_of_hashData s).
  split; [now apply hashDecode_hashEncode|].
  split; [reflexivity|apply hashData_of_json_of_hashData].
Qed.
Lemma C3_witness :
  codec_ok Reference.ext
    (json_of_hashData
       (hashData_of Reference.ext Scenario.world_traced Scenario.traced_ctx
                    (Some (JObj [("user", JStr "ann"); ("n", JNum 3)]))))
  ∧ hashData_of_json
      (match hashDecode Reference.ext
               (hashEncode Reference.ext
                  (hashData_of Reference.ext Scenario.world_traced
                     Scenario.traced_ctx
                     (Some (JObj [("user", JStr "ann"); ("n", JNum 3)])))) with
       | Ok decoded => decoded
       | _ => JNull
       end)
    = Some (hashData_of Reference.ext Scenario.world_traced Scenario.traced_ctx
              (Some (JObj [("user", JStr "ann"); ("n", JNum 3)]))).
Proof.
  assert (Hok : codec_ok Reference.ext
    (json_of_hashData
       (hashData_of Reference.ext Scenario.world_traced Scenario.traced_ctx
                    (Some (JObj [("user", JStr "ann"); ("n", JNum 3)])))))
    by (split; vm_compute; reflexivity).
  split; [exact Hok|].
  destruct (C3_hashDecode_hashEncode_roundtrip Reference.ext _ Hok)
    as (decoded & Hdec & _ & Hback).
  rewrite Hdec. exact Hback.
Defined.

(** ** Call-stack lineage *)

Lemma ctx_ind (P : TraceContext → Prop) :
  (∀ c, (∀ p, _parent c = Some p → P p) → P c) → ∀ c, P c.
Proof.
  intros H c. remember (ctx_depth c) as n eqn:Hn. revert c Hn.
  induction n as [n IH] using lt_wf_ind. intros c Hn.
  apply H. intros p Hp.
  apply (IH (ctx_depth p)); [|reflexivity].
  subst n. destruct c; simpl in Hp; subst; simpl; lia.
Qed.

Lemma walk_parents_unfold (p : TraceContext)
    (acc : list ICallStackNamesChainItem) :
  walk_parents p acc =
    match _callStackNamesChain p with
    | Some chain => chain ++ acc
    | None =>
        match _parent p with
        | Some q => walk_parents q (frame_of p :: acc)
        | None => frame_of p :: acc
        end
    end.
Proof. destruct p; reflexivity. Qed.

(** The loop over the parents only prepends to what it is given. *)

Lemma walk_parents_app (p : TraceContext)
    (a b : list ICallStackNamesChainItem) :
  walk_parents p (a ++ b) = walk_parents p a ++ b.
Proof.
  revert a b. induction p as [p IH] using ctx_ind. intros a b.
  rewrite !(walk_parents_unfold p).
  destruct (_callStackNamesChain p) as [chain|].
  - now rewrite app_assoc.
  - destruct (_parent p) as [q|] eqn:Hq; [|reflexivity].
    apply (IH q eq_refl (frame_of p :: a) b).
Qed.

Lemma walk_parents_eval (w : World) (p : TraceContext)
    (acc : list ICallStackNamesChainItem) :
  isShared w p = false →
  walk_parents p acc = _evalCallStackNamesChain w p ++ acc.
Proof.
  intros Hns. unfold _evalCallStackNamesChain. rewrite Hns.
  rewrite walk_parents_unfold.
  destruct (_callStackNamesChain p) as [chain|]; [reflexivity|].
  destruct (_parent p) as [q|]; [|reflexivity].
  apply (walk_parents_app q [frame_of p] acc).
Qed.

(** The chain of a child is the chain of its parent and the child's
    frame, when neither is the shared context. *)

Lemma eval_chain_child (w : World) (P C : TraceContext) :
  _parent C = Some P →
  _callStackNamesChain C = None →
  isShared w C = false →
  isShared w P = false →
  _evalCallStackNamesChain w C = _evalCallStackNamesChain w P ++ [frame_of C].
Proof.
  intros Hp Hc HC HP. unfold _evalCallStackNamesChain at 1.
  rewrite HC, Hc, Hp. now apply walk_parents_eval.
Qed.

(** The chain depends on the world through the shared context only. *)

Lemma eval_chain_statics (w w' : World) (c : TraceContext) :
  statics w' = statics w →
  _evalCallStackNamesChain w' c = _evalCallStackNamesChain w c.
Proof.
  intros Hs. unfold _evalCallStackNamesChain, isShared. now rewrite Hs.
Qed.

Lemma assoc_app {V} (k : string) (a b : list (string * V)) :
  assoc k (a ++ b) =
    match assoc k a with
    | Some v => Some v
    | None => assoc k b
    end.
Proof.
  induction a as [|[k' v] a IH]; [reflexivity|].
  simpl. destruct (String.eqb k' k); [reflexivity|exact IH].
Qed.

Lemma assoc_opt_field_ne (k k' : string) (v : option json) :
  k ≠ k' → assoc k (opt_field k' v) = None.
Proof.
  intros Hne. destruct v; [|reflexivity]. simpl.
  destruct (String.eqb_spec k' k); [congruence|reflexivity].
Qed.

Lemma assoc_not_hashData_key (k : string) (hashData : ITraceHashData) :
  k ≠ "callStackNamesChain" → k ≠ "className" → k ≠ "data" →
  k ≠ "fnName" → k ≠ "id" → k ≠ "serviceName" → k ≠ "spanHash" →
  match json_of_hashData hashData with
  | JObj kvs => assoc k kvs = None
  | _ => False
  end.
Proof.
  intros H1 H2 H3 H4 H5 H6 H7. unfold json_of_hashData.
  rewrite !assoc_app, !assoc_opt_field_ne by assumption. reflexivity.
Qed.

(** The configuration the constructor reads from an encoded snapshot. *)

Lemma config_of_json_of_hashData (hashData : ITraceHashData) (w : World) :
  config_of_json (json_of_hashData hashData) w =
    let '(h, data) :=
      match hd_data hashData with
      | Some d => alloc_json d (heap w)
      | None => (heap w, VUndef)
      end in
    (Ok (mkConfig (hd_id hashData) None (hd_callStackNamesChain hashData)
           (hd_className hashData) data None (hd_fnName hashData) None None
           (hd_serviceName hashData) (hd_spanHash hashData)),
     set_heap h w).
Proof.
  pose proof (hashData_of_json_of_hashData hashData) as Hback.
  pose proof (assoc_not_hashData_key "autoTracing" hashData) as Ha.
  pose proof (assoc_not_hashData_key "filePath" hashData) as Hf.
  pose proof (assoc_not_hashData_key "serviceColor" hashData) as Hc.
  pose proof (assoc_not_hashData_key "parent" hashData) as Hp.
  unfold config_of_json.
  destruct (json_of_hashData hashData) as [| | | | |kvs] eqn:Hj;
    try discriminate Hback.
  rewrite Hback.
  unfold bool_field, str_field.
  rewrite Ha, Hf, Hc, Hp by discriminate.
  unfold mbind, M_bind, bind, get_world.
  destruct (hd_data hashData) as [d|]; [|reflexivity].
  destruct (alloc_json d (heap w)) as [h data]. reflexivity.
Qed.

(** The constructor on a configuration without parent and with an id. *)

Lemma TraceContext_new_root (ext : Externals) (config : ITraceContextConfig)
    (id : string) (w : World) :
  cfg_parent config = None →
  cfg_id config = Some id →
  ∃ R w',
    TraceContext_new ext config w = (Ok R, w')
    ∧ ctx_ref R = next_ref w
    ∧ _parent R = None
    ∧ _callStackNamesChain R = cfg_callStackNamesChain config
    ∧ statics w' = statics w.
Proof.
  intros Hp Hid. unfold TraceContext_new. rewrite Hid, Hp.
  eexists _, _. split; [reflexivity|]. repeat split.
Qed.



(** ** The instrumentation wrapper *)

(** The constructor returns or leaves the model; it does not throw. *)

Lemma TraceContext_new_no_throw (ext : Externals)
    (config : ITraceContextConfig) (w : World) (e : JsError) :
  fst (TraceContext_new ext config w) ≠ Throw e.
Proof.
  unfold TraceContext_new, mbind, M_bind, bind, get_world, nanoid_draw,
    fresh_ref, set_data, modify, mret, M_ret, ret, stuck.
  destruct (cfg_id config); simpl;
    (destruct (cfg_parent config) as [p|]; [|discriminate]);
    match goal with
    | |- context [truthy ?d] => destruct (truthy d); [|discriminate]
    end;
    match goal with
    | |- context [merge_into_new ?f ?h ?a ?b] =>
        destruct (merge_into_new f h a b) as [[h' l]|]; discriminate
    end.
Qed.

(** A failure of [fromHash] comes from the decoding or from reading the
    decoded [null]; the world is as before. *)

Lemma fromHash_throw (ext : Externals) (hash : string) (w : World)
    (e : JsError) :
  fst (fromHash ext hash w) = Throw e →
  fromHash ext hash w = (Throw e, w).
Proof.
  unfold fromHash. destruct (hashDecode ext hash) as [j|e'|].
  - assert (Hnew : ∀ c w1, fst (TraceContext_new ext c w1) = Throw e → False).
    { intros c w1. apply TraceContext_new_no_throw. }
    destruct j as [| | | | |kvs];
      try (intros H; exfalso; exact (Hnew empty_config w H)).
    + intros H. simpl in H. now inversion H.
    + unfold config_of_json.
      destruct (hashData_of_json (JObj kvs)) as [hd|]; [|discriminate].
      destruct (bool_field "autoTracing" kvs); [|discriminate].
      destruct (str_field "filePath" kvs); [|discriminate].
      destruct (str_field "serviceColor" kvs); [|discriminate].
      destruct (assoc "parent" kvs); [discriminate|].
      unfold mbind, M_bind, bind, get_world, modify.
      destruct (match hd_data hd with
                | Some d => alloc_json d (heap w)
                | None => (heap w, VUndef)
                end) as [h dv].
      intros H; exfalso; exact (Hnew _ _ H).
  - simpl. intros H. now inversion H.
  - discriminate.
Qed.



(** C1: a wrapped function that throws synchronously.  The error reaches
    the caller unchanged, but the wrapper has only started the span and
    logged "start": no failure log, no "end" log, and the span is never
    finished.  The completion handler of a rejected promise, run on the
    same call, does log "fail" and "end" and finishes the span with the
    error status. *)
Theorem C1_sync_throw_bypasses_the_failure_handler :
  let r := traceFn Reference.ext None empty_traceFnConfig Calls.thrower []
             Scenario.world0 in
  ∃ ctx,
    _fnName ctx = Some "f"
    ∧ fst r = Throw (Error "E")
    ∧ events (snd r)
      = events Scenario.world0
        ++ [EvSpanStart Scenario.traceDriver 0;
            EvLog Scenario.logDriver LVerbose "start" None (Some ctx)]
    ∧ spans (snd r) = [mkSpan "f" None None None 0]
    ∧ let settled :=
        settle Reference.ext (mkTracedCall ctx 0 true true)
               (Throw (Error "E")) (snd r) in
      fst settled = Throw (Error "E")
      ∧ events (snd settled)
        = events (snd r)
          ++ [EvLog Scenario.logDriver LError "fail"
                (Some (JObj [("message", JStr "E")])) (Some ctx);
              EvLog Scenario.logDriver LVerbose "end [ELAPSED=0]" None
                (Some ctx)]
      ∧ spans (snd settled) = [mkSpan "f" None None (Some INTERNAL_ERROR) 1].
Proof.
  exists Calls.thrower_ctx. vm_compute. repeat split.
Qed.

(** ** Log data *)

Lemma mapM_fails {A B} (f : A → option B) (l : list A) (x : A) :
  x ∈ l → f x = None → mapM f l = None.
Proof.
  intros Hin Hx. induction l as [|y l IH]; [now apply elem_of_nil in Hin|].
  apply elem_of_cons in Hin as [<-|Hin]; simpl.
  - now rewrite Hx.
  - rewrite (IH Hin). now destruct (f y).
Qed.

(** A data item that holds a trace context under any key cannot be
    serialized: the driver receives no data for it. *)

Lemma plain_of_item_with_context (ext : Externals) (h : list jsobj)
    (l : loc) (o : jsobj) (k : string) (c : TraceContext) :
  h !! l = Some o → (k, VCtx c) ∈ oprops o →
  plain_of ext h [VRef l] = None.
Proof.
  intros Ho Hin. unfold plain_of, JSON_stringify.
  assert (Hjson : to_json (S (length h)) h (VRef l) = None).
  { cbn [to_json]. rewrite Ho. cbn [mbind option_bind].
    destruct (okind o).
    - rewrite (mapM_fails _ _ (k, VCtx c) Hin); [reflexivity|].
      destruct (length h); reflexivity.
    - rewrite (mapM_fails _ _ (k, VCtx c) Hin); [reflexivity|].
      destruct (length h); reflexivity.
    - rewrite (mapM_fails _ _ (k, VCtx c) Hin); [reflexivity|].
      destruct (length h); reflexivity. }
  now rewrite Hjson.
Qed.

(** C5: a log call whose data item carries the injected context.  The
    copy without [$ctx] is built but the original item is serialized:
    the circular context makes [JSON.stringify] throw and the driver
    receives no data at all, where the stripped copy would have given
    [{ a: 1 }]; a truthy [$ctx] that is not circular reaches the driver
    unstripped. *)
Theorem C5_log_data_is_not_stripped :
  let lg := logger Scenario.shared0 in
  events (snd (info Reference.ext lg "msg" [VRef 0] Calls.world_item))
  = events Calls.world_item
    ++ [EvLog Scenario.logDriver LInfo "msg" None (Some Scenario.shared0)]
  ∧ (let cleaned := cleanItems [VRef 0] Calls.world_item in
     match fst cleaned with
     | Ok dataToStringify =>
         plain_of Reference.ext (heap (snd cleaned)) dataToStringify
         = Some (JObj [("a", JNum 1)])
     | _ => False
     end)
  ∧ events (snd (info Reference.ext lg "msg" [VRef 0] Calls.world_item_number))
    = events Calls.world_item_number
      ++ [EvLog Scenario.logDriver LInfo "msg"
            (Some (JObj [("a", JNum 1); ("$ctx", JNum 1)]))
            (Some Scenario.shared0)].
Proof. vm_compute. repeat split. Qed.

(** ** Payload inheritance *)

Lemma assoc_set_in_eq {V} (k : string) (v : V) (ps : list (string * V)) :
  assoc k (set_in k v ps) = Some v.
Proof.
  induction ps as [|[k' v'] ps IH]; simpl.
  - now rewrite String.eqb_refl.
  - destruct (String.eqb k' k) eqn:E; simpl.
    + now rewrite String.eqb_refl.
    + now rewrite E.
Qed.

Lemma assoc_set_in_ne {V} (k k' : string) (v : V) (ps : list (string * V)) :
  k' ≠ k → assoc k' (set_in k v ps) = assoc k' ps.
Proof.
  intros Hne. induction ps as [|[k1 v1] ps IH]; simpl.
  - destruct (String.eqb_spec k k'); [congruence|reflexivity].
  - destruct (String.eqb_spec k1 k) as [->|Hk]; simpl.
    + destruct (String.eqb_spec k k'); [congruence|reflexivity].
    + now rewrite IH.
Qed.

Lemma elem_of_set_in {V} (k : string) (v : V) (ps : list (string * V))
    (x : string * V) :
  x ∈ set_in k v ps → x = (k, v) ∨ x ∈ ps.
Proof.
  induction ps as [|[k1 v1] ps IH]; simpl.
  - intros H. apply list_elem_of_singleton in H. now left.
  - destruct (String.eqb k1 k).
    + intros H. apply elem_of_cons in H as [->|H]; [now left|].
      right. now apply list_elem_of_further.
    + intros H. apply elem_of_cons in H as [->|H].
      * right. apply list_elem_of_here.
      * destruct (IH H) as [->|Hin]; [now left|].
        right. now apply list_elem_of_further.
Qed.

Lemma assoc_elem_of {V} (k : string) (v : V) (ps : list (string * V)) :
  assoc k ps = Some v → (k, v) ∈ ps.
Proof.
  induction ps as [|[k1 v1] ps IH]; simpl; [discriminate|].
  destruct (String.eqb_spec k1 k) as [->|Hk].
  - intros [= ->]. apply list_elem_of_here.
  - intros H. apply list_elem_of_further. now apply IH.
Qed.

Lemma elem_of_assoc {V} (k : string) (v : V) (ps : list (string * V)) :
  NoDup ps.*1 → (k, v) ∈ ps → assoc k ps = Some v.
Proof.
  induction ps as [|[k1 v1] ps IH]; simpl.
  - intros _ H. now apply elem_of_nil in H.
  - intros Hnd H. apply NoDup_cons in Hnd as [Hnotin Hnd].
    apply elem_of_cons in H as [[= -> ->]|H].
    + now rewrite String.eqb_refl.
    + destruct (String.eqb_spec k1 k) as [->|Hk]; [|now apply IH].
      exfalso. apply Hnotin. apply list_elem_of_fmap. now exists (k, v).
Qed.

(** lodash [eq] is equality on primitives and references. *)

Lemma eq_js_true (a b : jsval) :
  (is_primitive b = true ∨ ∃ l, b = VRef l) →
  eq_js a b = true → a = b.
Proof.
  intros Hb. destruct a, b; simpl; try discriminate;
    try (destruct Hb as [Hb|[l' Hb]]; discriminate).
  - reflexivity.
  - reflexivity.
  - intros H. f_equal. now apply Bool.eqb_prop.
  - intros H. f_equal. now apply Z.eqb_eq.
  - intros H. f_equal. now apply String.eqb_eq.
  - intros H. f_equal. now apply Nat.eqb_eq.
Qed.

Lemma assignMergeValue_spec (h : list jsobj) (object : loc) (o : jsobj)
    (key : string) (value : jsval) :
  h !! object = Some o →
  (is_primitive value = true ∨ ∃ l, value = VRef l) →
  ∃ o',
    assignMergeValue h object key value = Some (<[object := o']> h)
    ∧ okind o' = okind o
    ∧ (∀ x, x ∈ oprops o' → x = (key, value) ∨ x ∈ oprops o)
    ∧ (∀ k', k' ≠ key → assoc k' (oprops o') = assoc k' (oprops o))
    ∧ (if is_undefined value then get_prop o' key = get_prop o key
       else get_prop o' key = value).
Proof.
  intros Ho Hv. unfold assignMergeValue. rewrite Ho. simpl.
  destruct (negb (is_undefined value) && negb (eq_js (get_prop o key) value)
            || is_undefined value && negb (has_prop o key)) eqn:Hc.
  - exists (set_prop o key value). split; [reflexivity|].
    split; [reflexivity|]. split; [apply elem_of_set_in|].
    split; [intros k' Hk; now apply assoc_set_in_ne|].
    unfold get_prop at 1 3. simpl. rewrite assoc_set_in_eq. simpl.
    destruct (is_undefined value) eqn:Hu; [|reflexivity].
    destruct value; try discriminate.
    rewrite Bool.andb_false_l, Bool.andb_true_l in Hc. simpl in Hc.
    apply Bool.negb_true_iff in Hc. unfold has_prop in Hc.
    apply bool_decide_eq_false in Hc. unfold get_prop.
    destruct (assoc key (oprops o)); [|reflexivity].
    exfalso. apply Hc. eauto.
  - exists o. rewrite list_insert_id by exact Ho.
    split; [reflexivity|]. split; [reflexivity|].
    split; [intros x Hx; now right|]. split; [reflexivity|].
    destruct (is_undefined value) eqn:Hu; [reflexivity|].
    simpl in Hc. rewrite Bool.orb_false_r in Hc.
    apply Bool.negb_false_iff in Hc. now apply eq_js_true.
Qed.

Lemma plain_data_ref (h : list jsobj) (n : nat) (l : loc) :
  plain_data h n (VRef l) = true →
  ∃ n' o,
    n = S n' ∧ h !! l = Some o ∧ okind o ≠ KInstance
    ∧ NoDup (oprops o).*1
    ∧ ∀ k v, (k, v) ∈ oprops o → plain_data h n' v = true.
Proof.
  destruct n as [|n']; simpl; [discriminate|].
  destruct (h !! l) as [o|]; [|discriminate].
  intros H. apply andb_prop in H as [H Hall]. apply andb_prop in H as [Hk Hnd].
  exists n', o. split; [reflexivity|]. split; [reflexivity|].
  split. { apply Bool.negb_true_iff, bool_decide_eq_false in Hk. exact Hk. }
  split. { now apply bool_decide_eq_true in Hnd. }
  intros k v Hin. rewrite forallb_forall in Hall.
  apply (Hall (k, v)). now apply list_elem_of_In.
Qed.

Lemma plain_data_shape (h : list jsobj) (n : nat) (v : jsval) :
  plain_data h n v = true → is_primitive v = true ∨ ∃ l, v = VRef l.
Proof.
  destruct n, v; simpl; try discriminate; intros _;
    first [left; reflexivity | right; eexists; reflexivity].
Qed.

Lemma extends_alloc (h0 h : list jsobj) (kind : objkind) :
  extends h0 h → extends h0 (h ++ [mkObj kind []]).
Proof.
  intros (Hlen & Hold & Hnew). unfold extends. rewrite length_app. simpl.
  split; [lia|]. split.
  - intros l Hl. rewrite lookup_app_l by lia. now apply Hold.
  - intros l o k v Hl Ho Hin.
    destruct (decide (l < length h)) as [Hlt|Hge].
    + rewrite lookup_app_l in Ho by exact Hlt.
      destruct (Hnew l o k v Hl Ho Hin) as [Hp|(l' & -> & Hl')]; [now left|].
      right. exists l'. split; [reflexivity|lia].
    + rewrite lookup_app_r in Ho by lia.
      destruct (l - length h) as [|i]; simpl in Ho; [|discriminate].
      injection Ho as <-. simpl in Hin. now apply elem_of_nil in Hin.
Qed.

Lemma extends_assign (h0 h : list jsobj) (object : loc) (o o' : jsobj)
    (key : string) (value : jsval) :
  extends h0 h →
  (length h0 ≤ object)%nat →
  h !! object = Some o →
  (∀ x, x ∈ oprops o' → x = (key, value) ∨ x ∈ oprops o) →
  (is_primitive value = true
   ∨ ∃ l', value = VRef l' ∧ (object < l' < length h)%nat) →
  extends h0 (<[object := o']> h).
Proof.
  intros (Hlen & Hold & Hnew) Hobj Ho Hsub Hval. unfold extends.
  rewrite length_insert. split; [exact Hlen|]. split.
  - intros l Hl. rewrite list_lookup_insert_ne by lia. now apply Hold.
  - intros l o1 k v Hl Ho1 Hin.
    destruct (decide (l = object)) as [->|Hne].
    + rewrite list_lookup_insert_eq in Ho1 by (now apply lookup_lt_Some in Ho).
      injection Ho1 as <-.
      destruct (Hsub _ Hin) as [[= -> ->]|Hin']; [exact Hval|].
      now apply (Hnew object o k v).
    + rewrite list_lookup_insert_ne in Ho1 by congruence.
      now apply (Hnew l o1 k v).
Qed.

Section MergeStep.

Variables (rec : list jsobj → loc → loc → option (list jsobj))
          (h0 : list jsobj) (n : nat).

Hypothesis rec_spec :
  ∀ h object source src o,
    extends h0 h → (length h0 ≤ object)%nat → h !! object = Some o →
    h0 !! source = Some src → plain_data h0 n (VRef source) = true →
    ∃ h' o',
      rec h object source = Some h'
      ∧ extends h0 h'
      ∧ (length h ≤ length h')%nat
      ∧ (∀ l, (l < object)%nat → h' !! l = h !! l)
      ∧ h' !! object = Some o'
      ∧ okind o' = okind o
      ∧ ∀ k, merged_key src o o' k.

Lemma mergeProperty_spec (h : list jsobj) (object source : loc)
    (src o : jsobj) (key : string) (v : jsval) :
  extends h0 h → (length h0 ≤ object)%nat → h !! object = Some o →
  h0 !! source = Some src →
  assoc key (oprops src) = Some v → plain_data h0 n v = true →
  ∃ h' o',
    mergeProperty rec object source h key = Some h'
    ∧ extends h0 h'
    ∧ (length h ≤ length h')%nat
    ∧ (∀ l, (l < object)%nat → h' !! l = h !! l)
    ∧ h' !! object = Some o'
    ∧ okind o' = okind o
    ∧ (∀ k', k' ≠ key → assoc k' (oprops o') = assoc k' (oprops o))
    ∧ merged_key src o o' key.
Proof.
  intros Hext Hobj Ho Hsrc Hkey Hplain.
  pose proof Hext as (Hlen & Hold & Hnew).
  assert (Hsource : h !! source = Some src).
  { rewrite Hold; [exact Hsrc|]. now apply lookup_lt_Some in Hsrc. }
  assert (Holt : (object < length h)%nat) by (now apply lookup_lt_Some in Ho).
  assert (Hget : get_prop src key = v) by (unfold get_prop; now rewrite Hkey).
  unfold mergeProperty. rewrite Hsource, Ho. simpl. rewrite Hget.
  (* the primitive case, shared by several branches *)
  assert (Hprim : is_primitive v = true →
    ∃ h' o',
      assignMergeValue h object key v = Some h'
      ∧ extends h0 h' ∧ (length h ≤ length h')%nat
      ∧ (∀ l, (l < object)%nat → h' !! l = h !! l)
      ∧ h' !! object = Some o' ∧ okind o' = okind o
      ∧ (∀ k', k' ≠ key → assoc k' (oprops o') = assoc k' (oprops o))
      ∧ merged_key src o o' key).
  { intros Hp.
    destruct (assignMergeValue_spec h object o key v Ho (or_introl Hp))
      as (o' & Heq & Hkind & Hsub & Hother & Hval).
    exists (<[object := o']> h), o'. split; [exact Heq|].
    split. { eapply extends_assign; eauto. }
    split. { rewrite length_insert. lia. }
    split. { intros l Hl. rewrite list_lookup_insert_ne by lia. reflexivity. }
    split. { now rewrite list_lookup_insert_eq. }
    split; [exact Hkind|]. split; [exact Hother|].
    unfold merged_key. rewrite Hkey, Hp. exact Hval. }
  (* merging into the value [VRef target] found or created under [key] *)
  assert (Hdeep : ∀ sl h1 target,
    v = VRef sl →
    extends h0 h1 → (length h ≤ length h1)%nat →
    (∀ l, (l < length h)%nat → h1 !! l = h !! l) →
    (object < target < length h1)%nat →
    (get_prop o key = VRef target ∨ (length h ≤ target)%nat) →
    ∃ h' o',
      (h2 ← rec h1 target sl; assignMergeValue h2 object key (VRef target))
      = Some h'
      ∧ extends h0 h' ∧ (length h ≤ length h')%nat
      ∧ (∀ l, (l < object)%nat → h' !! l = h !! l)
      ∧ h' !! object = Some o' ∧ okind o' = okind o
      ∧ (∀ k', k' ≠ key → assoc k' (oprops o') = assoc k' (oprops o))
      ∧ merged_key src o o' key).
  { intros sl h1 target -> Hext1 Hlen1 Hsame Htarget _.
    destruct (plain_data_ref h0 n sl Hplain)
      as (n' & sobj & Hn & Hsl & _).
    destruct (lookup_lt_is_Some_2 h1 target) as [otgt Hotgt]; [lia|].
    destruct (rec_spec h1 target sl sobj otgt Hext1 ltac:(lia) Hotgt Hsl Hplain)
      as (h2 & otgt' & Hrec & Hext2 & Hlen2 & Hframe2 & _).
    rewrite Hrec. simpl.
    assert (Ho2 : h2 !! object = Some o).
    { rewrite Hframe2 by lia. rewrite Hsame by lia. exact Ho. }
    destruct (assignMergeValue_spec h2 object o key (VRef target) Ho2
                (or_intror (ex_intro _ target eq_refl)))
      as (o' & Heq & Hkind & Hsub & Hother & Hval).
    exists (<[object := o']> h2), o'. split; [exact Heq|].
    split. { eapply extends_assign; eauto. right. exists target.
             split; [reflexivity|lia]. }
    split. { rewrite length_insert. lia. }
    split. { intros l Hl. rewrite list_lookup_insert_ne by lia.
             rewrite Hframe2 by lia. apply Hsame. lia. }
    split. { rewrite list_lookup_insert_eq; [reflexivity|].
             now apply lookup_lt_Some in Ho2. }
    split; [exact Hkind|]. split; [exact Hother|].
    unfold merged_key. rewrite Hkey. simpl. exists target. exact Hval. }
  (* a new object to merge into *)
  assert (Hfresh : ∀ sl kind,
    v = VRef sl →
    ∃ h' o',
      (h2 ← rec (h ++ [mkObj kind []]) (length h) sl;
       assignMergeValue h2 object key (VRef (length h)))
      = Some h'
      ∧ extends h0 h' ∧ (length h ≤ length h')%nat
      ∧ (∀ l, (l < object)%nat → h' !! l = h !! l)
      ∧ h' !! object = Some o' ∧ okind o' = okind o
      ∧ (∀ k', k' ≠ key → assoc k' (oprops o') = assoc k' (oprops o))
      ∧ merged_key src o o' key).
  { intros sl kind Hv.
    apply (Hdeep sl (h ++ [mkObj kind []]) (length h) Hv).
    - now apply extends_alloc.
    - rewrite length_app. simpl. lia.
    - intros l Hl. now rewrite lookup_app_l.
    - rewrite length_app. simpl. lia.
    - now right. }
  (* an object of the destination to merge into *)
  assert (Hexisting : ∀ sl ol,
    v = VRef sl → get_prop o key = VRef ol →
    ∃ h' o',
      (h2 ← rec h ol sl; assignMergeValue h2 object key (VRef ol)) = Some h'
      ∧ extends h0 h' ∧ (length h ≤ length h')%nat
      ∧ (∀ l, (l < object)%nat → h' !! l = h !! l)
      ∧ h' !! object = Some o' ∧ okind o' = okind o
      ∧ (∀ k', k' ≠ key → assoc k' (oprops o') = assoc k' (oprops o))
      ∧ merged_key src o o' key).
  { intros sl ol Hv Hol.
    assert (Hin : (key, VRef ol) ∈ oprops o).
    { unfold get_prop in Hol. destruct (assoc key (oprops o)) as [x|] eqn:Ha;
        [|discriminate]. simpl in Hol. subst x. now apply assoc_elem_of. }
    destruct (Hnew object o key (VRef ol) Hobj Ho Hin) as [Hp|(l' & [= <-] & Hl')];
      [discriminate|].
    apply (Hdeep sl h ol Hv Hext); [lia|reflexivity|lia|now left]. }
  destruct v as [| | | | |sl| |]; cbv iota;
    try (apply Hprim; reflexivity);
    try (destruct n; discriminate Hplain).
  destruct (plain_data_ref h0 n sl Hplain)
    as (n' & sobj & Hn & Hsl & Hkind & _).
  assert (Hsl' : h !! sl = Some sobj).
  { rewrite Hold; [exact Hsl|]. now apply lookup_lt_Some in Hsl. }
  rewrite Hsl'. simpl.
  assert (Hshape : is_primitive (get_prop o key) = true
                   ∨ ∃ ol, get_prop o key = VRef ol).
  { unfold get_prop. destruct (assoc key (oprops o)) as [x|] eqn:Ha;
      [|now left]. simpl. apply assoc_elem_of in Ha.
    destruct (Hnew object o key x Hobj Ho Ha) as [Hp|(l' & -> & _)];
      [now left|right; eauto]. }
  destruct (okind sobj) eqn:Hk; [| |congruence].
  - destruct Hshape as [Hp|[ol Hol]].
    + destruct (get_prop o key); try discriminate Hp;
        apply (Hfresh sl KPlain eq_refl).
    + rewrite Hol. now apply Hexisting.
  - destruct (isArray h (get_prop o key)) eqn:Harr.
    + destruct Hshape as [Hp|[ol Hol]].
      * destruct (get_prop o key); discriminate.
      * rewrite Hol. now apply Hexisting.
    + apply (Hfresh sl KArray eq_refl).
Qed.

Lemma merged_key_change (src o o' o1 o1' : jsobj) (k : string) :
  assoc k (oprops o1) = assoc k (oprops o) →
  assoc k (oprops o1') = assoc k (oprops o') →
  merged_key src o o' k → merged_key src o1 o1' k.
Proof.
  unfold merged_key, get_prop. intros -> ->. trivial.
Qed.

Lemma merge_fold_spec (object source : loc) (src : jsobj)
    (ks : list string) :
  (length h0 ≤ object)%nat →
  h0 !! source = Some src →
  NoDup ks →
  (∀ k, k ∈ ks →
     ∃ v, assoc k (oprops src) = Some v ∧ plain_data h0 n v = true) →
  ∀ h o,
    extends h0 h → h !! object = Some o →
    ∃ h' o',
      foldl (λ acc key, h ← acc; mergeProperty rec object source h key)
            (Some h) ks = Some h'
      ∧ extends h0 h'
      ∧ (length h ≤ length h')%nat
      ∧ (∀ l, (l < object)%nat → h' !! l = h !! l)
      ∧ h' !! object = Some o'
      ∧ okind o' = okind o
      ∧ (∀ k, k ∈ ks → merged_key src o o' k)
      ∧ (∀ k, k ∉ ks → assoc k (oprops o') = assoc k (oprops o)).
Proof.
  intros Hobj Hsrc. induction ks as [|key ks IH]; intros Hnd Hkeys h o Hext Ho.
  - exists h, o. simpl. split; [reflexivity|]. split; [exact Hext|].
    split; [lia|]. split; [reflexivity|]. split; [exact Ho|].
    split; [reflexivity|]. split; [|reflexivity].
    intros k Hk. now apply elem_of_nil in Hk.
  - apply NoDup_cons in Hnd as [Hnotin Hnd].
    destruct (Hkeys key (list_elem_of_here _ _)) as (v & Hv & Hplain).
    destruct (mergeProperty_spec h object source src o key v
                Hext Hobj Ho Hsrc Hv Hplain)
      as (h1 & o1 & Hstep & Hext1 & Hlen1 & Hframe1 & Ho1 & Hkind1 & Hother1
          & Hmerged1).
    destruct (IH Hnd (λ k Hk, Hkeys k (list_elem_of_further _ _ _ Hk))
                 h1 o1 Hext1 Ho1)
      as (h' & o' & Hfold & Hext' & Hlen' & Hframe' & Ho' & Hkind' & Hin'
          & Hout').
    exists h', o'. simpl. rewrite Hstep.
    split; [exact Hfold|]. split; [exact Hext'|]. split; [lia|].
    split. { intros l Hl. rewrite Hframe' by exact Hl. now apply Hframe1. }
    split; [exact Ho'|]. split; [congruence|]. split.
    + intros k Hk. apply elem_of_cons in Hk as [->|Hk].
      * apply (merged_key_change src o o1); [reflexivity| |exact Hmerged1].
        now apply Hout'.
      * assert (Hne : k ≠ key) by (intros ->; contradiction).
        apply (merged_key_change src o1 o'); [|reflexivity|now apply Hin'].
        symmetry. now apply Hother1.
    + intros k Hk. apply not_elem_of_cons in Hk as [Hne Hk].
      rewrite (Hout' k Hk). now apply Hother1.
Qed.

End MergeStep.

Lemma assoc_not_key {V} (k : string) (ps : list (string * V)) :
  k ∉ ps.*1 → assoc k ps = None.
Proof.
  induction ps as [|[k1 v1] ps IH]; simpl; [reflexivity|].
  intros Hk. apply not_elem_of_cons in Hk as [Hne Hk].
  destruct (String.eqb_spec k1 k); [congruence|now apply IH].
Qed.

Lemma baseMerge_unfold (fuel : nat) (h : list jsobj) (object source : loc) :
  baseMerge (S fuel) h object source =
    if Nat.eqb object source then Some h else
    src ← h !! source;
    foldl (λ acc key,
             h ← acc; mergeProperty (baseMerge fuel) object source h key)
          (Some h) (oprops src).*1.
Proof. reflexivity. Qed.

(** Merging a plain source of the old heap into a new object: the call
    returns, writes to new objects only, and leaves under every key the
    value [merged_key] describes. *)

Lemma baseMerge_spec (h0 : list jsobj) (fuel : nat) :
  ∀ n h object source src o,
    (n ≤ fuel)%nat →
    extends h0 h → (length h0 ≤ object)%nat → h !! object = Some o →
    h0 !! source = Some src → plain_data h0 n (VRef source) = true →
    ∃ h' o',
      baseMerge fuel h object source = Some h'
      ∧ extends h0 h'
      ∧ (length h ≤ length h')%nat
      ∧ (∀ l, (l < object)%nat → h' !! l = h !! l)
      ∧ h' !! object = Some o'
      ∧ okind o' = okind o
      ∧ ∀ k, merged_key src o o' k.
Proof.
  induction fuel as [|fuel IH];
    intros n h object source src o Hn Hext Hobj Ho Hsrc Hplain;
    destruct (plain_data_ref h0 n source Hplain)
      as (n' & src' & -> & Hsrc' & Hkind & Hnd & Hvalues);
    [lia|].
  assert (src' = src) by congruence. subst src'.
  pose proof Hext as (Hlen & Hold & Hnew).
  assert (Hslt : (source < length h0)%nat) by (now apply lookup_lt_Some in Hsrc).
  rewrite baseMerge_unfold.
  destruct (Nat.eqb_spec object source) as [Heq|_]; [lia|].
  assert (Hsource : h !! source = Some src)
    by (rewrite Hold; [exact Hsrc|exact Hslt]).
  rewrite Hsource. cbn [mbind option_bind].
  destruct (merge_fold_spec (baseMerge fuel) h0 n'
              (λ h object source src o, IH n' h object source src o ltac:(lia))
              object source src (oprops src).*1 Hobj Hsrc Hnd)
    with (h := h) (o := o)
    as (h' & o' & Hfold & Hext' & Hlen' & Hframe' & Ho' & Hkind' & Hin'
        & Hout'); [|exact Hext|exact Ho|].
  { intros k Hk. apply list_elem_of_fmap in Hk as ([k1 v] & -> & Hin).
    exists v. split; [now apply elem_of_assoc|]. now apply (Hvalues k1). }
  exists h', o'. split; [exact Hfold|]. split; [exact Hext'|].
  split; [exact Hlen'|]. split; [exact Hframe'|]. split; [exact Ho'|].
  split; [exact Hkind'|].
  intros k. destruct (decide (k ∈ (oprops src).*1)) as [Hk|Hk].
  - now apply Hin'.
  - unfold merged_key. rewrite (assoc_not_key k _ Hk). now apply Hout'.
Qed.

Lemma extends_refl (h : list jsobj) : extends h h.
Proof.
  split; [lia|]. split; [reflexivity|].
  intros l o k v Hl Ho. apply lookup_lt_Some in Ho. lia.
Qed.

(** Whatever a new object leads to is new. *)

Lemma reach_new (h0 h : list jsobj) (v : jsval) (l : loc) :
  extends h0 h →
  reach h v l →
  ∀ c, v = VRef c → (length h0 ≤ c)%nat → (length h0 ≤ l)%nat.
Proof.
  intros (_ & _ & Hnew). induction 1 as [l|c0 o k v l' Hc0 Hin Hreach IH];
    intros c [= <-] Hc; [exact Hc|].
  destruct (Hnew _ _ _ _ Hc Hc0 Hin) as [Hp|(l'' & -> & Hl'')].
  - inversion Hreach; subst; discriminate.
  - apply (IH l'' eq_refl). lia.
Qed.

(** [_.merge({}, supplied, inherited)] on plain data of the heap. *)

Lemma merge_into_new_spec (h : list jsobj) (supplied : option loc) (p : loc)
    (po : jsobj) :
  h !! p = Some po →
  plain_data h (S (length h)) (VRef p) = true →
  plain_data h (S (length h)) (from_option VRef VUndef supplied) = true →
  ∃ h' co,
    merge_into_new (S (length h)) h (from_option VRef VUndef supplied) (VRef p)
    = Some (h', length h)
    ∧ extends h h'
    ∧ h' !! length h = Some co
    ∧ (∀ k v, assoc k (oprops po) = Some v → is_primitive v = true →
              v ≠ VUndef → get_prop co k = v)
    ∧ (∀ k l, assoc k (oprops po) = Some (VRef l) →
              ∃ l', get_prop co k = VRef l' ∧ (length h < l')%nat)
    ∧ (∀ k v d dobj,
         supplied = Some d → h !! d = Some dobj →
         assoc k (oprops dobj) = Some v → is_primitive v = true →
         assoc k (oprops po) = None → get_prop co k = v).
Proof.
  intros Hp Hplain Hsupplied. unfold merge_into_new, alloc.
  set (h1 := h ++ [mkObj KPlain []]).
  assert (Hext1 : extends h h1) by (apply extends_alloc, extends_refl).
  assert (Ho1 : h1 !! length h = Some (mkObj KPlain [])).
  { unfold h1. rewrite lookup_app_r by lia. now rewrite Nat.sub_diag. }
  (* the supplied payload *)
  assert (Hfirst : ∃ h2 o2,
    merge_source (S (length h)) h1 (length h) (from_option VRef VUndef supplied)
    = Some h2
    ∧ extends h h2 ∧ h2 !! length h = Some o2
    ∧ ∀ k v d dobj,
        supplied = Some d → h !! d = Some dobj →
        assoc k (oprops dobj) = Some v → is_primitive v = true →
        get_prop o2 k = v).
  { destruct supplied as [d|]; simpl.
    - cbn [from_option] in Hsupplied.
      destruct (plain_data_ref h _ d Hsupplied) as (n' & dobj & _ & Hd & _).
      destruct (baseMerge_spec h (S (length h)) (S (length h)) h1 (length h) d
                  dobj (mkObj KPlain []) ltac:(lia) Hext1 ltac:(lia) Ho1 Hd
                  Hsupplied)
        as (h2 & o2 & Hm & Hext2 & _ & _ & Ho2 & _ & Hkeys).
      exists h2, o2. unfold merge_source. simpl. split; [exact Hm|].
      split; [exact Hext2|]. split; [exact Ho2|].
      intros k v d' dobj' [= <-] Hd' Hk Hv.
      assert (dobj' = dobj) by congruence. subst dobj'.
      specialize (Hkeys k). unfold merged_key in Hkeys.
      rewrite Hk, Hv in Hkeys.
      destruct (is_undefined v) eqn:Hu; [|exact Hkeys].
      destruct v; try discriminate. exact Hkeys.
    - exists h1, (mkObj KPlain []). split; [reflexivity|].
      split; [exact Hext1|]. split; [exact Ho1|].
      intros k v d dobj [=]. }
  destruct Hfirst as (h2 & o2 & Hm2 & Hext2 & Ho2 & Hsup).
  fold h1. rewrite Hm2. cbn [mbind option_bind].
  destruct (baseMerge_spec h (S (length h)) (S (length h)) h2 (length h) p po o2
              ltac:(lia) Hext2 ltac:(lia) Ho2 Hp Hplain)
    as (h3 & o3 & Hm3 & Hext3 & _ & _ & Ho3 & _ & Hkeys).
  exists h3, o3.
  change (merge_source (S (length h)) h2 (length h) (VRef p))
    with (baseMerge (S (length h)) h2 (length h) p).
  rewrite Hm3. cbn [mbind option_bind].
  split; [reflexivity|]. split; [exact Hext3|]. split; [exact Ho3|].
  split.
  - intros k v Hk Hv Hndef. specialize (Hkeys k). unfold merged_key in Hkeys.
    rewrite Hk, Hv in Hkeys.
    destruct (is_undefined v) eqn:Hu; [|exact Hkeys].
    destruct v; try discriminate. congruence.
  - split.
    { intros k l Hk. specialize (Hkeys k). unfold merged_key in Hkeys.
      rewrite Hk in Hkeys. simpl in Hkeys. destruct Hkeys as [l' Hl'].
      exists l'. split; [exact Hl'|].
      assert (Hin : (k, VRef l') ∈ oprops o3).
      { unfold get_prop in Hl'.
        destruct (assoc k (oprops o3)) as [x|] eqn:Ha; [|discriminate].
        simpl in Hl'. subst x. now apply assoc_elem_of. }
      destruct Hext3 as (_ & _ & Hnew3).
      destruct (Hnew3 (length h) o3 k (VRef l') ltac:(lia) Ho3 Hin)
        as [Hprim|(l'' & [= <-] & Hl'')]; [discriminate|lia]. }
    intros k v d dobj Hs Hd Hk Hv Hnone.
    specialize (Hkeys k). unfold merged_key in Hkeys. rewrite Hnone in Hkeys.
    unfold get_prop. rewrite Hkeys.
    apply (Hsup k v d dobj Hs Hd Hk Hv).
Qed.

(** The constructor below a parent with a truthy payload. *)

Lemma TraceContext_new_inherit (ext : Externals)
    (config : ITraceContextConfig) (P : TraceContext) (w : World)
    (h' : list jsobj) (c : loc) :
  cfg_parent config = Some P →
  truthy (data_of w P) = true →
  merge_into_new (S (length (heap w))) (heap w) (cfg_data config)
                 (data_of w P) = Some (h', c) →
  ∃ C w',
    TraceContext_new ext config w = (Ok C, w')
    ∧ ctx_ref C = next_ref w
    ∧ _parent C = Some P
    ∧ heap w' = h'
    ∧ ctx_data w'
      = <[next_ref w := VRef c]> (<[next_ref w := cfg_data config]> (ctx_data w)).
Proof.
  intros Hparent Htruthy Hmerge.
  unfold TraceContext_new. rewrite Hparent.
  assert (Hrun : ∀ (getId : M string) id w1,
    getId w = (Ok id, w1) → heap w1 = heap w → ctx_data w1 = ctx_data w →
    next_ref w1 = next_ref w →
    ∃ C w',
      (id ← getId;
       ref ← fresh_ref;
       w ← get_world;
       let self :=
         mkTraceContext ref id
           (default true (cfg_autoTracing config))
           (nullish (cfg_serviceName config) (TC_serviceName (statics w)))
           (nullish (cfg_serviceColor config) (TC_serviceColor (statics w)))
           (cfg_callStackNamesChain config) (cfg_className config)
           (cfg_filePath config) (cfg_fnName config) (Some P)
           (cfg_spanHash config) (TC_logDriver (statics w))
           (nullish (TC_logLevel (statics w)) (Logger_level (statics w))) in
       set_data self (cfg_data config);;
       (if truthy (data_of w P) then
          match merge_into_new (S (length (heap w))) (heap w)
                  (cfg_data config) (data_of w P) with
          | Some (h, merged) =>
              modify (set_heap h);; set_data self (VRef merged);; mret self
          | None => stuck
          end
        else mret self)) w = (Ok C, w')
      ∧ ctx_ref C = next_ref w
      ∧ _parent C = Some P
      ∧ heap w' = h'
      ∧ ctx_data w'
        = <[next_ref w := VRef c]>
            (<[next_ref w := cfg_data config]> (ctx_data w))).
  { intros getId id w1 Hid Hheap Hdata Href.
    rewrite (bind_ok _ _ _ _ _ Hid).
    cbv beta iota zeta delta [mbind M_bind bind fresh_ref get_world modify
      set_data mret M_ret ret].
    match goal with
    | |- context [truthy (data_of ?w2 P)] =>
        replace (data_of w2 P) with (data_of w P)
          by (unfold data_of; cbn; now rewrite Hdata);
        replace (heap w2) with (heap w) by (cbn; now rewrite Hheap)
    end.
    rewrite Htruthy, Hmerge.
    eexists _, _. split; [reflexivity|]. cbn.
    rewrite Href, Hdata. repeat split. }
  destruct (cfg_id config) as [id|].
  - apply (Hrun (mret id) id w); reflexivity.
  - apply (Hrun (nanoid_draw ext) (nanoid ext (nanoid_calls w))
             (set_nanoid_calls (S (nanoid_calls w)) w)); reflexivity.
Qed.

(** *** The content of the merged payload *)

Lemma deep_merge_value_node (objValue : option tree) (kind : objkind)
    (srcProps : list (string * tree)) :
  kind ≠ KInstance →
  deep_merge_value objValue (TNode kind srcProps)
  = let '(kind', objProps) :=
      match objValue with
      | Some (TNode k props) =>
          if bool_decide (kind = KArray) && negb (bool_decide (k = KArray))
          then (KArray, [])
          else (k, props)
      | _ => (kind, [])
      end in
    TNode kind' (deep_merge_props objProps srcProps).
Proof. destruct kind; [reflexivity|reflexivity|congruence]. Qed.

Lemma tree_of_mono (h : list jsobj) (fuel : nat) :
  ∀ v t fuel', tree_of fuel h v = Some t → (fuel ≤ fuel')%nat →
               tree_of fuel' h v = Some t.
Proof.
  induction fuel as [|fuel IH]; intros v t fuel' Ht Hle.
  - destruct v; try (destruct fuel'; exact Ht). discriminate Ht.
  - destruct v; try (destruct fuel'; exact Ht).
    destruct fuel' as [|fuel']; [lia|].
    cbn [tree_of] in Ht |- *.
    destruct (h !! l) as [o|]; [|discriminate Ht].
    cbn [mbind option_bind] in Ht |- *.
    destruct (mapM _ (oprops o)) as [props|] eqn:Hm; [|discriminate Ht].
    cbn in Ht. injection Ht as <-.
    assert (Hm' : mapM (λ kv : string * jsval,
                          t ← tree_of fuel' h kv.2; Some (kv.1, t))
                       (oprops o) = Some props).
    { apply mapM_Some. apply mapM_Some in Hm.
      eapply Forall2_impl; [exact Hm|]. intros [k v] [k' t'] Hkv.
      cbn [fst snd] in Hkv |- *.
      destruct (tree_of fuel h v) as [t0|] eqn:Hv; [|discriminate Hkv].
      rewrite (IH v t0 fuel' Hv) by lia. exact Hkv. }
    now rewrite Hm'.
Qed.

Lemma tree_of_plain (h : list jsobj) (n : nat) :
  ∀ v, plain_data h n v = true →
       ∃ t, tree_of n h v = Some t ∧ plain_tree t = true.
Proof.
  induction n as [|n IH]; intros v Hv.
  - destruct v; try discriminate Hv; eexists; split; reflexivity.
  - destruct v as [| | | | |l| |];
      try discriminate Hv; try (eexists; split; reflexivity).
    destruct (plain_data_ref h (S n) l Hv)
      as (n' & o & [= <-] & Ho & Hkind & Hnd & Hall).
    cbn [tree_of]. rewrite Ho. cbn [mbind option_bind].
    assert (Hps : ∃ props,
      mapM (λ kv : string * jsval, t ← tree_of n h kv.2; Some (kv.1, t))
           (oprops o) = Some props
      ∧ props.*1 = (oprops o).*1
      ∧ forallb (λ kt : string * tree, plain_tree kt.2) props = true).
    { clear Ho Hnd Hv. induction (oprops o) as [|[k v] ps IHps].
      - exists []. now split.
      - destruct (IH v (Hall k v (list_elem_of_here _ _))) as (t & Ht & Hpt).
        destruct IHps as (props & Hm & Hk & Hf).
        { intros k' v' Hin. apply (Hall k' v').
          now apply list_elem_of_further. }
        exists ((k, t) :: props). cbn [mapM fst snd]. rewrite Ht. cbn.
        rewrite Hm. cbn. split; [reflexivity|]. split; [now rewrite Hk|].
        now rewrite Hpt, Hf. }
    destruct Hps as (props & Hm & Hk & Hf). rewrite Hm. cbn.
    eexists. split; [reflexivity|]. cbn [plain_tree].
    rewrite Hf, Hk, Bool.andb_true_r. apply andb_true_iff. split.
    + apply Bool.negb_true_iff. now apply bool_decide_eq_false.
    + now apply bool_decide_eq_true.
Qed.

(** *** The representation of a payload in the heap *)

Lemma reps_weaken (h : list jsobj) (ps : list (string * jsval))
    (ts : list (string * tree)) (F F' : gset loc) :
  reps h ps ts F → F ⊆ F' → reps h ps ts F'.
Proof.
  intros H Hsub. destruct H as [F|k v t ps ts F F1 F2 Hd Hu Hv Hps].
  - constructor.
  - apply (reps_cons h k v t ps ts F' F1 F2); [exact Hd|set_solver|exact Hv|exact Hps].
Qed.

Lemma rep_weaken (h : list jsobj) (v : jsval) (t : tree) (F F' : gset loc) :
  rep h v t F → F ⊆ F' → rep h v t F'.
Proof.
  intros H Hsub. destruct H as [v F Hp|l o ts F Ho Hl Hps].
  - now constructor.
  - constructor; [exact Ho|set_solver|].
    eapply reps_weaken; [exact Hps|set_solver].
Qed.

Lemma rep_frame (h h' : list jsobj) (v : jsval) (t : tree) (F : gset loc) :
  rep h v t F → (∀ l, l ∈ F → h' !! l = h !! l) → rep h' v t F.
Proof.
  intros H. revert h'.
  induction H using rep_mind with
    (P0 := λ ps ts F, ∀ h', (∀ l, l ∈ F → h' !! l = h !! l) →
                            reps h' ps ts F);
    intros h' Hsame.
  - now constructor.
  - constructor; [now rewrite Hsame|assumption|].
    apply IHrep. intros l' Hl'. apply Hsame. set_solver.
  - constructor.
  - apply (reps_cons h' k v t ps ts F F1 F2); [assumption..| |].
    + apply IHrep. intros l Hl. apply Hsame. set_solver.
    + apply IHrep0. intros l Hl. apply Hsame. set_solver.
Qed.

Lemma reps_frame (h h' : list jsobj) (ps : list (string * jsval))
    (ts : list (string * tree)) (F : gset loc) :
  reps h ps ts F → (∀ l, l ∈ F → h' !! l = h !! l) → reps h' ps ts F.
Proof.
  intros H. revert h'. induction H as [F|k v t ps ts F F1 F2 Hd Hu Hv Hps IH];
    intros h' Hsame.
  - constructor.
  - apply (reps_cons h' k v t ps ts F F1 F2); [assumption..| |].
    + apply (rep_frame h); [exact Hv|]. intros l Hl. apply Hsame. set_solver.
    + apply IH. intros l Hl. apply Hsame. set_solver.
Qed.

Lemma rep_ref_inv (h : list jsobj) (l : loc) (t : tree) (F : gset loc) :
  rep h (VRef l) t F →
  ∃ o ts, t = TNode (okind o) ts ∧ h !! l = Some o ∧ l ∈ F
          ∧ reps h (oprops o) ts (F ∖ {[l]}).
Proof.
  intros H. inversion H as [v F' Hp|l' o ts F' Ho Hl Hps]; subst.
  - discriminate Hp.
  - now exists o, ts.
Qed.

Lemma rep_primitive_inv (h : list jsobj) (v : jsval) (t : tree)
    (F : gset loc) :
  rep h v t F → is_primitive v = true → t = TLeaf v.
Proof.
  intros H Hp. inversion H; subst; [reflexivity|discriminate Hp].
Qed.

Lemma rep_shape (h : list jsobj) (v : jsval) (t : tree) (F : gset loc) :
  rep h v t F → is_primitive v = true ∨ ∃ l, v = VRef l ∧ l ∈ F.
Proof.
  intros H. inversion H; subst; [now left|right; eauto].
Qed.

(** The content can be read with a budget of one per object of [F]. *)

Lemma rep_tree_of (h : list jsobj) (v : jsval) (t : tree) (F : gset loc) :
  rep h v t F → tree_of (size F) h v = Some t.
Proof.
  intros H.
  induction H using rep_mind with
    (P0 := λ ps ts F,
       mapM (λ kv : string * jsval,
               t ← tree_of (size F) h kv.2; Some (kv.1, t)) ps = Some ts).
  - destruct v; try discriminate; destruct (size F); reflexivity.
  - assert (Hsize : size F = S (size (F ∖ {[l]}))).
    { rewrite (union_difference_L {[l]} F) at 1 by set_solver.
      rewrite size_union by set_solver. now rewrite size_singleton. }
    rewrite Hsize. cbn [tree_of]. rewrite H. cbn [mbind option_bind].
    rewrite IHrep. reflexivity.
  - reflexivity.
  - cbn [mapM fst snd].
    rewrite (tree_of_mono h (size F1) v t (size F) IHrep)
      by (apply subseteq_size; set_solver).
    cbn.
    assert (Hm : mapM (λ kv : string * jsval,
                         t ← tree_of (size F) h kv.2; Some (kv.1, t)) ps
                 = Some ts).
    { apply mapM_Some. apply mapM_Some in IHrep0.
      eapply Forall2_impl; [exact IHrep0|]. intros [k' v'] [k'' t'] Hkv.
      cbn [fst snd] in Hkv |- *.
      destruct (tree_of (size F2) h v') as [t0|] eqn:Hv; [|discriminate Hkv].
      rewrite (tree_of_mono h (size F2) v' t0 (size F) Hv)
        by (apply subseteq_size; set_solver).
      exact Hkv. }
    now rewrite Hm.
Qed.

Lemma set_in_same {V} (k : string) (v : V) (ps : list (string * V)) :
  assoc k ps = Some v → set_in k v ps = ps.
Proof.
  induction ps as [|[k1 v1] ps IH]; simpl; [discriminate|].
  destruct (String.eqb_spec k1 k) as [->|Hk].
  - now intros [= ->].
  - intros H. now rewrite IH.
Qed.

(** The value under a key and what is left around it: the value can be
    replaced by one whose objects are apart from the rest. *)

Lemma reps_set_in (h : list jsobj) (ps : list (string * jsval))
    (ts : list (string * tree)) (F : gset loc) (key : string) :
  reps h ps ts F →
  ∃ F1 Fr : gset loc,
    F1 ## Fr ∧ F1 ∪ Fr ⊆ F
    ∧ match assoc key ps with
      | Some v => ∃ t, assoc key ts = Some t ∧ rep h v t F1
      | None => assoc key ts = None
      end
    ∧ ∀ h' v' t' F1',
        (∀ l, l ∈ Fr → h' !! l = h !! l) →
        rep h' v' t' F1' → F1' ## Fr →
        reps h' (set_in key v' ps) (set_in key t' ts) (Fr ∪ F1').
Proof.
  intros H. induction H as [F|k v t ps ts F F1 F2 Hd Hu Hv Hps IH].
  - exists ∅, ∅. split; [set_solver|]. split; [set_solver|].
    split; [reflexivity|]. intros h' v' t' F1' _ Hv' _. cbn [set_in].
    apply (reps_cons h' key v' t' [] [] _ F1' ∅);
      [set_solver|set_solver|exact Hv'|constructor].
  - cbn [assoc set_in]. destruct (String.eqb_spec k key) as [->|Hne].
    + exists F1, F2. split; [exact Hd|]. split; [exact Hu|].
      split; [now exists t|]. intros h' v' t' F1' Hsame Hv' Hd'.
      apply (reps_cons h' key v' t' ps ts _ F1' F2);
        [exact Hd'|set_solver|exact Hv'|].
      now apply (reps_frame h).
    + destruct IH as (G1 & Gr & HdG & HuG & Hat & Hbuild).
      exists G1, (Gr ∪ F1). split; [set_solver|]. split; [set_solver|].
      split; [exact Hat|]. intros h' v' t' F1' Hsame Hv' Hd'.
      apply (reps_cons h' k v t (set_in key v' ps) (set_in key t' ts) _
               F1 (Gr ∪ F1')); [set_solver|set_solver| |].
      * apply (rep_frame h); [exact Hv|]. intros l Hl. apply Hsame.
        set_solver.
      * apply Hbuild; [|exact Hv'|set_solver].
        intros l Hl. apply Hsame. set_solver.
Qed.

Lemma elem_of_new_locs (h h' : list jsobj) (l : loc) :
  l ∈ new_locs h h' ↔ (length h ≤ l < length h')%nat.
Proof. unfold new_locs. rewrite elem_of_set_seq. lia. Qed.

Section MergeTree.

Variables (rec : list jsobj → loc → loc → option (list jsobj))
          (h0 : list jsobj) (n : nat).

Hypothesis rec_spec :
  ∀ h object source ok ops F sk sps,
    (length h0 ≤ length h)%nat →
    (∀ l, (l < length h0)%nat → h !! l = h0 !! l) →
    plain_data h0 n (VRef source) = true →
    tree_of n h0 (VRef source) = Some (TNode sk sps) →
    rep h (VRef object) (TNode ok ops) F →
    (∀ l, l ∈ F → (length h0 ≤ l < length h)%nat) →
    ∃ h',
      rec h object source = Some h'
      ∧ (length h ≤ length h')%nat
      ∧ (∀ l, (l < length h)%nat → l ∉ F → h' !! l = h !! l)
      ∧ rep h' (VRef object) (TNode ok (deep_merge_props ops sps))
            (F ∪ new_locs h h').

Lemma mergeProperty_rep (h : list jsobj) (object source : loc)
    (src : jsobj) (ok : objkind) (ops : list (string * tree))
    (F : gset loc) (key : string) (v : jsval) (t : tree) :
  (length h0 ≤ length h)%nat →
  (∀ l, (l < length h0)%nat → h !! l = h0 !! l) →
  h0 !! source = Some src →
  assoc key (oprops src) = Some v →
  plain_data h0 n v = true →
  tree_of n h0 v = Some t →
  rep h (VRef object) (TNode ok ops) F →
  (∀ l, l ∈ F → (length h0 ≤ l < length h)%nat) →
  ∃ h',
    mergeProperty rec object source h key = Some h'
    ∧ (length h ≤ length h')%nat
    ∧ (∀ l, (l < length h)%nat → l ∉ F → h' !! l = h !! l)
    ∧ rep h' (VRef object)
          (TNode ok (set_in key (deep_merge_value (assoc key ops) t) ops))
          (F ∪ new_locs h h').
Proof.
  intros Hlen Hold Hsrc Hkey Hplain Htree Hrep HF.
  destruct (rep_ref_inv h object _ F Hrep)
    as (o & ops' & [= -> <-] & Ho & HoF & Hps).
  assert (Hsource : h !! source = Some src).
  { rewrite Hold; [exact Hsrc|]. now apply lookup_lt_Some in Hsrc. }
  assert (Holt : (length h0 ≤ object < length h)%nat) by (now apply HF).
  assert (Hget : get_prop src key = v) by (unfold get_prop; now rewrite Hkey).
  destruct (reps_set_in h (oprops o) ops (F ∖ {[object]}) key Hps)
    as (F1 & Fr & Hd & Hu & Hat & Hbuild).
  unfold mergeProperty. unfold loc in *. rewrite Hsource, Ho.
  cbn [mbind option_bind]. rewrite Hget.
  assert (HoF1 : object ∉ F1) by set_solver.
  assert (HF1 : ∀ l, l ∈ F1 → (length h0 ≤ l < length h)%nat).
  { intros l Hl. apply HF. set_solver. }
  (* the object with [value] under [key], the rest as it was *)
  assert (Hrebuild : ∀ h1 value t' F1' h' o',
    (length h ≤ length h1)%nat →
    (∀ l, (l < length h)%nat → l ∉ F1 → h1 !! l = h !! l) →
    rep h1 value t' F1' → F1' ⊆ F1 ∪ new_locs h h1 →
    h' !! object = Some o' → okind o' = okind o →
    oprops o' = set_in key value (oprops o) →
    (∀ l, l ≠ object → h' !! l = h1 !! l) →
    rep h' (VRef object) (TNode (okind o) (set_in key t' ops))
        (F ∪ new_locs h h1)).
  { intros h1 value t' F1' h' o' Hlen1 Hsame Hv' Hsub Ho' Hk' Hp' Hsame'.
    assert (HoF1' : object ∉ F1').
    { intros Hin. apply Hsub in Hin.
      apply elem_of_union in Hin as [Hin|Hin]; [contradiction|].
      apply elem_of_new_locs in Hin. lia. }
    rewrite <- Hk'. constructor; [exact Ho'|set_solver|]. rewrite Hp'.
    eapply reps_weaken.
    - apply (Hbuild h' value t' F1').
      + intros l Hl.
        assert (HlF : l ∈ F ∖ {[object]}) by set_solver.
        assert (l ∈ F) by set_solver.
        rewrite Hsame' by set_solver.
        apply Hsame; [now apply HF|set_solver].
      + apply (rep_frame h1); [exact Hv'|].
        intros l Hl. apply Hsame'. intros ->. contradiction.
      + intros l Hl1 Hlr. apply Hsub in Hl1.
        apply elem_of_union in Hl1 as [Hl1|Hl1]; [set_solver|].
        apply elem_of_new_locs in Hl1.
        assert (l ∈ F) by set_solver.
        assert (l < length h)%nat by (now apply HF). lia.
    - intros l Hl. apply elem_of_difference. split.
      + apply elem_of_union in Hl as [Hl|Hl]; [set_solver|].
        apply Hsub in Hl. set_solver.
      + intros Hlo. apply elem_of_singleton in Hlo. subst l.
        apply elem_of_union in Hl as [Hl|Hl]; [set_solver|contradiction]. }
  (* a reference is assigned, or is already there *)
  assert (Href : ∀ h1 target t' F1',
    (length h ≤ length h1)%nat →
    (∀ l, (l < length h)%nat → l ∉ F1 → h1 !! l = h !! l) →
    rep h1 (VRef target) t' F1' → F1' ⊆ F1 ∪ new_locs h h1 →
    (assoc key (oprops o) = Some (VRef target)
     ∨ (length h ≤ target)%nat) →
    ∃ h',
      assignMergeValue h1 object key (VRef target) = Some h'
      ∧ length h' = length h1
      ∧ (∀ l, l ≠ object → h' !! l = h1 !! l)
      ∧ rep h' (VRef object) (TNode (okind o) (set_in key t' ops))
            (F ∪ new_locs h h1)).
  { intros h1 target t' F1' Hlen1 Hsame Hv' Hsub Hwhere.
    assert (Ho1 : h1 !! object = Some o).
    { rewrite Hsame by (lia || exact HoF1). exact Ho. }
    unfold assignMergeValue. unfold loc in *. rewrite Ho1. cbn [mbind option_bind].
    cbn [is_undefined negb andb orb]. rewrite Bool.orb_false_r.
    destruct Hwhere as [Hthere|Hnew].
    - assert (Heq : eq_js (get_prop o key) (VRef target) = true).
      { unfold get_prop. rewrite Hthere. cbn. apply Nat.eqb_refl. }
      rewrite Heq. cbn [negb]. exists h1.
      split; [reflexivity|]. split; [reflexivity|]. split; [reflexivity|].
      apply (Hrebuild h1 (VRef target) t' F1' h1 o); try assumption;
        try reflexivity.
      symmetry. now apply set_in_same.
    - assert (Heq : eq_js (get_prop o key) (VRef target) = false).
      { unfold get_prop. destruct (assoc key (oprops o)) as [x|] eqn:Hx;
          [|reflexivity].
        destruct Hat as (tx & _ & Hx').
        destruct (rep_shape h x tx F1 Hx') as [Hp|(l & -> & Hl)].
        - destruct x; try discriminate Hp; reflexivity.
        - cbn. apply Nat.eqb_neq. apply HF1 in Hl. lia. }
      rewrite Heq. cbn [negb]. eexists.
      split; [reflexivity|]. split; [now rewrite length_insert|].
      split; [intros l Hl; now rewrite list_lookup_insert_ne by congruence|].
      apply (Hrebuild h1 (VRef target) t' F1' _ (set_prop o key (VRef target)));
        try assumption; try reflexivity.
      + apply list_lookup_insert_eq. now apply lookup_lt_Some in Ho1.
      + intros l Hl. now rewrite list_lookup_insert_ne by congruence. }
  assert (Hlocs : ∀ h1 h', length h' = length h1 →
                          new_locs h h1 = new_locs h h').
  { intros h1 h' Hl. unfold new_locs. now rewrite Hl. }
  (* a primitive of the source *)
  assert (Hprim : is_primitive v = true →
    ∃ h',
      assignMergeValue h object key v = Some h'
      ∧ (length h ≤ length h')%nat
      ∧ (∀ l, (l < length h)%nat → l ∉ F → h' !! l = h !! l)
      ∧ rep h' (VRef object)
            (TNode (okind o)
               (set_in key (deep_merge_value (assoc key ops) t) ops))
            (F ∪ new_locs h h')).
  { intros Hp.
    assert (Ht : t = TLeaf v).
    { destruct v; try discriminate Hp; destruct n; now injection Htree. }
    subst t. cbn [deep_merge_value].
    unfold assignMergeValue. unfold loc in *. rewrite Ho. cbn [mbind option_bind].
    destruct (negb (is_undefined v) && negb (eq_js (get_prop o key) v)
              || is_undefined v && negb (has_prop o key)) eqn:Hc.
    - eexists. split; [reflexivity|]. split; [now rewrite length_insert|].
      split.
      { intros l Hl HlF. rewrite list_lookup_insert_ne; [reflexivity|].
        intros <-. contradiction. }
      assert (Hval : (if is_undefined v
                      then default (TLeaf v) (assoc key ops)
                      else TLeaf v) = TLeaf v).
      { destruct (is_undefined v) eqn:Hund; [|reflexivity].
        rewrite Bool.andb_false_l, Bool.orb_false_l, Bool.andb_true_l in Hc.
        apply Bool.negb_true_iff in Hc. unfold has_prop in Hc.
        apply bool_decide_eq_false in Hc.
        destruct (assoc key (oprops o)) as [x|]; [exfalso; apply Hc; eauto|].
        now rewrite Hat. }
      rewrite Hval.
      rewrite <- (Hlocs h (<[object := set_prop o key v]> h))
        by (now rewrite length_insert).
      apply (Hrebuild h v (TLeaf v) ∅ _ (set_prop o key v));
        try reflexivity; try lia.
      + now constructor.
      + set_solver.
      + apply list_lookup_insert_eq. lia.
      + intros l Hl. now rewrite list_lookup_insert_ne by congruence.
    - exists h. split; [reflexivity|]. split; [lia|].
      split; [reflexivity|].
      apply Bool.orb_false_iff in Hc as [Hc1 Hc2].
      destruct (is_undefined v) eqn:Hund.
      + cbn in Hc2. apply Bool.negb_false_iff in Hc2.
        unfold has_prop in Hc2. apply bool_decide_eq_true in Hc2.
        destruct Hc2 as [x Hx]. rewrite Hx in Hat.
        destruct Hat as (tx & Htx & Hrx). rewrite Htx. cbn [default].
        apply (Hrebuild h x tx F1 h o); try reflexivity; try lia;
          try assumption.
        * set_solver.
        * symmetry. now apply set_in_same.
      + cbn in Hc1. apply Bool.negb_false_iff in Hc1.
        apply eq_js_true in Hc1; [|now left].
        assert (Hx : assoc key (oprops o) = Some v).
        { unfold get_prop in Hc1.
          destruct (assoc key (oprops o)) as [x|]; cbn in Hc1;
            [now subst x|].
          rewrite <- Hc1 in Hund. discriminate Hund. }
        apply (Hrebuild h v (TLeaf v) ∅ h o); try reflexivity; try lia;
          try assumption.
        * now constructor.
        * set_solver.
        * symmetry. now apply set_in_same. }
  destruct v as [| | | | |sl| |];
    try (apply Hprim; reflexivity);
    try (destruct n; discriminate Hplain).
  clear Hprim.
  destruct (plain_data_ref h0 n sl Hplain)
    as (n' & sobj & Hn & Hsl & Hkind & _).
  assert (Hsl' : h !! sl = Some sobj).
  { rewrite Hold; [exact Hsl|]. now apply lookup_lt_Some in Hsl. }
  assert (Ht : ∃ sps, t = TNode (okind sobj) sps).
  { rewrite Hn in Htree. cbn [tree_of] in Htree. rewrite Hsl in Htree.
    cbn [mbind option_bind] in Htree.
    destruct (mapM _ (oprops sobj)) as [sps|]; [|discriminate Htree].
    injection Htree as <-. now exists sps. }
  destruct Ht as (sps & ->).
  unfold loc in *. rewrite Hsl'. cbn [mbind option_bind].
  rewrite (deep_merge_value_node _ _ _ Hkind).
  (* merging into the object the destination has under the key *)
  assert (Hinplace : ∀ ol olo opsx,
    assoc key (oprops o) = Some (VRef ol) →
    assoc key ops = Some (TNode (okind olo) opsx) →
    rep h (VRef ol) (TNode (okind olo) opsx) F1 →
    ∃ h',
      (h1 ← rec h ol sl; assignMergeValue h1 object key (VRef ol)) = Some h'
      ∧ (length h ≤ length h')%nat
      ∧ (∀ l, (l < length h)%nat → l ∉ F → h' !! l = h !! l)
      ∧ rep h' (VRef object)
            (TNode (okind o)
               (set_in key
                  (TNode (okind olo) (deep_merge_props opsx sps)) ops))
            (F ∪ new_locs h h')).
  { intros ol olo opsx Hthere Htx Hrx.
    destruct (rec_spec h ol sl (okind olo) opsx F1 (okind sobj) sps
                Hlen Hold Hplain Htree Hrx HF1)
      as (h1 & Hrec & Hlen1 & Hframe1 & Hrep1).
    rewrite Hrec. cbn [mbind option_bind].
    destruct (Href h1 ol _ _ Hlen1 Hframe1 Hrep1 ltac:(reflexivity)
                (or_introl Hthere))
      as (h' & Hassign & Hlen' & Hsame' & Hrep').
    exists h'. split; [exact Hassign|]. split; [lia|]. split.
    - intros l Hl HlF. rewrite Hsame' by (intros ->; contradiction).
      apply Hframe1; [exact Hl|set_solver].
    - now rewrite <- (Hlocs h1 h' Hlen'). }
  (* merging into a new object *)
  assert (Hfresh : ∀ kind,
    ∃ h',
      (h1 ← rec (h ++ [mkObj kind []]) (length h) sl;
       assignMergeValue h1 object key (VRef (length h))) = Some h'
      ∧ (length h ≤ length h')%nat
      ∧ (∀ l, (l < length h)%nat → l ∉ F → h' !! l = h !! l)
      ∧ rep h' (VRef object)
            (TNode (okind o)
               (set_in key (TNode kind (deep_merge_props [] sps)) ops))
            (F ∪ new_locs h h')).
  { intros kind.
    assert (Hnew : rep (h ++ [mkObj kind []]) (VRef (length h))
                       (TNode kind []) {[length h]}).
    { apply (rep_node _ (length h) (mkObj kind []) [] {[length h]}).
      - rewrite lookup_app_r by lia. now rewrite Nat.sub_diag.
      - set_solver.
      - constructor. }
    destruct (rec_spec (h ++ [mkObj kind []]) (length h) sl kind []
                {[length h]} (okind sobj) sps)
      as (h1 & Hrec & Hlen1 & Hframe1 & Hrep1).
    { rewrite length_app. cbn. lia. }
    { intros l Hl. rewrite lookup_app_l by lia. now apply Hold. }
    { exact Hplain. }
    { exact Htree. }
    { exact Hnew. }
    { intros l Hl. apply elem_of_singleton in Hl. subst l.
      rewrite length_app. cbn. lia. }
    rewrite length_app in Hlen1. cbn [length] in Hlen1.
    rewrite Hrec. cbn [mbind option_bind].
    destruct (Href h1 (length h) (TNode kind (deep_merge_props [] sps))
                ({[length h]} ∪ new_locs (h ++ [mkObj kind []]) h1))
      as (h' & Hassign & Hlen' & Hsame' & Hrep').
    { lia. }
    { intros l Hl _. rewrite Hframe1.
      - now rewrite lookup_app_l by lia.
      - rewrite length_app. cbn. lia.
      - intros Hin. apply elem_of_singleton in Hin. lia. }
    { exact Hrep1. }
    { intros l Hl. apply elem_of_union. right. apply elem_of_new_locs.
      apply elem_of_union in Hl as [Hl|Hl].
      - apply elem_of_singleton in Hl. lia.
      - apply elem_of_new_locs in Hl. rewrite length_app in Hl.
        cbn [length] in Hl. lia. }
    { right. lia. }
    exists h'. split; [exact Hassign|]. split; [lia|]. split.
    - intros l Hl HlF. rewrite Hsame' by (intros ->; contradiction).
      rewrite Hframe1.
      + now rewrite lookup_app_l by lia.
      + rewrite length_app. cbn. lia.
      + intros Hin. apply elem_of_singleton in Hin. lia.
    - now rewrite <- (Hlocs h1 h' Hlen'). }
  unfold get_prop.
  destruct (assoc key (oprops o)) as [x|] eqn:Hx.
  - destruct Hat as (tx & Htx & Hrx). rewrite Htx.
    change (default VUndef (Some x)) with x.
    destruct (rep_shape h x tx F1 Hrx) as [Hp|(ol & -> & Hol)].
    + (* a primitive of the destination is replaced *)
      rewrite (rep_primitive_inv h x tx F1 Hrx Hp).
      assert (Hna : isArray h x = false)
        by (destruct x; try discriminate Hp; reflexivity).
      destruct (okind sobj) eqn:Hk; [| |congruence].
      * destruct x; try discriminate Hp; apply (Hfresh KPlain).
      * rewrite Hna. apply (Hfresh KArray).
    + destruct (rep_ref_inv h ol tx F1 Hrx)
        as (olo & opsx & -> & Holo & _ & _).
      destruct (okind sobj) eqn:Hk; [| |congruence].
      * cbn [bool_decide andb]. rewrite bool_decide_false by discriminate.
        cbn [andb]. now apply (Hinplace ol olo opsx).
      * unfold isArray. unfold loc in *. rewrite Holo.
        rewrite (bool_decide_true (KArray = KArray)) by reflexivity.
        cbn [andb].
        destruct (bool_decide (okind olo = KArray)) eqn:Harr; cbn [negb];
          cbv beta iota.
        -- now apply (Hinplace ol olo opsx).
        -- apply (Hfresh KArray).
  - rewrite Hat. change (default VUndef None) with VUndef.
    destruct (okind sobj) eqn:Hk; [| |congruence].
    + apply (Hfresh KPlain).
    + cbn [isArray]. apply (Hfresh KArray).
Qed.

Lemma merge_loop_rep (object source : loc) (src : jsobj) (ok : objkind)
    (ps : list (string * jsval)) (tps : list (string * tree)) :
  h0 !! source = Some src →
  Forall2 (λ (kv : string * jsval) (kt : string * tree),
             kv.1 = kt.1 ∧ assoc kv.1 (oprops src) = Some kv.2
             ∧ plain_data h0 n kv.2 = true
             ∧ tree_of n h0 kv.2 = Some kt.2) ps tps →
  ∀ h ops F,
    (length h0 ≤ length h)%nat →
    (∀ l, (l < length h0)%nat → h !! l = h0 !! l) →
    rep h (VRef object) (TNode ok ops) F →
    (∀ l, l ∈ F → (length h0 ≤ l < length h)%nat) →
    ∃ h',
      foldl (λ acc key, h ← acc; mergeProperty rec object source h key)
            (Some h) ps.*1 = Some h'
      ∧ (length h ≤ length h')%nat
      ∧ (∀ l, (l < length h)%nat → l ∉ F → h' !! l = h !! l)
      ∧ rep h' (VRef object) (TNode ok (deep_merge_props ops tps))
            (F ∪ new_locs h h').
Proof.
  intros Hsrc Hall.
  induction Hall as [|[k v] [k' t] ps tps (Hk & Hkey & Hplain & Htree) _ IH];
    intros h ops F Hlen Hold Hrep HF.
  - exists h. split; [reflexivity|]. split; [lia|]. split; [reflexivity|].
    eapply rep_weaken; [exact Hrep|set_solver].
  - cbn [fst snd] in Hk, Hkey, Hplain, Htree. subst k'.
    destruct (mergeProperty_rep h object source src ok ops F k v t
                Hlen Hold Hsrc Hkey Hplain Htree Hrep HF)
      as (h1 & Hstep & Hlen1 & Hframe1 & Hrep1).
    destruct (IH h1 (set_in k (deep_merge_value (assoc k ops) t) ops)
                 (F ∪ new_locs h h1))
      as (h' & Hloop & Hlen' & Hframe' & Hrep').
    { lia. }
    { intros l Hl. rewrite Hframe1; [now apply Hold|lia|].
      intros Hin. apply HF in Hin. lia. }
    { exact Hrep1. }
    { intros l Hl. apply elem_of_union in Hl as [Hl|Hl].
      - apply HF in Hl. lia.
      - apply elem_of_new_locs in Hl. lia. }
    exists h'. split.
    { cbn [fmap list_fmap fst foldl mbind option_bind]. rewrite Hstep.
      exact Hloop. }
    split; [lia|]. split.
    { intros l Hl HlF. rewrite Hframe'; [now apply Hframe1|lia|].
      intros Hin. apply elem_of_union in Hin as [Hin|Hin]; [contradiction|].
      apply elem_of_new_locs in Hin. lia. }
    eapply rep_weaken; [exact Hrep'|].
    intros l Hl. apply elem_of_union.
    apply elem_of_union in Hl as [Hl|Hl].
    + apply elem_of_union in Hl as [Hl|Hl]; [now left|].
      right. apply elem_of_new_locs. apply elem_of_new_locs in Hl. lia.
    + right. apply elem_of_new_locs. apply elem_of_new_locs in Hl. lia.
Qed.

End MergeTree.

Lemma Forall2_elem_of_l {A B} (R : A → B → Prop) (l : list A) (l' : list B) :
  Forall2 R l l' → Forall2 (λ a b, a ∈ l ∧ R a b) l l'.
Proof.
  intros H. induction H as [|a b l l' Hab _ IH]; constructor.
  - split; [apply list_elem_of_here|exact Hab].
  - eapply Forall2_impl; [exact IH|]. intros x y [Hin Hxy].
    split; [now apply list_elem_of_further|exact Hxy].
Qed.

(** Merging a plain source of the old heap into an object of the new
    part: the content of the object becomes the deep merge of its
    content and the source's, the old heap and the new objects outside
    the object's own are as they were. *)

Lemma baseMerge_rep (h0 : list jsobj) (fuel : nat) :
  ∀ n, (n ≤ fuel)%nat →
  ∀ h object source ok ops F sk sps,
    (length h0 ≤ length h)%nat →
    (∀ l, (l < length h0)%nat → h !! l = h0 !! l) →
    plain_data h0 n (VRef source) = true →
    tree_of n h0 (VRef source) = Some (TNode sk sps) →
    rep h (VRef object) (TNode ok ops) F →
    (∀ l, l ∈ F → (length h0 ≤ l < length h)%nat) →
    ∃ h',
      baseMerge fuel h object source = Some h'
      ∧ (length h ≤ length h')%nat
      ∧ (∀ l, (l < length h)%nat → l ∉ F → h' !! l = h !! l)
      ∧ rep h' (VRef object) (TNode ok (deep_merge_props ops sps))
            (F ∪ new_locs h h').
Proof.
  induction fuel as [|fuel IH];
    intros n Hn h object source ok ops F sk sps Hlen Hold Hplain Htree
           Hrep HF.
  - assert (n = 0)%nat as -> by lia. discriminate Hplain.
  - destruct (plain_data_ref h0 n source Hplain)
      as (n' & src & -> & Hsrc & Hkind & Hnd & Hall).
    cbn [tree_of] in Htree. rewrite Hsrc in Htree.
    cbn [mbind option_bind] in Htree.
    destruct (mapM _ (oprops src)) as [sps'|] eqn:Hm; [|discriminate Htree].
    injection Htree as <- <-.
    apply mapM_Some, Forall2_elem_of_l in Hm.
    destruct (rep_ref_inv h object _ F Hrep) as (o & _ & _ & _ & HoF & _).
    apply HF in HoF. apply lookup_lt_Some in Hsrc as Hslt.
    cbn [baseMerge]. rewrite (proj2 (Nat.eqb_neq object source)) by lia.
    assert (Hsource : h !! source = Some src).
    { rewrite Hold; [exact Hsrc|exact Hslt]. }
    unfold loc in *. rewrite Hsource. cbn [mbind option_bind].
    apply (merge_loop_rep (baseMerge fuel) h0 n' (IH n' ltac:(lia))
             object source src ok (oprops src) sps');
      try assumption.
    eapply Forall2_impl; [exact Hm|].
    intros [k v] [k' t] [Hin Hkt]. cbn [fst snd] in Hkt |- *.
    destruct (tree_of n' h0 v) as [t0|] eqn:Hv; [|discriminate Hkt].
    cbn in Hkt. injection Hkt as <- <-.
    split; [reflexivity|]. split; [now apply elem_of_assoc|].
    split; [now apply (Hall k v)|reflexivity].
Qed.

(** *** The deep merge on contents *)

Lemma tree_ind' (P : tree → Prop) :
  (∀ v, P (TLeaf v)) →
  (∀ kind props, Forall (λ kt : string * tree, P kt.2) props →
                 P (TNode kind props)) →
  ∀ t, P t.
Proof.
  intros Hleaf Hnode.
  refine (fix go (t : tree) : P t :=
            match t with
            | TLeaf v => Hleaf v
            | TNode kind props =>
                Hnode kind props
                  ((fix all (l : list (string * tree))
                      : Forall (λ kt : string * tree, P kt.2) l :=
                      match l with
                      | [] => List.Forall_nil _
                      | kt :: l' => List.Forall_cons _ kt l' (go kt.2) (all l')
                      end) props)
            end).
Qed.

Lemma set_in_absent {V} (k : string) (v : V) (ps : list (string * V)) :
  assoc k ps = None → set_in k v ps = ps ++ [(k, v)].
Proof.
  induction ps as [|[k1 v1] ps IH]; simpl; [reflexivity|].
  destruct (String.eqb k1 k); [discriminate|].
  intros H. now rewrite IH.
Qed.

Lemma assoc_None_not_elem {V} (k : string) (ps : list (string * V)) :
  k ∉ ps.*1 → assoc k ps = None.
Proof.
  induction ps as [|[k1 v1] ps IH]; simpl; [reflexivity|].
  intros Hnotin. apply not_elem_of_cons in Hnotin as [Hne Hnotin].
  destruct (String.eqb_spec k1 k); [congruence|]. now apply IH.
Qed.

(** The value of a key after the merge. *)

Lemma deep_merge_props_assoc (k : string) (srcProps : list (string * tree)) :
  NoDup srcProps.*1 →
  ∀ objProps,
    assoc k (deep_merge_props objProps srcProps)
    = match assoc k srcProps with
      | Some t => Some (deep_merge_value (assoc k objProps) t)
      | None => assoc k objProps
      end.
Proof.
  induction srcProps as [|[k1 t1] srcProps IH]; intros Hnd objProps;
    [reflexivity|].
  cbn [fmap list_fmap fst] in Hnd. apply NoDup_cons in Hnd as [Hnotin Hnd].
  change (deep_merge_props objProps ((k1, t1) :: srcProps))
    with (deep_merge_props
            (set_in k1 (deep_merge_value (assoc k1 objProps) t1) objProps)
            srcProps).
  rewrite (IH Hnd). cbn [assoc].
  destruct (String.eqb_spec k1 k) as [->|Hne].
  - rewrite (assoc_None_not_elem k srcProps Hnotin).
    apply assoc_set_in_eq.
  - now rewrite assoc_set_in_ne by congruence.
Qed.

(** Merging plain content into nothing copies it. *)

Lemma deep_merge_props_append (srcProps : list (string * tree)) :
  Forall (λ kt : string * tree, deep_merge_value None kt.2 = kt.2) srcProps →
  ∀ objProps,
    NoDup (objProps.*1 ++ srcProps.*1) →
    deep_merge_props objProps srcProps = objProps ++ srcProps.
Proof.
  induction 1 as [|[k t] srcProps Ht _ IH]; intros objProps Hnd.
  - now rewrite app_nil_r.
  - cbn [fst snd] in Ht.
    change (deep_merge_props objProps ((k, t) :: srcProps))
      with (deep_merge_props
              (set_in k (deep_merge_value (assoc k objProps) t) objProps)
              srcProps).
    assert (Hk : assoc k objProps = None).
    { apply assoc_None_not_elem. cbn [fmap list_fmap fst] in Hnd.
      apply NoDup_app in Hnd as (_ & Hdis & _). intros Hin.
      apply (Hdis k Hin). apply list_elem_of_here. }
    rewrite Hk, Ht, (set_in_absent _ _ _ Hk). rewrite IH.
    + now rewrite <- app_assoc.
    + rewrite fmap_app. cbn [fmap list_fmap fst]. cbn [fmap list_fmap fst] in Hnd.
      now rewrite <- app_assoc.
Qed.

Lemma deep_merge_value_copy (t : tree) :
  plain_tree t = true → deep_merge_value None t = t.
Proof.
  induction t as [v|kind props IH] using tree_ind'; intros Hp.
  - cbn. now destruct (is_undefined v).
  - cbn [plain_tree] in Hp. apply andb_true_iff in Hp as [Hp Hall].
    apply andb_true_iff in Hp as [Hkind Hnd].
    apply Bool.negb_true_iff, bool_decide_eq_false in Hkind.
    apply bool_decide_eq_true in Hnd.
    rewrite deep_merge_value_node by exact Hkind. cbv beta iota zeta.
    f_equal. apply (deep_merge_props_append props); [|exact Hnd].
    rewrite Forall_forall in IH. apply Forall_forall. intros kt Hin.
    apply (IH kt Hin). rewrite forallb_forall in Hall. apply Hall.
    now apply list_elem_of_In.
Qed.

Lemma plain_tree_props (kind : objkind) (props : list (string * tree)) :
  plain_tree (TNode kind props) = true →
  NoDup props.*1
  ∧ deep_merge_props [] props = props
  ∧ ∀ k t, assoc k props = Some t → plain_tree t = true.
Proof.
  intros Hp. cbn [plain_tree] in Hp. apply andb_true_iff in Hp as [Hp Hall].
  apply andb_true_iff in Hp as [Hkind Hnd].
  apply bool_decide_eq_true in Hnd. rewrite forallb_forall in Hall.
  split; [exact Hnd|]. split.
  - apply (deep_merge_props_append props); [|exact Hnd].
    apply Forall_forall. intros kt Hin. apply deep_merge_value_copy.
    apply Hall. now apply list_elem_of_In.
  - intros k t Hk. apply assoc_elem_of in Hk.
    apply (Hall (k, t)). now apply list_elem_of_In.
Qed.

Lemma merge_source_rep (h0 h : list jsobj) (object : loc) (v : jsval)
    (tv : tree) (ok : objkind) (ops : list (string * tree)) (F : gset loc) :
  (v = VUndef ∨ ∃ l, v = VRef l) →
  plain_data h0 (S (length h0)) v = true →
  tree_of (S (length h0)) h0 v = Some tv →
  (length h0 ≤ length h)%nat →
  (∀ l, (l < length h0)%nat → h !! l = h0 !! l) →
  rep h (VRef object) (TNode ok ops) F →
  (∀ l, l ∈ F → (length h0 ≤ l < length h)%nat) →
  ∃ h',
    merge_source (S (length h0)) h object v = Some h'
    ∧ (length h ≤ length h')%nat
    ∧ (∀ l, (l < length h)%nat → l ∉ F → h' !! l = h !! l)
    ∧ rep h' (VRef object) (TNode ok (deep_merge_props ops (props_of tv)))
          (F ∪ new_locs h h').
Proof.
  intros [->|[sl ->]] Hplain Htree Hlen Hold Hrep HF.
  - injection Htree as <-. exists h. split; [reflexivity|]. split; [lia|].
    split; [reflexivity|]. eapply rep_weaken; [exact Hrep|set_solver].
  - assert (Ht : ∃ sk sps, tv = TNode sk sps).
    { cbn [tree_of] in Htree. destruct (h0 !! sl); [|discriminate Htree].
      cbn [mbind option_bind] in Htree.
      destruct (mapM _ _); [|discriminate Htree].
      injection Htree as <-. eauto. }
    destruct Ht as (sk & sps & ->). cbn [props_of].
    unfold merge_source. cbn [truthy negb].
    now apply (baseMerge_rep h0 (S (length h0)) (S (length h0)) (le_n _)
                 h object sl ok ops F sk sps).
Qed.

(** [_.merge({}, a, b)] on plain payloads: the content of the new object
    is the deep merge of the content of [b] into the content of [a]. *)

Lemma merge_into_new_tree (h0 : list jsobj) (a b : jsval) (ta tb : tree) :
  (a = VUndef ∨ ∃ l, a = VRef l) →
  (b = VUndef ∨ ∃ l, b = VRef l) →
  plain_data h0 (S (length h0)) a = true →
  plain_data h0 (S (length h0)) b = true →
  tree_of (S (length h0)) h0 a = Some ta →
  tree_of (S (length h0)) h0 b = Some tb →
  ∃ h',
    merge_into_new (S (length h0)) h0 a b = Some (h', length h0)
    ∧ tree_of (S (length h')) h' (VRef (length h0))
      = Some (TNode KPlain
                (deep_merge_props (deep_merge_props [] (props_of ta))
                                  (props_of tb))).
Proof.
  intros Ha Hb Hpa Hpb Hta Htb. unfold merge_into_new, alloc.
  set (h1 := h0 ++ [mkObj KPlain []]).
  assert (Hrep1 : rep h1 (VRef (length h0)) (TNode KPlain []) {[length h0]}).
  { apply (rep_node _ (length h0) (mkObj KPlain []) [] {[length h0]}).
    - unfold h1. rewrite lookup_app_r by lia. now rewrite Nat.sub_diag.
    - set_solver.
    - constructor. }
  assert (Hlen1 : length h1 = S (length h0)).
  { unfold h1. rewrite length_app. cbn. lia. }
  destruct (merge_source_rep h0 h1 (length h0) a ta KPlain [] {[length h0]}
              Ha Hpa Hta)
    as (h2 & Hm2 & Hlen2 & Hframe2 & Hrep2); [lia| | exact Hrep1 | |].
  { intros l Hl. unfold h1. now rewrite lookup_app_l by lia. }
  { intros l Hl. apply elem_of_singleton in Hl. lia. }
  destruct (merge_source_rep h0 h2 (length h0) b tb KPlain
              (deep_merge_props [] (props_of ta))
              ({[length h0]} ∪ new_locs h1 h2) Hb Hpb Htb)
    as (h3 & Hm3 & Hlen3 & Hframe3 & Hrep3); [lia| | exact Hrep2 | |].
  { intros l Hl. rewrite Hframe2.
    - unfold h1. now rewrite lookup_app_l by lia.
    - lia.
    - intros Hin. apply elem_of_singleton in Hin. lia. }
  { intros l Hl. apply elem_of_union in Hl as [Hl|Hl].
    - apply elem_of_singleton in Hl. lia.
    - apply elem_of_new_locs in Hl. lia. }
  exists h3. rewrite Hm2. cbn [mbind option_bind]. rewrite Hm3.
  split; [reflexivity|].
  apply rep_tree_of in Hrep3.
  apply (tree_of_mono h3 _ _ _ _ Hrep3).
  transitivity (size (set_seq (C := gset nat) 0 (length h3))).
  - apply subseteq_size. intros l Hl. apply elem_of_set_seq.
    apply elem_of_union in Hl as [Hl|Hl].
    + apply elem_of_union in Hl as [Hl|Hl].
      * apply elem_of_singleton in Hl. lia.
      * apply elem_of_new_locs in Hl. lia.
    + apply elem_of_new_locs in Hl. lia.
  - rewrite size_set_seq. lia.
Qed.



(** The merged payload of the example, nested values included. *)

Lemma child_payload_example :
  to_json 10 (heap (snd Inheritance.child))
          (data_of (snd Inheritance.child) (fst Inheritance.child))
  = Some (Some (JObj [("a", JNum 1); ("own", JBool true);
                      ("limits", JObj [("rate", JNum 5); ("extra", JNum 0);
                                       ("burst", JArr [JNum 1; JNum 2])]);
                      ("region", JStr "eu")])).
Proof. vm_compute. reflexivity. Qed.


(** * Further properties *)

(** ** Auxiliary facts *)

Lemma string_app_assoc (a b c : string) : (a +:+ b) +:+ c = a +:+ b +:+ c.
Proof.
  induction a as [|x a IH]; [reflexivity|].
  change (String x ((a +:+ b) +:+ c) = String x (a +:+ b +:+ c)).
  now rewrite IH.
Qed.

Lemma append_nonempty (a b : string) : a ≠ "" → a +:+ b ≠ "".
Proof. destruct a; [contradiction|discriminate]. Qed.

(** What the constructor stores. *)

Lemma TraceContext_new_fields (ext : Externals) (config : ITraceContextConfig)
    (w : World) (c : TraceContext) (w' : World) :
  TraceContext_new ext config w = (Ok c, w') →
  c = mkTraceContext (next_ref w)
        (default (nanoid ext (nanoid_calls w)) (cfg_id config))
        (default true (cfg_autoTracing config))
        (nullish (cfg_serviceName config) (TC_serviceName (statics w)))
        (nullish (cfg_serviceColor config) (TC_serviceColor (statics w)))
        (cfg_callStackNamesChain config) (cfg_className config)
        (cfg_filePath config) (cfg_fnName config) (cfg_parent config)
        (cfg_spanHash config) (TC_logDriver (statics w))
        (nullish (TC_logLevel (statics w)) (Logger_level (statics w)))
  ∧ statics w' = statics w
  ∧ events w' = events w
  ∧ spans w' = spans w
  ∧ ctx_span w' = ctx_span w
  ∧ env_LOG_SILENT w' = env_LOG_SILENT w
  ∧ clock w' = clock w
  ∧ pending w' = pending w
  ∧ next_ref w' = S (next_ref w).
Proof.
  unfold TraceContext_new, mbind, M_bind, bind, get_world, nanoid_draw,
    fresh_ref, set_data, modify, mret, M_ret, ret, stuck.
  destruct (cfg_id config); simpl;
    (destruct (cfg_parent config) as [p|];
     [match goal with
      | |- context [truthy ?d] => destruct (truthy d)
      end;
      [match goal with
       | |- context [merge_into_new ?f ?h ?a ?b] =>
           destruct (merge_into_new f h a b) as [[h' l]|]; [|discriminate]
       end|]|]);
    intros H; inversion H; subst; repeat split.
Qed.

(** Without a parent that carries data the constructor returns and the
    heap is as before. *)

Lemma TraceContext_new_plain (ext : Externals) (config : ITraceContextConfig)
    (w : World) :
  match cfg_parent config with
  | Some p => truthy (data_of w p) = false
  | None => True
  end →
  ∃ c w',
    TraceContext_new ext config w = (Ok c, w')
    ∧ heap w' = heap w
    ∧ data_of w' c = cfg_data config.
Proof.
  unfold TraceContext_new, mbind, M_bind, bind, get_world, nanoid_draw,
    fresh_ref, set_data, modify, mret, M_ret, ret, stuck.
  destruct (cfg_id config); simpl;
    (destruct (cfg_parent config) as [p|]; intros Hp;
     [unfold data_of in *; simpl; rewrite Hp|]);
    (eexists _, _; split; [reflexivity|]; split; [reflexivity|]);
    unfold data_of; simpl; now rewrite lookup_insert_eq.
Qed.

(** The first call of [sharedInit] in a process. *)

Lemma sharedInit_first (ext : Externals)
    (config : ITraceContextSharedInitConfig) (w : World) :
  TC_shared (statics w) = None →
  let logDriver := default (ConsoleLogDriver (next_ref w)) (si_logDriver config) in
  ∃ shared w1,
    sharedInit ext config w = (Ok shared, w1)
    ∧ statics w1
      = mkStatics (si_serviceName config) (si_serviceColor config)
          (si_logLevel config) (default true (si_shouldLogStartEnd config))
          (si_traceDriver config) (default true (si_shouldRecordTracing config))
          (Some logDriver) (Some shared) (TC_user (statics w))
          (Some (default AS_ARG (si_injectMode config))) (si_logLevel config)
    ∧ _logger_driver shared = Some logDriver
    ∧ _logger_level shared
      = nullish (si_logLevel config) (Logger_level (statics w))
    ∧ _fnName shared = Some "main"
    ∧ _parent shared = None
    ∧ _callStackNamesChain shared = None
    ∧ events w1
      = events w
        ++ match si_traceDriver config with
           | Some t => [EvTraceDriverInit t]
           | None => []
           end
        ++ [EvLogDriverInit logDriver (si_serviceName config)]
    ∧ heap w1 = heap w ∧ spans w1 = spans w ∧ ctx_span w1 = ctx_span w
    ∧ env_LOG_SILENT w1 = env_LOG_SILENT w
    ∧ (ctx_ref shared < next_ref w1)%nat.
Proof.
  intros Hs. cbv zeta. unfold sharedInit.
  unfold mbind at 1, M_bind, bind at 1, get_world. rewrite Hs.
  destruct (si_logDriver config) as [d|];
    destruct (si_traceDriver config) as [t|];
    (eexists _, _; split; [reflexivity|]);
    cbn; repeat split; try reflexivity; try (rewrite <- ?app_assoc; reflexivity); lia.
Qed.

(** ** The logger, level by level *)

Lemma indexOf_severity (l : TLogLevel) : indexOf (Some l) = Z.of_nat (severity l).
Proof. destruct l; reflexivity. Qed.

Lemma _log_run (ext : Externals) (self : Logger) (d : ILogDriver)
    (level : TLogLevel) (message : string) (data : list jsval) (w : World) :
  _driver self = Some d →
  _log ext self level message data w =
    if bool_decide (env_LOG_SILENT w = Some "true") then (Ok tt, w) else
    match _level self with
    | Some current =>
        if decide (severity level ≤ severity current)%nat then
          match data with
          | [] => (Ok tt, add_event (EvLog d level (scoped self message) None
                                          (_traceCtx self)) w)
          | _ =>
              let w1 := snd (cleanItems data w) in
              (Ok tt, add_event (EvLog d level (scoped self message)
                                   (plain_of ext (heap w1) data)
                                   (_traceCtx self)) w1)
          end
        else (Ok tt, w)
    | None => (Ok tt, w)
    end.
Proof.
  intros Hd. unfold _log. rewrite Hd.
  unfold mbind at 1, M_bind, bind at 1, get_world.
  destruct (bool_decide (env_LOG_SILENT w = Some "true")); [reflexivity|].
  rewrite indexOf_severity.
  assert (Hsc : match _scope self with
                | Some scope => if truthy_str (Some scope)
                                then scope +:+ " : " +:+ message else message
                | None => message
                end = scoped self message).
  { unfold scoped. destruct (_scope self) as [s|]; [|reflexivity].
    simpl. destruct (String.eqb s ""); reflexivity. }
  rewrite Hsc.
  destruct (_level self) as [current|].
  - rewrite (indexOf_severity current).
    destruct (decide (severity level ≤ severity current)%nat) as [Hle|Hgt].
    + replace ((Z.of_nat (severity level) <? 0)%Z) with false by (symmetry; apply Z.ltb_ge; lia).
      replace ((Z.of_nat (severity level) >? Z.of_nat (severity current))%Z) with false
        by (symmetry; rewrite Z.gtb_ltb; apply Z.ltb_ge; lia).
      cbn [orb]. destruct data as [|item data'].
      * reflexivity.
      * destruct (cleanItems_ok (item :: data') w) as (vs & w1 & Hvs).
        rewrite bool_decide_true by (simpl; lia).
        unfold mbind, M_bind, bind. rewrite Hvs. reflexivity.
    + replace ((Z.of_nat (severity level) >? Z.of_nat (severity current))%Z) with true
        by (symmetry; rewrite Z.gtb_ltb; apply Z.ltb_lt; lia).
      rewrite orb_true_r. reflexivity.
  - change (indexOf None) with (-1)%Z.
    replace ((Z.of_nat (severity level) >? -1)%Z) with true
        by (symmetry; rewrite Z.gtb_ltb; apply Z.ltb_lt; lia).
    rewrite orb_true_r. reflexivity.
Qed.

Lemma cleanItem_frame (item : jsval) (w : World) :
  ∃ v h, cleanItem item w = (Ok v, set_heap h w).
Proof.
  unfold cleanItem, mbind, M_bind, bind, get_world, mret, M_ret, ret, modify.
  assert (Hw : w = set_heap (heap w) w) by (destruct w; reflexivity).
  destruct (isPlainObject (heap w) item && truthy (read_prop (heap w) item "$ctx"));
    [|exists item, (heap w); now rewrite <- Hw].
  destruct item; try (eexists _, (heap w); now rewrite <- Hw).
  destruct (heap w !! l); [|eexists _, (heap w); now rewrite <- Hw].
  eexists _, _. reflexivity.
Qed.

Lemma cleanItems_frame (data : list jsval) (w : World) :
  ∃ vs h, cleanItems data w = (Ok vs, set_heap h w).
Proof.
  revert w. induction data as [|item data IH]; intros w; simpl.
  - exists [], (heap w). destruct w; reflexivity.
  - destruct (cleanItem_frame item w) as (v & h1 & Hv).
    destruct (IH (set_heap h1 w)) as (vs & h2 & Hvs).
    exists (v :: vs), h2.
    rewrite (bind_ok _ _ _ _ _ Hv), (bind_ok _ _ _ _ _ Hvs). reflexivity.
Qed.

(** X1: a log call on a logger with a driver, in a process that is not
    silenced.  When the level is at least as severe as the logger's own
    level the driver receives exactly one call, with the level, the
    message behind the scope of the logger and the context of the
    logger, and nothing else changes but the heap; a less severe level
    leaves the world as it is, and so does every level on a logger whose
    level is undefined. *)
Theorem log_call_reaches_the_driver_by_severity
    (ext : Externals) (self : Logger) (d : ILogDriver) (level : TLogLevel)
    (message : string) (data : list jsval) (w : World) :
  _driver self = Some d →
  env_LOG_SILENT w ≠ Some "true" →
  (∀ current,
     _level self = Some current → (severity level ≤ severity current)%nat →
     ∃ plainData h,
       _log ext self level message data w
       = (Ok tt,
          add_event (EvLog d level (scoped self message) plainData
                           (_traceCtx self)) (set_heap h w))
       ∧ (data = [] → plainData = None ∧ h = heap w))
  ∧ (∀ current,
       _level self = Some current → (severity current < severity level)%nat →
       _log ext self level message data w = (Ok tt, w))
  ∧ (_level self = None → _log ext self level message data w = (Ok tt, w)).
Proof.
  intros Hd Hsilent.
  pose proof (_log_run ext self d level message data w Hd) as Hrun.
  rewrite bool_decide_false in Hrun by exact Hsilent.
  split; [|split].
  - intros current Hc Hle. rewrite Hc in Hrun.
    rewrite decide_True in Hrun by exact Hle.
    destruct data as [|item data'].
    + exists None, (heap w). split; [|split; reflexivity].
      rewrite Hrun. destruct w; reflexivity.
    + destruct (cleanItems_frame (item :: data') w) as (vs & h & Hvs).
      rewrite Hvs in Hrun. cbn [snd] in Hrun.
      eexists _, h. split; [exact Hrun|discriminate].
  - intros current Hc Hlt. rewrite Hc in Hrun.
    rewrite decide_False in Hrun by lia. exact Hrun.
  - intros Hc. rewrite Hc in Hrun. exact Hrun.
Qed.

Lemma log_call_reaches_the_driver_by_severity_witness :
  events (snd (_log Reference.ext (logger Scenario.shared0) LWarn "w" []
                 Scenario.world0))
  = events Scenario.world0
    ++ [EvLog Scenario.logDriver LWarn "w" None (Some Scenario.shared0)].
Proof.
  destruct (log_call_reaches_the_driver_by_severity Reference.ext
              (logger Scenario.shared0) Scenario.logDriver LWarn "w" []
              Scenario.world0 eq_refl) as (Hpass & _ & _).
  { vm_compute. discriminate. }
  destruct (Hpass LVerbose eq_refl) as (plainData & h & Hrun & Hnil).
  { vm_compute. lia. }
  destruct (Hnil eq_refl) as [-> ->].
  rewrite Hrun. vm_compute. reflexivity.
Defined.

(** X2: with [LOG_SILENT=true] no log call of a logger with a driver
    reaches the driver or changes anything, at any level; [critical]
    still notifies the trace driver of the error. *)
Theorem silent_mode_drops_logs_but_not_notifications
    (ext : Externals) (self : Logger) (d : ILogDriver) (message : string)
    (data : list jsval) (w : World) :
  _driver self = Some d →
  env_LOG_SILENT w = Some "true" →
  (∀ level, _log ext self level message data w = (Ok tt, w))
  ∧ (∀ ctx, _traceCtx self = Some ctx →
       critical ext self message data w
       = (Ok tt,
          match TC_traceDriver (statics w) with
          | Some t => add_event (EvErrorNotify t (Error message)) w
          | None => w
          end)).
Proof.
  intros Hd Hsilent.
  assert (Hlog : ∀ level, _log ext self level message data w = (Ok tt, w)).
  { intros level. rewrite (_log_run ext self d level message data w Hd).
    now rewrite bool_decide_true by exact Hsilent. }
  split; [exact Hlog|].
  intros ctx Hctx. unfold critical. rewrite Hctx.
  rewrite (bind_ok _ _ _ _ _ (Hlog LError)). apply errorNotify_spec.
Qed.

Lemma silent_mode_drops_logs_but_not_notifications_witness :
  _log Reference.ext (logger Scenario.shared0) LError "boom" [] Quiet.world_silent
  = (Ok tt, Quiet.world_silent)
  ∧ events (snd (critical Reference.ext (logger Scenario.shared0) "boom" []
                   Quiet.world_silent))
    = events Quiet.world_silent ++ [EvErrorNotify Scenario.traceDriver (Error "boom")].
Proof.
  destruct (silent_mode_drops_logs_but_not_notifications Reference.ext
              (logger Scenario.shared0) Scenario.logDriver "boom" []
              Quiet.world_silent eq_refl eq_refl) as (Hlog & Hcrit).
  split; [apply Hlog|].
  rewrite (Hcrit Scenario.shared0 eq_refl). reflexivity.
Defined.

Lemma fork_run (lg : Logger) (scope : string) (w : World) :
  fork lg scope w =
    (Ok (mkLogger (_traceCtx lg) (_driver lg) (Logger_level (statics w))
           (Some (String.concat "."
                    (filter (λ s, s ≠ "")
                       (option_list (_scope lg) ++ [scope]))))), w).
Proof. reflexivity. Qed.

Lemma filter_nonempty_snoc (xs : list string) (a : string) :
  a ≠ "" →
  filter (λ s, s ≠ "") (xs ++ [a]) = filter (λ s, s ≠ "") xs ++ [a].
Proof.
  intros Ha. rewrite filter_app, filter_cons_True by exact Ha. reflexivity.
Qed.

Lemma scope_shape (scope : option string) :
  filter (λ s, s ≠ "") (option_list scope)
  = if truthy_str scope then [default "" scope] else [].
Proof.
  destruct scope as [s|]; [|reflexivity].
  change (option_list (Some s)) with [s].
  change (default "" (Some s)) with s. cbn [truthy_str].
  destruct (String.eqb_spec s "") as [->|Hs]; cbn [negb].
  - now rewrite filter_cons_False by (intros H; now apply H).
  - now rewrite filter_cons_True by exact Hs.
Qed.

(** X3: forking twice is forking once with the scopes joined by a dot.
    A fork keeps the driver and the context of the logger it comes from,
    takes the process-wide [Logger.level] and not the level of that
    logger, and hands every message to the driver behind its scope. *)
Theorem fork_joins_scopes_and_takes_the_global_level
    (lg : Logger) (a b : string) (w : World) :
  a ≠ "" → b ≠ "" →
  ∃ l1 l2,
    fork lg a w = (Ok l1, w)
    ∧ fork l1 b w = (Ok l2, w)
    ∧ fork lg (a +:+ "." +:+ b) w = (Ok l2, w)
    ∧ _driver l2 = _driver lg
    ∧ _traceCtx l2 = _traceCtx lg
    ∧ _level l2 = Logger_level (statics w)
    ∧ (∀ message,
         scoped l2 message
         = (if truthy_str (_scope lg) then default "" (_scope lg) +:+ "." else "")
           +:+ a +:+ "." +:+ b +:+ " : " +:+ message).
Proof.
  intros Ha Hb.
  pose proof (append_nonempty a ("." +:+ b) Ha) as Hab.
  eexists _, _. rewrite !fork_run. split; [reflexivity|].
  split; [reflexivity|].
  cbn [_traceCtx _driver _scope _level].
  rewrite !filter_nonempty_snoc by assumption.
  rewrite scope_shape.
  assert (Hjoin :
    filter (λ s, s ≠ "")
      (option_list
         (Some (String.concat "."
                  ((if truthy_str (_scope lg) then [default "" (_scope lg)]
                    else []) ++ [a]))))
    = [(if truthy_str (_scope lg) then default "" (_scope lg) +:+ "." else "")
       +:+ a]).
  { match goal with
    | |- context [option_list (Some ?x)] =>
        change (option_list (Some x)) with [x]
    end.
    destruct (truthy_str (_scope lg)) eqn:Ht.
    - cbn [app String.concat]. rewrite string_app_assoc.
      rewrite filter_cons_True; [reflexivity|].
      destruct (_scope lg) as [s|]; [|discriminate]. simpl in Ht.
      change (default "" (Some s)) with s.
      destruct s; [discriminate|discriminate].
    - cbn [app String.concat]. now rewrite filter_cons_True by exact Ha. }
  rewrite Hjoin.
  assert (Hsame :
    String.concat "."
      ([(if truthy_str (_scope lg) then default "" (_scope lg) +:+ "." else "")
        +:+ a] ++ [b])
    = String.concat "."
        ((if truthy_str (_scope lg) then [default "" (_scope lg)] else [])
         ++ [a +:+ "." +:+ b])).
  { destruct (truthy_str (_scope lg)); cbn [app String.concat]; [|reflexivity].
    now rewrite !string_app_assoc. }
  rewrite Hsame. split; [reflexivity|]. repeat split.
  intros message. unfold scoped. cbn [_scope].
  destruct (truthy_str (_scope lg)) eqn:Ht; cbn [app String.concat].
  - rewrite !string_app_assoc.
    destruct (_scope lg) as [s|]; [|discriminate]. simpl in Ht.
    change (default "" (Some s)) with s.
    destruct s; [discriminate|reflexivity].
  - change ("" +:+ a +:+ "." +:+ b +:+ " : " +:+ message)
      with (a +:+ "." +:+ b +:+ " : " +:+ message).
    rewrite !string_app_assoc.
    destruct a; [contradiction|reflexivity].
Qed.

Lemma fork_joins_scopes_and_takes_the_global_level_witness :
  ∃ l2,
    (fork (logger Scenario.shared0) "db" ≫= λ l1, fork l1 "query")
      Scenario.world0 = (Ok l2, Scenario.world0)
    ∧ scoped l2 "m" = "db.query : m".
Proof.
  destruct (fork_joins_scopes_and_takes_the_global_level
              (logger Scenario.shared0) "db" "query" Scenario.world0)
    as (l1 & l2 & H1 & H2 & _ & _ & _ & _ & Hs); [discriminate|discriminate|].
  exists l2. split.
  - rewrite (bind_ok _ _ _ _ _ H1). exact H2.
  - rewrite Hs. reflexivity.
Defined.

(** ** The first initialisation *)

(** X4: the first [sharedInit] of a process returns for every
    configuration.  Afterwards [sharedExists()] is true, the returned
    context is the shared one and has an empty [callStackName], the log
    driver is the configured one or a new console driver, the inject
    mode and the two flags have their defaults where the configuration
    is silent, and the trace driver (if any) was initialised before the
    log driver, which received the service name. *)
Theorem sharedInit_sets_up_the_process
    (ext : Externals) (config : ITraceContextSharedInitConfig) (w : World) :
  TC_shared (statics w) = None →
  ∃ shared w1,
    sharedInit ext config w = (Ok shared, w1)
    ∧ sharedExists w = false
    ∧ sharedExists w1 = true
    ∧ isShared w1 shared = true
    ∧ callStackName w1 shared = ""
    ∧ TC_logDriver (statics w1)
      = Some (default (ConsoleLogDriver (next_ref w)) (si_logDriver config))
    ∧ TC_injectMode (statics w1) = Some (default AS_ARG (si_injectMode config))
    ∧ TC_shouldLogStartEnd (statics w1)
      = default true (si_shouldLogStartEnd config)
    ∧ TC_shouldRecordTracing (statics w1)
      = default true (si_shouldRecordTracing config)
    ∧ events w1
      = events w
        ++ match si_traceDriver config with
           | Some t => [EvTraceDriverInit t]
           | None => []
           end
        ++ [EvLogDriverInit
              (default (ConsoleLogDriver (next_ref w)) (si_logDriver config))
              (si_serviceName config)].
Proof.
  intros Hs.
  destruct (sharedInit_first ext config w Hs)
    as (shared & w1 & Hrun & Hst & _ & _ & _ & _ & _ & Hev & _).
  exists shared, w1. split; [exact Hrun|].
  assert (Hshared : isShared w1 shared = true).
  { unfold isShared. rewrite Hst. simpl. apply Nat.eqb_refl. }
  unfold sharedExists. rewrite Hs, Hst. cbn [TC_shared TC_logDriver
    TC_injectMode TC_shouldLogStartEnd TC_shouldRecordTracing].
  repeat split; try assumption.
  unfold callStackName, _evalCallStackNamesChain. now rewrite Hshared.
Qed.

Lemma sharedInit_sets_up_the_process_witness :
  sharedExists (snd (sharedInit Reference.ext Scenario.init_config
                       initial_world)) = true.
Proof.
  destruct (sharedInit_sets_up_the_process Reference.ext Scenario.init_config
              initial_world eq_refl) as (shared & w1 & Hrun & _ & Hex & _).
  rewrite Hrun. exact Hex.
Defined.

(** X5: the static getter [TraceContext.logger].  Before the first
    [sharedInit] it is a logger without driver, and every log call on it
    throws the no-driver error; after [sharedInit], with any
    configuration, it is the logger of the shared context and its log
    calls return. *)
Theorem global_logger_needs_sharedInit
    (ext : Externals) (config : ITraceContextSharedInitConfig) (w : World)
    (level : TLogLevel) (message : string) (data : list jsval) :
  TC_shared (statics w) = None →
  _log ext (TraceContext_logger w) level message data w
  = (Throw (Error "no log driver provided"), w)
  ∧ ∃ shared w1,
      sharedInit ext config w = (Ok shared, w1)
      ∧ TraceContext_logger w1 = logger shared
      ∧ ∀ w2, fst (_log ext (TraceContext_logger w1) level message data w2)
              = Ok tt.
Proof.
  intros Hs. split.
  - unfold TraceContext_logger. now rewrite Hs.
  - destruct (sharedInit_first ext config w Hs)
      as (shared & w1 & Hrun & Hst & Hd & _).
    exists shared, w1. split; [exact Hrun|].
    assert (Hlogger : TraceContext_logger w1 = logger shared).
    { unfold TraceContext_logger. now rewrite Hst. }
    split; [exact Hlogger|]. intros w2. rewrite Hlogger.
    destruct (_log_ok ext (logger shared) _ level message data w2 Hd)
      as (w3 & Hlog).
    now rewrite Hlog.
Qed.

Lemma global_logger_needs_sharedInit_witness :
  fst (_log Reference.ext (TraceContext_logger initial_world) LError "m" []
         initial_world) = Throw (Error "no log driver provided")
  ∧ fst (_log Reference.ext (TraceContext_logger Scenario.world0) LError "m" []
           Scenario.world0) = Ok tt.
Proof.
  destruct (global_logger_needs_sharedInit Reference.ext Scenario.init_config
              initial_world LError "m" [] eq_refl)
    as (Hbefore & shared & w1 & Hrun & _ & Hafter).
  split; [now rewrite Hbefore|].
  assert (Hw : Scenario.world0 = w1).
  { unfold Scenario.world0. now rewrite Hrun. }
  rewrite Hw. apply Hafter.
Defined.

(** X6: a process initialised without [logLevel].  The shared context,
    built before [Logger.level] is overwritten, keeps the level
    [Logger.level] had; every context built afterwards gets a logger
    whose level is undefined, and no log call of such a logger ever
    reaches the driver, at any level. *)
Theorem sharedInit_without_level_silences_later_contexts
    (ext : Externals) (config : ITraceContextSharedInitConfig) (w : World) :
  TC_shared (statics w) = None →
  si_logLevel config = None →
  ∃ shared w1,
    sharedInit ext config w = (Ok shared, w1)
    ∧ _level (logger shared) = Logger_level (statics w)
    ∧ ∀ cfg w2 c w3,
        statics w2 = statics w1 →
        TraceContext_new ext cfg w2 = (Ok c, w3) →
        _level (logger c) = None
        ∧ ∀ level message data w4,
            _log ext (logger c) level message data w4 = (Ok tt, w4).
Proof.
  intros Hs Hlevel.
  destruct (sharedInit_first ext config w Hs)
    as (shared & w1 & Hrun & Hst & _ & Hlv & _).
  exists shared, w1. split; [exact Hrun|].
  rewrite Hlevel in Hlv, Hst. split; [exact Hlv|].
  intros cfg w2 c w3 Hst2 Hnew.
  destruct (TraceContext_new_fields ext cfg w2 c w3 Hnew) as (Hc & _).
  rewrite Hst2, Hst in Hc. cbn in Hc.
  assert (Hl : _level (logger c) = None) by (rewrite Hc; reflexivity).
  split; [exact Hl|]. intros level message data w4.
  rewrite (_log_run ext (logger c)
             (default (ConsoleLogDriver (next_ref w)) (si_logDriver config))
             level message data w4)
    by (rewrite Hc; reflexivity).
  rewrite Hl. now destruct (bool_decide (env_LOG_SILENT w4 = Some "true")).
Qed.

Lemma sharedInit_without_level_silences_later_contexts_witness :
  _log Reference.ext (logger (fst Quiet.later_ctx)) LError "lost" []
       (snd Quiet.later_ctx)
  = (Ok tt, snd Quiet.later_ctx).
Proof.
  destruct (sharedInit_without_level_silences_later_contexts Reference.ext
              Quiet.init_config initial_world eq_refl eq_refl)
    as (shared & w1 & Hrun & _ & Hlater).
  assert (Hw : Quiet.world_unleveled = w1).
  { unfold Quiet.world_unleveled. now rewrite Hrun. }
  destruct (Hlater empty_config w1 (fst Quiet.later_ctx) (snd Quiet.later_ctx)
              eq_refl) as (_ & Hlog).
  { rewrite <- Hw. vm_compute. reflexivity. }
  apply Hlog.
Defined.

(** ** Rendering of call-stack chains *)

Lemma string_concat_cons2 (sep x y : string) (l : list string) :
  String.concat sep (x :: y :: l) = x +:+ sep +:+ String.concat sep (y :: l).
Proof. reflexivity. Qed.

Lemma string_concat_app (sep : string) (a b : list string) :
  a ≠ [] → b ≠ [] →
  String.concat sep (a ++ b)
  = String.concat sep a +:+ sep +:+ String.concat sep b.
Proof.
  intros Ha Hb. induction a as [|x a IH]; [contradiction|].
  destruct a as [|y a].
  - destruct b as [|z b]; [contradiction|]. reflexivity.
  - change ((x :: y :: a) ++ b) with (x :: y :: (a ++ b)).
    rewrite !string_concat_cons2.
    change (y :: a ++ b) with ((y :: a) ++ b).
    rewrite IH by discriminate. now rewrite !string_app_assoc.
Qed.

(** A step inside a group, and a step that opens a group. *)

Lemma names_step_same (g : option string) (st : NamesState)
    (item : ICallStackNamesChainItem) :
  item_className item = currClassName st →
  item_serviceName item = currServiceName st →
  callStackName_step g st item
  = mkNames (currServiceName st) (currClassName st) (names st)
            (currNames st ++ [item_fnName item]).
Proof.
  intros Hc Hs. unfold callStackName_step.
  rewrite !bool_decide_false by (intros H; now apply H). reflexivity.
Qed.

Lemma names_step_open (g : option string) (st : NamesState)
    (item : ICallStackNamesChainItem) :
  item_className item ≠ currClassName st →
  item_serviceName item = g →
  currServiceName st = g →
  callStackName_step g st item
  = mkNames g (item_className item)
            (match currNames st with
             | [] => names st
             | _ => names st ++ [String.concat "." (currNames st)]
             end)
            [frame_label item].
Proof.
  intros Hc Hs Hg. unfold callStackName_step.
  rewrite (bool_decide_true _ Hc). cbn [orb].
  rewrite (bool_decide_false (item_serviceName item ≠ g))
    by (intros H; now apply H).
  rewrite andb_false_r, Hs. unfold frame_label.
  destruct (truthy_str (item_className item)); reflexivity.
Qed.

(** The first step of a chain, from the initial state of the getter. *)

Lemma names_step_first (g : option string) (item : ICallStackNamesChainItem) :
  item_serviceName item = g →
  callStackName_step g (mkNames g None [] []) item
  = mkNames g (item_className item) [] [frame_label item].
Proof.
  intros Hs. destruct (item_className item) as [c|] eqn:Hc.
  - rewrite names_step_open; cbn; congruence.
  - rewrite names_step_same; cbn; try congruence.
    unfold frame_label. now rewrite Hc.
Qed.

Lemma render_chain_groups (g : option string)
    (chain : list ICallStackNamesChainItem) :
  render_chain g chain
  = String.concat "->"
      (groups (foldl (callStackName_step g) (mkNames g None [] []) chain)).
Proof. reflexivity. Qed.

(** After a frame of the service [g] the loop is in that frame's class,
    with an open group. *)

Lemma names_step_state (g : option string) (st : NamesState)
    (item : ICallStackNamesChainItem) :
  item_serviceName item = g → currServiceName st = g →
  let st' := callStackName_step g st item in
  currServiceName st' = g
  ∧ currClassName st' = item_className item
  ∧ currNames st' ≠ [].
Proof.
  intros Hs Hg. cbv zeta.
  destruct (decide (item_className item = currClassName st)) as [Hc|Hc].
  - rewrite names_step_same by congruence. cbn. repeat split; try congruence.
    now destruct (currNames st).
  - rewrite names_step_open by assumption. cbn. repeat split. discriminate.
Qed.

Lemma names_foldl_state (g : option string)
    (chain : list ICallStackNamesChainItem) (st : NamesState)
    (last : ICallStackNamesChainItem) :
  Forall (λ i, item_serviceName i = g) (chain ++ [last]) →
  currServiceName st = g →
  let st' := foldl (callStackName_step g) st (chain ++ [last]) in
  currServiceName st' = g
  ∧ currClassName st' = item_className last
  ∧ currNames st' ≠ [].
Proof.
  revert st. induction chain as [|x chain IH]; intros st Hall Hg.
  - apply Forall_cons in Hall as [Hx _]. now apply names_step_state.
  - apply Forall_cons in Hall as [Hx Hall]. cbn [app foldl].
    apply IH; [exact Hall|]. now apply names_step_state.
Qed.

(** Two runs of the loop that differ in the closed groups only. *)

Lemma names_foldl_prefix (g : option string)
    (chain : list ICallStackNamesChainItem) (st st' : NamesState)
    (closed : list string) :
  currServiceName st' = currServiceName st →
  currClassName st' = currClassName st →
  currNames st' = currNames st →
  names st' = closed ++ names st →
  let r := foldl (callStackName_step g) st chain in
  let r' := foldl (callStackName_step g) st' chain in
  currNames r' = currNames r ∧ names r' = closed ++ names r.
Proof.
  revert st st'. induction chain as [|x chain IH];
    intros st st' Hs Hc Hn Hnames; cbv zeta.
  - now split.
  - cbn [foldl]. apply IH; unfold callStackName_step;
      rewrite Hs, Hc, Hn, Hnames;
      destruct (bool_decide (item_className x ≠ currClassName st)
                || bool_decide (item_serviceName x ≠ currServiceName st));
      cbn; try reflexivity.
    destruct (currNames st); [reflexivity|]. now rewrite app_assoc.
Qed.

(** X7: in a chain whose frames all carry the process's own service name
    (so that no frame is rendered with a service prefix), where a frame
    is followed by a frame of another class the rendering is the
    rendering of the chain up to the first frame, an arrow, and the
    rendering of the chain from the second frame on. *)
Theorem callStackName_joins_groups_with_arrows
    (g : option string) (chain1 chain2 : list ICallStackNamesChainItem)
    (a b : ICallStackNamesChainItem) :
  Forall (λ i, item_serviceName i = g) (chain1 ++ [a] ++ [b] ++ chain2) →
  item_className a ≠ item_className b →
  render_chain g ((chain1 ++ [a]) ++ b :: chain2)
  = render_chain g (chain1 ++ [a]) +:+ "->" +:+ render_chain g (b :: chain2).
Proof.
  intros Hall Hclass. rewrite !render_chain_groups.
  rewrite foldl_app. cbn [foldl].
  set (init := mkNames g None [] []).
  set (st1 := foldl (callStackName_step g) init (chain1 ++ [a])).
  assert (Hall1 : Forall (λ i, item_serviceName i = g) (chain1 ++ [a])).
  { rewrite app_assoc in Hall. now apply Forall_app in Hall as [H _]. }
  assert (Hb : item_serviceName b = g).
  { rewrite app_assoc in Hall. apply Forall_app in Hall as [_ H].
    now apply Forall_cons in H as [H _]. }
  destruct (names_foldl_state g chain1 init a Hall1 eq_refl) as (Hs1 & Hc1 & Hn1).
  fold st1 in Hs1, Hc1, Hn1.
  assert (Hopen : callStackName_step g st1 b
                  = mkNames g (item_className b) (groups st1) [frame_label b]).
  { rewrite names_step_open; [reflexivity| |exact Hb|exact Hs1]. congruence. }
  rewrite Hopen. unfold init. rewrite (names_step_first g b Hb).
  destruct (names_foldl_prefix g chain2
              (mkNames g (item_className b) [] [frame_label b])
              (mkNames g (item_className b) (groups st1) [frame_label b])
              (groups st1) eq_refl eq_refl eq_refl)
    as (Hn & Hnames).
  { cbn. now rewrite app_nil_r. }
  set (r := foldl (callStackName_step g)
              (mkNames g (item_className b) [] [frame_label b]) chain2) in *.
  set (r' := foldl (callStackName_step g)
               (mkNames g (item_className b) (groups st1) [frame_label b])
               chain2) in *.
  assert (Hgroups : groups r' = groups st1 ++ groups r).
  { unfold groups at 1 3. rewrite Hn, Hnames.
    destruct (currNames r); [reflexivity|]. now rewrite app_assoc. }
  rewrite Hgroups. apply string_concat_app.
  - unfold groups. destruct (currNames st1); [contradiction|].
    now destruct (names st1).
  - destruct (names_foldl_state g (removelast (b :: chain2)) (mkNames g None [] [])
                (List.last (b :: chain2) b)) as (_ & _ & Hr).
    + rewrite <- app_removelast_last by discriminate.
      rewrite app_assoc in Hall. now apply Forall_app in Hall as [_ H].
    + reflexivity.
    + rewrite <- app_removelast_last in Hr by discriminate.
      cbn [foldl] in Hr. rewrite (names_step_first g b Hb) in Hr. fold r in Hr.
      unfold groups. destruct (currNames r); [contradiction|].
      now destruct (names r).
Qed.

Lemma names_foldl_same (g : option string) (rest : list ICallStackNamesChainItem)
    (st : NamesState) :
  Forall (λ i, item_serviceName i = currServiceName st
               ∧ item_className i = currClassName st) rest →
  foldl (callStackName_step g) st rest
  = mkNames (currServiceName st) (currClassName st) (names st)
            (currNames st ++ (item_fnName <$> rest)).
Proof.
  revert st. induction rest as [|x rest IH]; intros st Hall.
  - cbn. rewrite app_nil_r. now destruct st.
  - apply Forall_cons in Hall as [[Hs Hc] Hall]. cbn [foldl].
    rewrite names_step_same by assumption. rewrite IH by exact Hall.
    cbn. now rewrite <- app_assoc.
Qed.

(** X8: the rendering of a chain whose frames all belong to one class of
    the process's own service: the class name and a colon once, in front
    of the function names joined by dots. *)
Theorem callStackName_of_one_class
    (g : option string) (a : ICallStackNamesChainItem)
    (rest : list ICallStackNamesChainItem) :
  Forall (λ i, item_serviceName i = g
               ∧ item_className i = item_className a) (a :: rest) →
  render_chain g (a :: rest)
  = String.concat "." (frame_label a :: (item_fnName <$> rest)).
Proof.
  intros Hall. apply Forall_cons in Hall as [[Ha _] Hall].
  rewrite render_chain_groups. cbn [foldl].
  rewrite (names_step_first g a Ha), names_foldl_same by exact Hall.
  reflexivity.
Qed.

Lemma callStackName_of_one_class_witness :
  render_chain (Some "svc")
    [mkItem "get" (Some "Repo") (Some "svc");
     mkItem "query" (Some "Repo") (Some "svc");
     mkItem "run" (Some "Repo") (Some "svc")]
  = "Repo:get.query.run".
Proof.
  rewrite callStackName_of_one_class; [reflexivity|].
  repeat constructor.
Defined.

Lemma callStackName_joins_groups_with_arrows_witness :
  render_chain (Some "svc")
    ([mkItem "handle" (Some "Api") (Some "svc")]
     ++ [mkItem "get" (Some "Repo") (Some "svc");
         mkItem "query" (Some "Repo") (Some "svc")])
  = "Api:handle->Repo:get.query".
Proof.
  apply (callStackName_joins_groups_with_arrows (Some "svc") []
           [mkItem "query" (Some "Repo") (Some "svc")]
           (mkItem "handle" (Some "Api") (Some "svc"))
           (mkItem "get" (Some "Repo") (Some "svc")));
    [repeat constructor | discriminate].
Defined.

(** ** Tokens across processes *)

(** X9: a context encoded in one process and decoded in another, when
    the third-party codec functions are inverse to each other on the
    token's text.  The rebuilt context is a new object without parent
    that keeps the id, the class name, the function name and the
    evaluated chain of the encoded one; its service name is the
    encoder's process-wide service name (the decoder's when the encoder
    has none), its span hash is the hash of the encoder's span, and its
    data is the plain copy [JSON.parse] builds. *)
Theorem fromHash_rebuilds_the_encoded_context
    (ext : Externals) (w : World) (P : TraceContext) (data : option json) :
  to_json (S (length (heap w))) (heap w) (data_of w P) = Some data →
  codec_ok ext (json_of_hashData (hashData_of ext w P data)) →
  ∃ token,
    toHash ext P w = (Ok token, w)
    ∧ ∀ w2, ∃ R w2',
        fromHash ext token w2 = (Ok R, w2')
        ∧ ctx_ref R = next_ref w2
        ∧ _id R = _id P
        ∧ _className R = _className P
        ∧ _fnName R = _fnName P
        ∧ _callStackNamesChain R = Some (_evalCallStackNamesChain w P)
        ∧ _serviceName R
          = nullish (TC_serviceName (statics w)) (TC_serviceName (statics w2))
        ∧ _spanHash R = span_toHash ext <$> span_of w P
        ∧ _parent R = None
        ∧ _autoTracing R = true
        ∧ (heap w2', data_of w2' R)
          = match data with
            | Some d => alloc_json d (heap w2)
            | None => (heap w2, VUndef)
            end.
Proof.
  intros Hdata Hcodec.
  set (hd := hashData_of ext w P data) in *.
  exists (hashEncode ext hd). split.
  { unfold toHash, mbind, M_bind, bind, get_world. now rewrite Hdata. }
  intros w2.
  pose proof (hashDecode_hashEncode ext hd Hcodec) as Hdec.
  pose proof (config_of_json_of_hashData hd w2) as Hcfg.
  change (hd_data hd) with data in Hcfg.
  destruct (match data with
            | Some d => alloc_json d (heap w2)
            | None => (heap w2, VUndef)
            end) as [h dv] eqn:Halloc.
  match type of Hcfg with
  | _ = (Ok ?c, _) => set (config := c) in *
  end.
  destruct (TraceContext_new_plain ext config (set_heap h w2) I)
    as (R & w2' & Hnew & Hheap & Hd).
  exists R, w2'.
  assert (Hfrom : fromHash ext (hashEncode ext hd) w2 = (Ok R, w2')).
  { unfold fromHash. rewrite Hdec.
    rewrite (bind_ok _ _ _ _ _ Hcfg). exact Hnew. }
  split; [exact Hfrom|].
  destruct (TraceContext_new_fields ext config _ R w2' Hnew) as (HR & _).
  rewrite Hheap, Hd. rewrite HR. cbn. repeat split.
Qed.

Lemma fromHash_rebuilds_the_encoded_context_witness :
  ∃ token R w',
    toHash Reference.ext Scenario.traced_ctx Scenario.world_traced
    = (Ok token, Scenario.world_traced)
    ∧ fromHash Reference.ext token initial_world = (Ok R, w')
    ∧ _id R = _id Scenario.traced_ctx
    ∧ _spanHash R = Some "span-0".
Proof.
  destruct (fromHash_rebuilds_the_encoded_context Reference.ext
              Scenario.world_traced Scenario.traced_ctx None)
    as (token & Hto & Hfrom).
  - vm_compute. reflexivity.
  - split; vm_compute; reflexivity.
  - destruct (Hfrom initial_world)
      as (R & w' & Hrun & _ & Hid & _ & _ & _ & _ & Hspan & _).
    exists token, R, w'. split; [exact Hto|]. split; [exact Hrun|].
    split; [exact Hid|]. rewrite Hspan. vm_compute. reflexivity.
Defined.

(** ** Spans *)

Lemma traceStart_run (self : TraceContext) (w : World) :
  traceStart self w =
    match TC_traceDriver (statics w) with
    | Some driver =>
        if _autoTracing self && truthy_str (_fnName self) then
          (Ok tt,
           set_ctx_span (<[ctx_ref self := length (spans w)]> (ctx_span w))
             (add_event (EvSpanStart driver (length (spans w)))
                (set_spans
                   (spans w ++
                    [mkSpan (default "" (_fnName self))
                            (p ← _parent self; span_of w p)
                            (p ← _parent self; _spanHash p) None 0]) w)))
        else (Ok tt, w)
    | None => (Ok tt, w)
    end.
Proof.
  unfold traceStart, mbind at 1, M_bind, bind at 1, get_world.
  destruct (TC_traceDriver (statics w)); [|reflexivity].
  destruct (_autoTracing self && truthy_str (_fnName self)); reflexivity.
Qed.

(** X10: with a trace driver, auto tracing and a function name,
    [traceStart] opens one span named after the function, below the span
    and the span hash of the parent context, and tells the driver once;
    [traceFinish] then ends exactly that span with the given status.  A
    second [traceStart] on the same context replaces the span, and the
    first one is never finished. *)
Theorem traceStart_opens_the_span_traceFinish_closes
    (self : TraceContext) (status : option SpanStatus) (w : World)
    (d : ITraceDriver) (f : string) :
  TC_traceDriver (statics w) = Some d →
  _autoTracing self = true →
  _fnName self = Some f →
  f ≠ "" →
  let n := length (spans w) in
  let opened :=
    mkSpan f (p ← _parent self; span_of w p) (p ← _parent self; _spanHash p)
           None 0 in
  ∃ w1 w2,
    traceStart self w = (Ok tt, w1)
    ∧ traceFinish self status w1 = (Ok tt, w2)
    ∧ span_of w1 self = Some n
    ∧ spans w1 = spans w ++ [opened]
    ∧ spans w2 = spans w ++ [span_finish (default OK status) opened]
    ∧ events w2 = events w ++ [EvSpanStart d n]
    ∧ ∃ w3 w4,
        traceStart self w1 = (Ok tt, w3)
        ∧ traceFinish self status w3 = (Ok tt, w4)
        ∧ span_of w3 self = Some (S n)
        ∧ spans w4 !! n = Some opened.
Proof.
  intros Hd Ha Hf Hne. cbv zeta.
  assert (Hcond : _autoTracing self && truthy_str (_fnName self) = true).
  { rewrite Ha, Hf. simpl. destruct (String.eqb_spec f ""); [contradiction|reflexivity]. }
  eexists _, _. rewrite traceStart_run, Hd, Hcond, Hf.
  split; [reflexivity|].
  rewrite traceFinish_spec.
  assert (Hspan : ∀ (sp : list Span) (ev : World → World) (cs : gmap nat nat) w0,
            span_of (set_ctx_span (<[ctx_ref self := length (spans w)]> cs) w0)
                    self = Some (length (spans w))).
  { intros. unfold span_of. cbn. apply lookup_insert_eq. }
  rewrite (Hspan [] id). split; [reflexivity|]. split; [reflexivity|].
  split; [reflexivity|]. cbn [spans set_spans set_ctx_span add_event events].
  split.
  { rewrite alter_app_r_alt by lia. now rewrite Nat.sub_diag. }
  split; [reflexivity|].
  eexists _, _. rewrite traceStart_run. cbn [statics set_ctx_span add_event
    set_spans spans]. rewrite Hd, Hcond, Hf.
  split; [reflexivity|]. rewrite traceFinish_spec.
  assert (Hspan' : ∀ (cs : gmap nat nat) w0 m,
            span_of (set_ctx_span (<[ctx_ref self := m]> cs) w0) self = Some m).
  { intros. unfold span_of. cbn. apply lookup_insert_eq. }
  rewrite Hspan'. split; [reflexivity|]. split.
  { f_equal. rewrite length_app. simpl. lia. }
  cbn [spans set_spans set_ctx_span add_event].
  rewrite list_lookup_alter_ne by (rewrite length_app; simpl; lia).
  rewrite lookup_app_l by (rewrite length_app; simpl; lia).
  rewrite lookup_app_r by lia. now rewrite Nat.sub_diag.
Qed.

Lemma traceStart_opens_the_span_traceFinish_closes_witness :
  spans (snd (traceFinish Scenario.traced_ctx (Some INTERNAL_ERROR)
                Scenario.world_traced))
  = [mkSpan "f" None None (Some INTERNAL_ERROR) 1].
Proof.
  destruct (traceStart_opens_the_span_traceFinish_closes Scenario.traced_ctx
              (Some INTERNAL_ERROR)
              (snd (TraceContext_new Reference.ext Scenario.traced_config
                      Scenario.world0))
              Scenario.traceDriver "f")
    as (w1 & w2 & Hstart & Hfinish & _ & _ & Hspans & _);
    [reflexivity | reflexivity | reflexivity | discriminate |].
  unfold Scenario.world_traced. rewrite Hstart. cbn [snd].
  rewrite Hfinish. cbn [snd]. rewrite Hspans. reflexivity.
Defined.

(** ** The search for the parent *)

Lemma find_parent_unfold (h : list jsobj) (arg : jsval) (rest : list jsval)
    (pc ph : jsval) :
  find_parent h (arg :: rest) pc ph =
    let '(pc', ph') :=
      if isPlainObject h arg
      then (read_prop h arg "$ctx", read_prop h arg "$traceHash")
      else match arg with
           | VCtx _ => (arg, ph)
           | VStr s =>
               if String.prefix TRACE_HASH_PREFIX s then (pc, arg) else (pc, ph)
           | _ => (pc, ph)
           end in
    if truthy pc' || truthy ph' then (pc', ph') else find_parent h rest pc' ph'.
Proof. reflexivity. Qed.

(** An argument that carries no parent leaves the search where it was. *)

Lemma find_parent_skip (h : list jsobj) (arg : jsval) (rest : list jsval)
    (pc ph : jsval) :
  carries_parent h arg = false →
  truthy pc = false → truthy ph = false →
  ∃ pc' ph',
    truthy pc' = false ∧ truthy ph' = false
    ∧ find_parent h (arg :: rest) pc ph = find_parent h rest pc' ph'.
Proof.
  intros Hc Hpc Hph. rewrite find_parent_unfold. unfold carries_parent in Hc.
  destruct (isPlainObject h arg).
  - apply orb_false_iff in Hc as [H1 H2]. rewrite H1, H2. eauto.
  - destruct arg; try discriminate Hc; rewrite ?Hc, Hpc, Hph; eauto.
Qed.

Lemma find_parent_none (h : list jsobj) (args : list jsval) (pc ph : jsval) :
  Forall (λ arg, carries_parent h arg = false) args →
  truthy pc = false → truthy ph = false →
  truthy (find_parent h args pc ph).1 = false
  ∧ truthy (find_parent h args pc ph).2 = false.
Proof.
  revert pc ph. induction args as [|arg args IH]; intros pc ph Hall Hpc Hph.
  - now split.
  - apply Forall_cons in Hall as [Harg Hall].
    destruct (find_parent_skip h arg args pc ph Harg Hpc Hph)
      as (pc' & ph' & Hpc' & Hph' & ->).
    now apply IH.
Qed.

(** X12: the scan of the arguments for a parent stops at the first
    argument that carries one and ignores the rest.  A context argument
    becomes the parent and no hash is kept; a hash token is kept when no
    context came before it; a plain object gives its [$ctx] and
    [$traceHash].  When no argument carries a parent none is found. *)
Theorem find_parent_takes_the_first_carrier
    (h : list jsobj) (before after : list jsval) (arg : jsval) :
  Forall (λ a, carries_parent h a = false) before →
  (Forall (λ a, carries_parent h a = false) after →
   carries_parent h arg = false →
   truthy (find_parent h (before ++ arg :: after) VUndef VUndef).1 = false
   ∧ truthy (find_parent h (before ++ arg :: after) VUndef VUndef).2 = false)
  ∧ (carries_parent h arg = true →
     let found := find_parent h (before ++ arg :: after) VUndef VUndef in
     if isPlainObject h arg
     then found = (read_prop h arg "$ctx", read_prop h arg "$traceHash")
     else match arg with
          | VCtx _ => found.1 = arg ∧ truthy found.2 = false
          | _ => found.2 = arg ∧ truthy found.1 = false
          end).
Proof.
  intros Hbefore. split.
  - intros Hafter Harg. apply find_parent_none; [|reflexivity|reflexivity].
    apply Forall_app. split; [exact Hbefore|]. now constructor.
  - intros Harg. cbv zeta.
    assert (Hskip : ∃ pc ph,
      truthy pc = false ∧ truthy ph = false
      ∧ find_parent h (before ++ arg :: after) VUndef VUndef
        = find_parent h (arg :: after) pc ph).
    { clear Harg.
      assert (Hgen : ∀ pc ph, truthy pc = false → truthy ph = false →
        ∃ pc' ph', truthy pc' = false ∧ truthy ph' = false
          ∧ find_parent h (before ++ arg :: after) pc ph
            = find_parent h (arg :: after) pc' ph').
      { induction before as [|b before IH]; intros pc ph Hpc Hph.
        - exists pc, ph. now repeat split.
        - apply Forall_cons in Hbefore as [Hb Hbefore].
          destruct (find_parent_skip h b (before ++ arg :: after) pc ph
                      Hb Hpc Hph) as (pc' & ph' & Hpc' & Hph' & Heq).
          cbn [app]. rewrite Heq. now apply IH. }
      now apply Hgen. }
    destruct Hskip as (pc & ph & Hpc & Hph & ->).
    rewrite find_parent_unfold. unfold carries_parent in Harg.
    destruct (isPlainObject h arg).
    + now rewrite Harg.
    + destruct arg; try discriminate Harg.
      * rewrite Harg.
        assert (Ht : truthy (VStr s) = true).
        { destruct s; [discriminate Harg|reflexivity]. }
        rewrite Ht, orb_true_r. now split.
      * cbn. now split.
Qed.

Lemma find_parent_takes_the_first_carrier_witness :
  (find_parent [] [VNum 1; VCtx Scenario.shared0; VStr "$TRACE_HASH_x"]
               VUndef VUndef).1
  = VCtx Scenario.shared0.
Proof.
  destruct (find_parent_takes_the_first_carrier [] [VNum 1]
              [VStr "$TRACE_HASH_x"] (VCtx Scenario.shared0))
    as (_ & Hfound).
  - repeat constructor.
  - exact (proj1 (Hfound eq_refl)).
Defined.

(** ** The instrumentation wrapper, step by step *)

Lemma bind_get_world {B} (k : World → M B) (w : World) :
  (get_world ≫= k) w = k w w.
Proof. reflexivity. Qed.

Lemma bind_ret {A B} (a : A) (k : A → M B) (w : World) :
  (mret a ≫= k) w = k a w.
Proof. reflexivity. Qed.

Lemma lets_through_severity (self : Logger) (w : World) (level : TLogLevel) :
  lets_through self w level
  = negb (bool_decide (env_LOG_SILENT w = Some "true"))
    && match _level self with
       | Some current =>
           bool_decide (severity level ≤ severity current)%nat
       | None => false
       end.
Proof.
  unfold lets_through. destruct (_level self) as [current|]; [|reflexivity].
  f_equal. destruct (Nat.leb_spec (severity level) (severity current)).
  - now rewrite bool_decide_true.
  - now rewrite bool_decide_false by lia.
Qed.

(** A log call without data, and one whose only item is [undefined]. *)

Lemma _log_nodata (ext : Externals) (self : Logger) (d : ILogDriver)
    (level : TLogLevel) (message : string) (w : World) :
  _driver self = Some d →
  _log ext self level message [] w
  = (Ok tt,
     if lets_through self w level
     then add_event (EvLog d level (scoped self message) None (_traceCtx self)) w
     else w).
Proof.
  intros Hd. rewrite (_log_run ext self d level message [] w Hd).
  rewrite lets_through_severity.
  destruct (bool_decide (env_LOG_SILENT w = Some "true")); [reflexivity|].
  destruct (_level self) as [current|]; [|reflexivity]. cbn [negb andb].
  destruct (decide (severity level ≤ severity current)%nat).
  - now rewrite bool_decide_true.
  - now rewrite bool_decide_false.
Qed.

Lemma _log_undefined (ext : Externals) (self : Logger) (d : ILogDriver)
    (level : TLogLevel) (message : string) (w : World) :
  _driver self = Some d →
  _log ext self level message [VUndef] w
  = (Ok tt,
     if lets_through self w level
     then add_event (EvLog d level (scoped self message) None (_traceCtx self)) w
     else w).
Proof.
  intros Hd. rewrite (_log_run ext self d level message [VUndef] w Hd).
  rewrite lets_through_severity.
  destruct (bool_decide (env_LOG_SILENT w = Some "true")); [reflexivity|].
  destruct (_level self) as [current|]; [|reflexivity]. cbn [negb andb].
  destruct (decide (severity level ≤ severity current)%nat).
  - now rewrite bool_decide_true.
  - now rewrite bool_decide_false.
Qed.

(** [finish] on a context whose logger has a driver. *)

Lemma finish_run (ext : Externals) (call : TracedCall) (d : ILogDriver)
    (result : jsval) (err : option JsError) (w : World) :
  _logger_driver (tc_ctx call) = Some d →
  finish ext call result err w = (Ok result, after_finish call d err w).
Proof.
  intros Hd. unfold finish, after_finish. rewrite bind_get_world.
  unfold verbose.
  destruct (tc_shouldLogStartEnd call); cbn [andb].
  - rewrite (bind_ok _ _ _ _ _
               (_log_nodata ext (logger (tc_ctx call)) d LVerbose _ w Hd)).
    set (wE := if lets_through (logger (tc_ctx call)) w LVerbose then _ else w).
    destruct (tc_shouldRecordTracing call).
    + rewrite (bind_ok _ _ _ _ _ (traceFinish_spec _ _ wE)). reflexivity.
    + reflexivity.
  - destruct (tc_shouldRecordTracing call).
    + unfold mbind at 1, M_bind, bind at 1. cbn.
      rewrite (bind_ok _ _ _ _ _ (traceFinish_spec _ _ w)). reflexivity.
    + reflexivity.
Qed.

Lemma traceStart_returns (self : TraceContext) (w : World) :
  traceStart self w = (Ok tt, snd (traceStart self w)).
Proof.
  rewrite traceStart_run. destruct (TC_traceDriver (statics w)); [|reflexivity].
  now destruct (_autoTracing self && truthy_str (_fnName self)).
Qed.

Lemma traceStart_frame (self : TraceContext) (w : World) :
  let w' := snd (traceStart self w) in
  statics w' = statics w ∧ heap w' = heap w
  ∧ env_LOG_SILENT w' = env_LOG_SILENT w ∧ clock w' = clock w.
Proof.
  cbv zeta. rewrite traceStart_run.
  destruct (TC_traceDriver (statics w)); [|now repeat split].
  now destruct (_autoTracing self && truthy_str (_fnName self)).
Qed.

(** The run of the wrapper up to the "start" log: the context is built
    below the parent found and its span is started. *)

Lemma traceFn_prefix (ext : Externals) (fnName : option string)
    (cfg : ITraceFnConfig) (fnToCall : JsFunction) (args : list jsval)
    (w : World) (parent : option TraceContext) (ph : jsval) :
  tf_traceHashArgPath cfg = None →
  tf_logArgs cfg = LogArgsOff →
  nullish (tf_injectMode cfg) (TC_injectMode (statics w))
  ≠ Some IN_FIRST_ARG_OBJECT →
  match cfg_parent (tf_config cfg) with
  | Some p => (VCtx p, VUndef)
  | None => find_parent (heap w) args VUndef VUndef
  end = (from_option VCtx VUndef parent, ph) →
  (parent = None → truthy ph = false) →
  (∀ p, parent = Some p → truthy (data_of w p) = false) →
  let base := tf_config cfg in
  let info := default fnToCall (tf_originalFn cfg) in
  let argNames := default (fn_argNames info) (tf_fnArgNames cfg) in
  let sle :=
    default (TC_shouldLogStartEnd (statics w)) (tf_shouldLogStartEnd cfg) in
  let rec :=
    default (TC_shouldRecordTracing (statics w))
            (tf_shouldRecordTracing cfg) in
  ∃ ctx w0,
    TraceContext_new ext
      (mkConfig (cfg_id base) (cfg_autoTracing base)
         (cfg_callStackNamesChain base) (cfg_className base) (cfg_data base)
         (cfg_filePath base)
         (Some (default (fn_name info) (nullish (cfg_fnName base) fnName)))
         parent (cfg_serviceColor base) (cfg_serviceName base)
         (cfg_spanHash base)) w = (Ok ctx, w0)
    ∧ heap w0 = heap w
    ∧ let wS := if rec then snd (traceStart ctx w0) else w0 in
      let call := mkTracedCall ctx (clock wS) sle rec in
      traceFn ext fnName cfg fnToCall args w
      = ((if sle then verbose ext (logger ctx) "start" [VUndef] else mret tt);;
         result ← fn_call fnToCall (new_args argNames args ctx);
         match result with
         | VPromise p =>
             p' ← fresh_ref;
             modify (λ w, set_pending (pending w ++ [(p, p', call)]) w);;
             mret (VPromise p')
         | _ =>
             try_catch (finish ext call VUndef None;; mret tt)
                       (λ err, log_fail ext call err);;
             mret result
         end) wS.
Proof.
  intros Hpath Hlog Hmode Hfound Hph Hdata. cbv zeta.
  set (config := mkConfig _ _ _ _ _ _ _ parent _ _ _).
  destruct (TraceContext_new_plain ext config w) as (ctx & w0 & Hnew & Hheap & _).
  { cbn. destruct parent as [p|]; [now apply Hdata|exact I]. }
  exists ctx, w0. split; [exact Hnew|]. split; [exact Hheap|].
  unfold traceFn. rewrite bind_get_world, Hpath, Hlog, Hfound.
  assert (Hres :
    (if truthy (from_option VCtx VUndef parent)
     then match from_option VCtx VUndef parent with
          | VCtx p => mret (Some p)
          | _ => stuck
          end
     else if truthy ph
          then match ph with
               | VStr hash => fromHash ext hash ≫= λ p, mret (Some p)
               | _ => throw (TypeError "hash.replace is not a function")
               end
          else mret None) w = (Ok parent, w)).
  { destruct parent as [p|]; [reflexivity|]. cbn. now rewrite Hph. }
  rewrite (bind_ok _ _ _ _ _ Hres).
  fold config. rewrite (bind_ok _ _ _ _ _ Hnew).
  set (rec := default (TC_shouldRecordTracing (statics w))
                      (tf_shouldRecordTracing cfg)).
  set (sle := default (TC_shouldLogStartEnd (statics w))
                      (tf_shouldLogStartEnd cfg)).
  set (wS := if rec then snd (traceStart ctx w0) else w0).
  assert (HS : (if rec then traceStart ctx else mret tt) w0 = (Ok tt, wS)).
  { unfold wS. destruct rec; [apply traceStart_returns|reflexivity]. }
  rewrite (bind_ok _ _ _ _ _ HS), bind_get_world.
  cbn [start_args]. rewrite bind_ret.
  rewrite bool_decide_false by exact Hmode.
  unfold mbind at 2 3, M_bind, bind at 2 3.
  unfold mbind at 4, bind at 4. cbn [mret M_ret ret].
  reflexivity.
Qed.

(** With a log driver the wrapper reaches the call, and the outcome of
    the call decides the rest. *)

Lemma traceFn_run (ext : Externals) (fnName : option string)
    (cfg : ITraceFnConfig) (fnToCall : JsFunction) (args : list jsval)
    (w : World) (parent : option TraceContext) (ph : jsval) (d : ILogDriver) :
  tf_traceHashArgPath cfg = None →
  tf_logArgs cfg = LogArgsOff →
  nullish (tf_injectMode cfg) (TC_injectMode (statics w))
  ≠ Some IN_FIRST_ARG_OBJECT →
  match cfg_parent (tf_config cfg) with
  | Some p => (VCtx p, VUndef)
  | None => find_parent (heap w) args VUndef VUndef
  end = (from_option VCtx VUndef parent, ph) →
  (parent = None → truthy ph = false) →
  (∀ p, parent = Some p → truthy (data_of w p) = false) →
  TC_logDriver (statics w) = Some d →
  let base := tf_config cfg in
  let info := default fnToCall (tf_originalFn cfg) in
  let argNames := default (fn_argNames info) (tf_fnArgNames cfg) in
  let sle :=
    default (TC_shouldLogStartEnd (statics w)) (tf_shouldLogStartEnd cfg) in
  let rec :=
    default (TC_shouldRecordTracing (statics w))
            (tf_shouldRecordTracing cfg) in
  ∃ ctx w0,
    TraceContext_new ext
      (mkConfig (cfg_id base) (cfg_autoTracing base)
         (cfg_callStackNamesChain base) (cfg_className base) (cfg_data base)
         (cfg_filePath base)
         (Some (default (fn_name info) (nullish (cfg_fnName base) fnName)))
         parent (cfg_serviceColor base) (cfg_serviceName base)
         (cfg_spanHash base)) w = (Ok ctx, w0)
    ∧ heap w0 = heap w
    ∧ let wS := if rec then snd (traceStart ctx w0) else w0 in
      let w1 :=
        if sle && lets_through (logger ctx) wS LVerbose
        then add_event (EvLog d LVerbose "start" None (Some ctx)) wS
        else wS in
      let call := mkTracedCall ctx (clock wS) sle rec in
      ∀ r w2,
        fn_call fnToCall (new_args argNames args ctx) w1 = (r, w2) →
        traceFn ext fnName cfg fnToCall args w
        = match r with
          | Ok (VPromise p) =>
              (Ok (VPromise (next_ref w2)),
               set_pending (pending w2 ++ [(p, next_ref w2, call)])
                 (set_next_ref (S (next_ref w2)) w2))
          | Ok v => (Ok v, after_finish call d None w2)
          | Throw e => (Throw e, w2)
          | Stuck => (Stuck, w2)
          end.
Proof.
  intros Hpath Hlog Hmode Hfound Hph Hdata Hd. cbv zeta.
  destruct (traceFn_prefix ext fnName cfg fnToCall args w parent ph
              Hpath Hlog Hmode Hfound Hph Hdata)
    as (ctx & w0 & Hnew & Hheap & Hrun).
  exists ctx, w0. split; [exact Hnew|]. split; [exact Hheap|].
  cbv zeta in Hrun. rewrite Hrun. clear Hrun.
  destruct (TraceContext_new_fields ext _ w ctx w0 Hnew) as (Hctx & _).
  assert (Hdrv : _driver (logger ctx) = Some d).
  { rewrite Hctx. exact Hd. }
  set (rec := default (TC_shouldRecordTracing (statics w))
                      (tf_shouldRecordTracing cfg)).
  set (sle := default (TC_shouldLogStartEnd (statics w))
                      (tf_shouldLogStartEnd cfg)).
  set (wS := if rec then snd (traceStart ctx w0) else w0).
  set (w1 := if sle && lets_through (logger ctx) wS LVerbose
             then add_event (EvLog d LVerbose "start" None (Some ctx)) wS
             else wS).
  set (call := mkTracedCall ctx (clock wS) sle rec).
  intros r w2 Hcall.
  assert (Hstart :
    (if sle then verbose ext (logger ctx) "start" [VUndef] else mret tt) wS
    = (Ok tt, w1)).
  { unfold w1. destruct sle; [|reflexivity]. unfold verbose.
    rewrite (_log_undefined ext (logger ctx) d LVerbose "start" wS Hdrv).
    reflexivity. }
  rewrite (bind_ok _ _ _ _ _ Hstart).
  destruct r as [v|e|].
  - rewrite (bind_ok _ _ _ _ _ Hcall).
    assert (Hfin : (try_catch (finish ext call VUndef None;; mret tt)
                      (λ err, log_fail ext call err)) w2
                   = (Ok tt, after_finish call d None w2)).
    { unfold try_catch.
      rewrite (bind_ok _ _ _ _ _
                 (finish_run ext call d VUndef None w2 Hdrv)).
      reflexivity. }
    destruct v; try (rewrite (bind_ok _ _ _ _ _ Hfin); reflexivity).
    reflexivity.
  - now rewrite (bind_throw _ _ _ _ _ Hcall).
  - now rewrite (bind_stuck _ _ _ _ Hcall).
Qed.

(** ** Traced calls *)

(** X13: a traced call of a synchronous function, in a process with a
    log driver, with a parent that carries no data (or no parent),
    without [logArgs] and with the context injected as an argument.  The
    wrapper builds a new context below the parent it found, named after
    the function, starts its span and logs "start"; it calls the
    function once, with the arguments of [new_args]; and it passes the
    outcome through.  A returned value is returned unchanged after the
    "end" line and the finish of the span with status [OK]; a thrown
    error reaches the caller unchanged and nothing is logged or finished
    after it; a returned promise is replaced by the promise of the
    completion handlers. *)
Theorem traced_call_passes_the_outcome_through
    (ext : Externals) (fnName : option string) (cfg : ITraceFnConfig)
    (fnToCall : JsFunction) (args : list jsval) (w : World)
    (parent : option TraceContext) (ph : jsval) (d : ILogDriver) :
  tf_traceHashArgPath cfg = None →
  tf_logArgs cfg = LogArgsOff →
  nullish (tf_injectMode cfg) (TC_injectMode (statics w))
  ≠ Some IN_FIRST_ARG_OBJECT →
  match cfg_parent (tf_config cfg) with
  | Some p => (VCtx p, VUndef)
  | None => find_parent (heap w) args VUndef VUndef
  end = (from_option VCtx VUndef parent, ph) →
  (parent = None → truthy ph = false) →
  (∀ p, parent = Some p → truthy (data_of w p) = false) →
  TC_logDriver (statics w) = Some d →
  let info := default fnToCall (tf_originalFn cfg) in
  let name :=
    default (fn_name info) (nullish (cfg_fnName (tf_config cfg)) fnName) in
  let argNames := default (fn_argNames info) (tf_fnArgNames cfg) in
  let sle :=
    default (TC_shouldLogStartEnd (statics w)) (tf_shouldLogStartEnd cfg) in
  let rec :=
    default (TC_shouldRecordTracing (statics w))
            (tf_shouldRecordTracing cfg) in
  ∃ ctx w1,
    ctx_ref ctx = next_ref w
    ∧ _parent ctx = parent
    ∧ _fnName ctx = Some name
    ∧ _className ctx = cfg_className (tf_config cfg)
    ∧ heap w1 = heap w
    ∧ statics w1 = statics w
    ∧ events w1
      = events w
        ++ (if rec && _autoTracing ctx && negb (String.eqb name "")
            then match TC_traceDriver (statics w) with
                 | Some t => [EvSpanStart t (length (spans w))]
                 | None => []
                 end
            else [])
        ++ (if sle then log_events (logger ctx) w LVerbose "start" else [])
    ∧ ∀ r w2,
        fn_call fnToCall (new_args argNames args ctx) w1 = (r, w2) →
        traceFn ext fnName cfg fnToCall args w
        = match r with
          | Ok (VPromise p) =>
              (Ok (VPromise (next_ref w2)),
               set_pending
                 (pending w2
                  ++ [(p, next_ref w2, mkTracedCall ctx (clock w) sle rec)])
                 (set_next_ref (S (next_ref w2)) w2))
          | Ok v =>
              (Ok v, after_finish (mkTracedCall ctx (clock w) sle rec) d None w2)
          | Throw e => (Throw e, w2)
          | Stuck => (Stuck, w2)
          end.
Proof.
  intros Hpath Hlog Hmode Hfound Hph Hdata Hd. cbv zeta.
  destruct (traceFn_run ext fnName cfg fnToCall args w parent ph d
              Hpath Hlog Hmode Hfound Hph Hdata Hd)
    as (ctx & w0 & Hnew & Hheap & Hrun).
  cbv zeta in Hrun.
  destruct (TraceContext_new_fields ext _ w ctx w0 Hnew)
    as (Hctx & Hst & Hev & Hsp & _ & Henv & Hclock & _).
  set (rec := default (TC_shouldRecordTracing (statics w))
                      (tf_shouldRecordTracing cfg)) in *.
  set (sle := default (TC_shouldLogStartEnd (statics w))
                      (tf_shouldLogStartEnd cfg)) in *.
  set (wS := if rec then snd (traceStart ctx w0) else w0) in *.
  assert (HwS : statics wS = statics w ∧ heap wS = heap w
                ∧ env_LOG_SILENT wS = env_LOG_SILENT w ∧ clock wS = clock w).
  { unfold wS. destruct rec; [|now rewrite Hst, Hheap, Henv, Hclock].
    destruct (traceStart_frame ctx w0) as (H1 & H2 & H3 & H4).
    now rewrite H1, H2, H3, H4, Hst, Hheap, Henv, Hclock. }
  destruct HwS as (HSst & HSheap & HSenv & HSclock).
  rewrite HSclock in Hrun.
  assert (Hlets : lets_through (logger ctx) wS LVerbose
                  = lets_through (logger ctx) w LVerbose).
  { unfold lets_through. now rewrite HSenv. }
  rewrite Hlets in Hrun.
  match type of Hrun with
  | ∀ r w2, fn_call _ _ ?w1 = _ → _ => exists ctx, w1
  end.
  split; [now rewrite Hctx|]. split; [now rewrite Hctx|].
  split; [now rewrite Hctx|]. split; [now rewrite Hctx|].
  split; [now destruct (sle && lets_through (logger ctx) w LVerbose)|].
  split; [now destruct (sle && lets_through (logger ctx) w LVerbose)|].
  split; [|exact Hrun].
  assert (HevS : events wS
    = events w
      ++ (if rec && _autoTracing ctx
             && negb (String.eqb
                        (default (fn_name (default fnToCall (tf_originalFn cfg)))
                           (nullish (cfg_fnName (tf_config cfg)) fnName)) "")
          then match TC_traceDriver (statics w) with
               | Some t => [EvSpanStart t (length (spans w))]
               | None => []
               end
          else [])).
  { unfold wS. destruct rec; cbn [andb]; [|now rewrite app_nil_r, Hev].
    rewrite traceStart_run, Hst, Hsp.
    assert (Hname : truthy_str (_fnName ctx)
              = negb (String.eqb
                        (default (fn_name (default fnToCall (tf_originalFn cfg)))
                           (nullish (cfg_fnName (tf_config cfg)) fnName)) ""))
      by (rewrite Hctx; reflexivity).
    rewrite Hname.
    destruct (TC_traceDriver (statics w)) as [t|].
    - destruct (_autoTracing ctx && negb _); cbn; [now rewrite Hev|].
      now rewrite app_nil_r, Hev.
    - cbn. destruct (_autoTracing ctx && negb _); now rewrite app_nil_r, Hev. }
  unfold log_events.
  assert (Hdrv : _driver (logger ctx) = Some d) by (rewrite Hctx; exact Hd).
  rewrite Hdrv.
  destruct sle; cbn [andb].
  - destruct (lets_through (logger ctx) w LVerbose); cbn [events add_event].
    + rewrite HevS, <- app_assoc. reflexivity.
    + now rewrite HevS, app_nil_r.
  - now rewrite HevS, app_nil_r.
Qed.

Lemma traced_call_passes_the_outcome_through_witness :
  fst (traceFn Reference.ext None empty_traceFnConfig Calls.charge
         [VStr "order-17"] Scenario.world0) = Ok (VNum 42).
Proof.
  destruct (traced_call_passes_the_outcome_through Reference.ext None
              empty_traceFnConfig Calls.charge [VStr "order-17"]
              Scenario.world0 None VUndef Scenario.logDriver)
    as (ctx & w1 & _ & _ & _ & _ & _ & _ & _ & Hrun);
    [reflexivity | reflexivity | vm_compute; discriminate | reflexivity
    | reflexivity | discriminate | reflexivity |].
  rewrite (Hrun (Ok (VNum 42))
             (add_event (EvLog Scenario.logDriver LInfo "charged" None None) w1));
    reflexivity.
Defined.



(** ** Completion of a traced promise *)

(** The data of the failure line: [{ fileName, message }] as the driver
    receives it. *)

Lemma fail_data (ext : Externals) (h : list jsobj) (e : JsError) :
  plain_of ext
    (h ++ [mkObj KPlain
             [("fileName", match efileName e with
                           | Some f => VStr f
                           | None => VUndef
                           end);
              ("message", VStr (emessage e))]])
    [VRef (length h)]
  = JSON_read ext
      (JSON_print ext
         (JObj (match efileName e with
                | Some f => [("fileName", JStr f)]
                | None => []
                end ++ [("message", JStr (emessage e))]))).
Proof.
  unfold plain_of, JSON_stringify. cbn [to_json].
  rewrite lookup_app_r by lia. rewrite Nat.sub_diag. cbn [lookup list_lookup].
  cbn [mbind option_bind okind oprops mapM].
  rewrite length_app. cbn [length]. rewrite Nat.add_1_r.
  destruct (efileName e); reflexivity.
Qed.

Lemma log_fail_run (ext : Externals) (call : TracedCall) (d : ILogDriver)
    (e : JsError) (w : World) :
  _logger_driver (tc_ctx call) = Some d →
  let info :=
    mkObj KPlain
      [("fileName", match efileName e with
                    | Some f => VStr f
                    | None => VUndef
                    end);
       ("message", VStr (emessage e))] in
  let data :=
    JSON_read ext
      (JSON_print ext
         (JObj (match efileName e with
                | Some f => [("fileName", JStr f)]
                | None => []
                end ++ [("message", JStr (emessage e))]))) in
  let w1 := set_heap (heap w ++ [info]) w in
  let w2 :=
    if lets_through (logger (tc_ctx call)) w LError
    then add_event (EvLog d LError "fail" data (Some (tc_ctx call))) w1
    else w1 in
  log_fail ext call e w = (Ok tt, after_finish call d (Some e) w2).
Proof.
  intros Hd. cbv zeta. unfold log_fail. rewrite bind_get_world.
  cbn [alloc].
  set (info := mkObj KPlain _).
  set (w1 := set_heap (heap w ++ [info]) w).
  assert (Hmod : modify (set_heap (heap w ++ [info])) w = (Ok tt, w1))
    by reflexivity.
  rewrite (bind_ok _ _ _ _ _ Hmod).
  assert (Hclean : cleanItems [VRef (length (heap w))] w1
                   = (Ok [VRef (length (heap w))], w1)).
  { cbn [cleanItems].
    unfold cleanItem, mbind, M_bind, bind, get_world, mret, M_ret, ret.
    unfold isPlainObject, read_prop. cbn [heap w1 set_heap].
    rewrite lookup_app_r by lia. rewrite Nat.sub_diag. reflexivity. }
  assert (Herr : error ext (logger (tc_ctx call)) "fail"
                   [VRef (length (heap w))] w1
                 = (Ok tt,
                    if lets_through (logger (tc_ctx call)) w LError
                    then add_event
                           (EvLog d LError "fail"
                              (plain_of ext (heap w1) [VRef (length (heap w))])
                              (Some (tc_ctx call))) w1
                    else w1)).
  { unfold error.
    rewrite (_log_run ext (logger (tc_ctx call)) d LError "fail" _ w1 Hd).
    rewrite lets_through_severity.
    change (env_LOG_SILENT w1) with (env_LOG_SILENT w).
    destruct (bool_decide (env_LOG_SILENT w = Some "true")); [reflexivity|].
    cbn [negb andb]. destruct (_level (logger (tc_ctx call))) as [cur|];
      [|reflexivity].
    destruct (decide (severity LError ≤ severity cur)%nat).
    - rewrite bool_decide_true by assumption. now rewrite Hclean.
    - now rewrite bool_decide_false. }
  rewrite (bind_ok _ _ _ _ _ Herr).
  change (heap w1) with (heap w ++ [info]). unfold info. rewrite fail_data.
  fold info.
  match goal with
  | |- (finish _ _ _ _ ≫= _) ?w2 = _ =>
      rewrite (bind_ok _ _ _ _ _ (finish_run ext call d VNull (Some e) w2 Hd))
  end.
  reflexivity.
Qed.

(** X15: the completion handlers of a traced promise, on a context whose
    logger has a driver.  A fulfilment value passes through after the
    "end" line and the finish of the span with [OK].  A rejection is
    logged as "fail" with the file name and the message of the error,
    then "end" is logged and the span is finished with [INTERNAL_ERROR],
    and the same error is thrown again. *)
Theorem settled_promise_passes_the_outcome_through
    (ext : Externals) (call : TracedCall) (d : ILogDriver) (w : World) :
  _logger_driver (tc_ctx call) = Some d →
  (∀ v, settle ext call (Ok v) w = (Ok v, after_finish call d None w))
  ∧ (∀ e,
       let info :=
         mkObj KPlain
           [("fileName", match efileName e with
                         | Some f => VStr f
                         | None => VUndef
                         end);
            ("message", VStr (emessage e))] in
       let data :=
         JSON_read ext
           (JSON_print ext
              (JObj (match efileName e with
                     | Some f => [("fileName", JStr f)]
                     | None => []
                     end ++ [("message", JStr (emessage e))]))) in
       let w1 := set_heap (heap w ++ [info]) w in
       let w2 :=
         if lets_through (logger (tc_ctx call)) w LError
         then add_event (EvLog d LError "fail" data (Some (tc_ctx call))) w1
         else w1 in
       settle ext call (Throw e) w
       = (Throw e, after_finish call d (Some e) w2)).
Proof.
  intros Hd. split.
  - intros v. unfold settle, try_catch.
    now rewrite (finish_run ext call d v None w Hd).
  - intros e. cbv zeta. unfold settle.
    now rewrite (bind_ok _ _ _ _ _ (log_fail_run ext call d e w Hd)).
Qed.

Lemma settled_promise_passes_the_outcome_through_witness :
  settle Reference.ext (mkTracedCall Scenario.traced_ctx 0 true true)
         (Ok (VNum 7)) Scenario.world_traced
  = (Ok (VNum 7),
     after_finish (mkTracedCall Scenario.traced_ctx 0 true true)
                  Scenario.logDriver None Scenario.world_traced)
  ∧ spans (after_finish (mkTracedCall Scenario.traced_ctx 0 true true)
                        Scenario.logDriver None Scenario.world_traced)
    = [mkSpan "f" None None (Some OK) 1].
Proof.
  destruct (settled_promise_passes_the_outcome_through Reference.ext
              (mkTracedCall Scenario.traced_ctx 0 true true)
              Scenario.logDriver Scenario.world_traced eq_refl) as (Hok & _).
  split; [apply Hok|]. vm_compute. reflexivity.
Defined.

(** X16: on a context whose logger has no driver the failure handler
    itself throws: the rejection of a traced promise is replaced by the
    logger's error, the original error is lost, nothing is logged and
    the span is not finished. *)
Theorem rejection_without_log_driver_loses_the_error
    (ext : Externals) (call : TracedCall) (e : JsError) (w : World) :
  _logger_driver (tc_ctx call) = None →
  ∃ w',
    settle ext call (Throw e) w
    = (Throw (Error "no log driver provided"), w')
    ∧ spans w' = spans w
    ∧ events w' = events w.
Proof.
  intros Hd.
  assert (Hfail : ∃ h, log_fail ext call e w
                       = (Throw (Error "no log driver provided"), set_heap h w)).
  { eexists. unfold log_fail. rewrite bind_get_world. cbn [alloc].
    unfold error, _log. cbn [logger _driver]. rewrite Hd. reflexivity. }
  destruct Hfail as (h & Hfail). exists (set_heap h w).
  unfold settle. rewrite (bind_throw _ _ _ _ _ Hfail).
  split; [reflexivity|]. split; reflexivity.
Qed.

Lemma rejection_without_log_driver_loses_the_error_witness :
  fst (settle Reference.ext (mkTracedCall Bare.ctx 0 false true)
         (Throw (Error "E")) initial_world)
  = Throw (Error "no log driver provided").
Proof.
  destruct (rejection_without_log_driver_loses_the_error Reference.ext
              (mkTracedCall Bare.ctx 0 false true) (Error "E") initial_world
              eq_refl) as (w' & Hrun & _).
  now rewrite Hrun.
Defined.

(** ** Handing the context on *)

Lemma read_prop_new (h : list jsobj) (o : jsobj) (k : string) :
  read_prop (h ++ [o]) (VRef (length h)) k = get_prop o k.
Proof.
  unfold read_prop. rewrite lookup_app_r by lia. now rewrite Nat.sub_diag.
Qed.

Lemma isPlainObject_new (h : list jsobj) (o : jsobj) :
  okind o = KPlain →
  isPlainObject (h ++ [o]) (VRef (length h)) = true.
Proof.
  intros Hk. unfold isPlainObject. rewrite lookup_app_r by lia.
  rewrite Nat.sub_diag. cbn. now rewrite Hk.
Qed.

(** X17: [bind] copies the arguments into a new plain object and adds
    the context and its token; the object passed in is not changed.
    Among the arguments of a traced call the bound object makes the
    context itself the parent: the live context is found together with
    the token, so the token is not decoded. *)
Theorem bind_makes_the_context_the_parent
    (ext : Externals) (self : TraceContext) (args bound : jsval)
    (w w' : World) :
  TraceContext_bind ext self args w = (Ok bound, w') →
  ∃ token ps,
    toHash ext self w = (Ok token, w)
    ∧ spread (heap w) args = Some ps
    ∧ bound = VRef (length (heap w))
    ∧ (∃ o, w' = set_heap (heap w ++ [o]) w)
    ∧ isPlainObject (heap w') bound = true
    ∧ read_prop (heap w') bound "$ctx" = VCtx self
    ∧ read_prop (heap w') bound "$traceHash" = VStr token
    ∧ (∀ k, k ≠ "$ctx" → k ≠ "$traceHash" →
         read_prop (heap w') bound k = default VUndef (assoc k ps))
    ∧ (∀ rest,
         find_parent (heap w') (bound :: rest) VUndef VUndef
         = (VCtx self, VStr token)).
Proof.
  unfold TraceContext_bind. rewrite bind_get_world.
  destruct (spread (heap w) args) as [ps|] eqn:Hps; [|discriminate].
  destruct (toHash ext self w) as [[token|err|] wt] eqn:Hto;
    [|unfold mbind, M_bind, bind; rewrite Hto; discriminate
     |unfold mbind, M_bind, bind; rewrite Hto; discriminate].
  assert (Hwt : wt = w).
  { revert Hto. unfold toHash. rewrite bind_get_world.
    destruct (to_json _ _ _); [|discriminate]. intros H. now inversion H. }
  subst wt. rewrite (bind_ok _ _ _ _ _ Hto). cbn [alloc].
  intros H. inversion H; subst bound w'. clear H.
  exists token, ps. split; [reflexivity|]. split; [reflexivity|].
  split; [reflexivity|]. split; [eexists; reflexivity|].
  cbn [heap set_heap].
  set (o := mkObj KPlain _).
  assert (Hctx : get_prop o "$ctx" = VCtx self).
  { unfold get_prop, o. cbn [oprops].
    rewrite assoc_set_in_ne by discriminate.
    now rewrite assoc_set_in_eq. }
  assert (Hhash : get_prop o "$traceHash" = VStr token).
  { unfold get_prop, o. cbn [oprops]. now rewrite assoc_set_in_eq. }
  split; [now apply isPlainObject_new|].
  rewrite !read_prop_new. split; [exact Hctx|]. split; [exact Hhash|].
  split.
  - intros k Hk1 Hk2. rewrite read_prop_new. unfold get_prop, o. cbn [oprops].
    now rewrite !assoc_set_in_ne by congruence.
  - intros rest. rewrite find_parent_unfold.
    rewrite isPlainObject_new by reflexivity.
    rewrite !read_prop_new, Hctx, Hhash. reflexivity.
Qed.

Lemma bind_makes_the_context_the_parent_witness :
  ∃ bound w',
    TraceContext_bind Reference.ext Scenario.shared0 VUndef Scenario.world0
    = (Ok bound, w')
    ∧ (find_parent (heap w') [bound; VStr "x"] VUndef VUndef).1
      = VCtx Scenario.shared0.
Proof.
  destruct (TraceContext_bind Reference.ext Scenario.shared0 VUndef
              Scenario.world0) as [[bound|err|] w'] eqn:Hbind;
    try (vm_compute in Hbind; discriminate).
  exists bound, w'. split; [reflexivity|].
  destruct (bind_makes_the_context_the_parent _ _ _ _ _ _ Hbind)
    as (token & ps & _ & _ & _ & _ & _ & _ & _ & _ & Hfind).
  now rewrite Hfind.
Defined.



(** ** What the traced function receives *)

Lemma bind_ext {A B} (m : M A) (k1 k2 : A → M B) (w : World) :
  (∀ a w', m w = (Ok a, w') → k1 a w' = k2 a w') →
  (m ≫= k1) w = (m ≫= k2) w.
Proof.
  intros H. unfold mbind, M_bind, bind.
  destruct (m w) as [[a|e|] w'] eqn:E; [now apply H|reflexivity..].
Qed.

(** The wrapper applies the function only to the argument list it builds
    for the call: functions of the same name and parameter names whose
    bodies agree on that list are traced alike. *)

Lemma traceFn_body_ext (ext : Externals) (fnName : option string)
    (cfg : ITraceFnConfig) (f g : JsFunction) (args : list jsval)
    (w : World) :
  let argNames :=
    default (fn_argNames (default f (tf_originalFn cfg)))
            (tf_fnArgNames cfg) in
  let base := tf_config cfg in
  let call_config parent :=
    mkConfig (cfg_id base) (cfg_autoTracing base)
      (cfg_callStackNamesChain base) (cfg_className base) (cfg_data base)
      (cfg_filePath base)
      (Some (default (fn_name (default f (tf_originalFn cfg)))
                     (nullish (cfg_fnName base) fnName)))
      parent (cfg_serviceColor base) (cfg_serviceName base)
      (cfg_spanHash base) in
  fn_name f = fn_name g →
  fn_argNames f = fn_argNames g →
  (∀ parent w0 ctx w0' w1 received w2,
     TraceContext_new ext (call_config parent) w0 = (Ok ctx, w0') →
     (if bool_decide (nullish (tf_injectMode cfg) (TC_injectMode (statics w))
                      = Some IN_FIRST_ARG_OBJECT)
      then inject_first_arg (new_args argNames args ctx) ctx
      else mret (new_args argNames args ctx)) w1 = (Ok received, w2) →
     fn_call f received w2 = fn_call g received w2) →
  traceFn ext fnName cfg f args w = traceFn ext fnName cfg g args w.
Proof.
  cbv zeta. destruct f as [fname fnames fbody], g as [gname gnames gbody].
  cbn [fn_name fn_argNames fn_call]. intros <- <- Hbody.
  unfold traceFn. rewrite !bind_get_world.
  assert (Hinfo :
    ∀ info,
      info = default (mkFunction fname fnames fbody) (tf_originalFn cfg) →
      fn_name (default (mkFunction fname fnames gbody) (tf_originalFn cfg))
      = fn_name info
      ∧ fn_argNames
          (default (mkFunction fname fnames gbody) (tf_originalFn cfg))
        = fn_argNames info).
  { intros info ->. now destruct (tf_originalFn cfg). }
  destruct (Hinfo _ eq_refl) as [-> ->].
  destruct (match cfg_parent (tf_config cfg) with
            | Some p => (VCtx p, VUndef)
            | None => find_parent (heap w) args VUndef VUndef
            end) as [parentCtx0 parentTraceHash0].
  apply bind_ext. intros parentCtx w1 _.
  apply bind_ext. intros ctx w2 Hctx.
  apply bind_ext. intros [] w3 _.
  rewrite !bind_get_world.
  apply bind_ext. intros startArgs w4 _.
  apply bind_ext. intros [] w5 _.
  apply bind_ext. intros newArgs w6 HnewArgs.
  cbn [fn_call]. unfold mbind at 1 3, M_bind, bind at 1 3.
  now rewrite (Hbody parentCtx w1 ctx w2 w5 newArgs w6 Hctx HnewArgs).
Qed.

Lemma new_args_length (argNames : list string) (args : list jsval)
    (ctx : TraceContext) :
  length (new_args argNames args ctx) = length argNames.
Proof. unfold new_args. apply length_imap. Qed.

Lemma new_args_lookup (argNames : list string) (args : list jsval)
    (ctx : TraceContext) (i : nat) (name : string) :
  argNames !! i = Some name →
  new_args argNames args ctx !! i
  = Some (if is_ctx_arg_name name then VCtx ctx
          else default VUndef (args !! i)).
Proof.
  intros Hi. unfold new_args. rewrite list_lookup_imap, Hi. cbn.
  destruct (is_ctx_arg_name name); [now destruct (bool_decide _)|].
  destruct (bool_decide (i < length args)) eqn:Hlt; [reflexivity|].
  apply bool_decide_eq_false in Hlt.
  now rewrite lookup_ge_None_2 by lia.
Qed.

(** X11: the arguments a traced function receives, in every inject mode
    but [IN_FIRST_ARG_OBJECT].  The wrapper applies the function only to
    a list with one argument per parameter name (the names of
    [fnArgNames] when configured, else those the function value, or
    [originalFn], carries: what [getFnArgNames] recovers from the source
    text): the context built for the call at every name [$ctx] or
    [_$ctx], whatever the caller passed there, the caller's argument at
    the other positions, and [undefined] where the caller passed none;
    arguments beyond the names are dropped.  Stated on the wrapper: two
    functions of the same name and parameter names whose bodies agree on
    every list of this shape, for every context the constructor returns
    on the configuration of the call, are traced alike. *)
Theorem traced_function_receives_one_argument_per_parameter
    (ext : Externals) (fnName : option string) (cfg : ITraceFnConfig)
    (f g : JsFunction) (args : list jsval) (w : World) :
  let argNames :=
    default (fn_argNames (default f (tf_originalFn cfg)))
            (tf_fnArgNames cfg) in
  let base := tf_config cfg in
  let call_config parent :=
    mkConfig (cfg_id base) (cfg_autoTracing base)
      (cfg_callStackNamesChain base) (cfg_className base) (cfg_data base)
      (cfg_filePath base)
      (Some (default (fn_name (default f (tf_originalFn cfg)))
                     (nullish (cfg_fnName base) fnName)))
      parent (cfg_serviceColor base) (cfg_serviceName base)
      (cfg_spanHash base) in
  nullish (tf_injectMode cfg) (TC_injectMode (statics w))
  ≠ Some IN_FIRST_ARG_OBJECT →
  fn_name f = fn_name g →
  fn_argNames f = fn_argNames g →
  (∀ received ctx parent w0 w0',
     TraceContext_new ext (call_config parent) w0 = (Ok ctx, w0') →
     length received = length argNames →
     (∀ i name,
        argNames !! i = Some name →
        received !! i
        = Some (if is_ctx_arg_name name then VCtx ctx
                else default VUndef (args !! i))) →
     ∀ w', fn_call f received w' = fn_call g received w') →
  traceFn ext fnName cfg f args w = traceFn ext fnName cfg g args w.
Proof.
  cbv zeta. intros Hmode Hname Hnames Hbody.
  apply traceFn_body_ext; [exact Hname|exact Hnames|].
  intros parent w0 ctx w0' w1 received w2 Hctx.
  rewrite bool_decide_false by exact Hmode.
  intros [= <- <-]. apply (Hbody _ ctx parent w0 w0' Hctx).
  - apply new_args_length.
  - intros i name. apply new_args_lookup.
Qed.

Lemma traced_function_receives_one_argument_per_parameter_witness :
  let strict :=
    mkFunction "charge" ["token"]
      (λ received,
         match received with
         | [_] => fn_call Calls.charge received
         | _ => throw (Error "unexpected arguments")
         end) in
  traceFn Reference.ext None empty_traceFnConfig strict
          [VStr "order-17"; VNum 2] Scenario.world0
  = traceFn Reference.ext None empty_traceFnConfig Calls.charge
            [VStr "order-17"; VNum 2] Scenario.world0.
Proof.
  cbv zeta.
  apply (traced_function_receives_one_argument_per_parameter Reference.ext
           None empty_traceFnConfig _ Calls.charge
           [VStr "order-17"; VNum 2] Scenario.world0).
  - vm_compute. discriminate.
  - reflexivity.
  - reflexivity.
  - intros received ctx parent w0 w0' _ Hlen _ w'.
    destruct received as [|x [|y received]]; try discriminate Hlen.
    reflexivity.
Defined.

Lemma inject_first_arg_run (newArgs : list jsval) (ctx : TraceContext)
    (w1 : World) :
  ∃ received w2,
    inject_first_arg newArgs ctx w1 = (Ok received, w2)
    ∧ match newArgs with
      | [] =>
          ∃ l, received = [VRef l]
               ∧ heap w2 !! l = Some (mkObj KPlain [("$ctx", VCtx ctx)])
      | first :: rest =>
          if isPlainObject (heap w2) first then
            ∃ l, received = VRef l :: rest
                 ∧ first ≠ VRef l
                 ∧ isPlainObject (heap w2) (VRef l) = true
                 ∧ read_prop (heap w2) (VRef l) "$ctx" = VCtx ctx
                 ∧ ∀ k, k ≠ "$ctx" →
                     read_prop (heap w2) (VRef l) k
                     = read_prop (heap w2) first k
          else received = first :: rest
      end.
Proof.
  unfold inject_first_arg. destruct newArgs as [|first rest].
  - unfold mbind, M_bind, bind, modify, mret, M_ret, ret, get_world.
    cbn [alloc heap set_heap]. rewrite lookup_app_r by lia.
    rewrite Nat.sub_diag. cbn.
    eexists _, _. split; [reflexivity|]. cbn [heap set_heap].
    exists (S (length (heap w1))). split; [now rewrite length_app, Nat.add_1_r|].
    rewrite lookup_app_r by (rewrite length_app; simpl; lia).
    rewrite length_app. cbn [length].
    now replace (S (length (heap w1)) - (length (heap w1) + 1)) with 0 by lia.
  - rewrite bind_ret, bind_get_world.
    destruct first as [| | | | |l| |];
      try (eexists _, _; split; reflexivity).
    destruct (heap w1 !! l) as [o|] eqn:Ho.
    2:{ eexists _, _. split; [reflexivity|]. unfold isPlainObject.
        now rewrite Ho. }
    destruct (bool_decide (okind o = KPlain)) eqn:Hk.
    2:{ eexists _, _. split; [reflexivity|]. unfold isPlainObject.
        now rewrite Ho, Hk. }
    cbn [alloc]. eexists _, _. split; [reflexivity|]. cbn [heap set_heap].
    apply lookup_lt_Some in Ho as Hl.
    assert (Hplain : isPlainObject (heap w1 ++
                        [mkObj KPlain (set_in "$ctx" (VCtx ctx) (oprops o))])
                       (VRef l) = true).
    { unfold isPlainObject. rewrite lookup_app_l by exact Hl.
      unfold loc in *. rewrite Ho. exact Hk. }
    rewrite Hplain. exists (length (heap w1)).
    split; [reflexivity|]. split; [intros [= ->]; lia|].
    split; [now apply isPlainObject_new|].
    rewrite read_prop_new. split.
    + unfold get_prop. cbn [oprops]. now rewrite assoc_set_in_eq.
    + intros k Hk'. rewrite read_prop_new. unfold get_prop, read_prop.
      cbn [oprops]. rewrite lookup_app_l by exact Hl. unfold loc in *.
      rewrite Ho. now rewrite assoc_set_in_ne by congruence.
Qed.

(** X19: the arguments a traced function receives in the mode
    [IN_FIRST_ARG_OBJECT].  They are the list of the other modes, one
    argument per parameter name, changed as follows.  When the list is
    empty (no parameter name) the function receives one argument, a new
    object that holds the context built for the call and nothing else.
    When the first argument of the list is a plain object, it is
    replaced by another plain object, which has the context as [$ctx]
    and the properties of the first one elsewhere, and the other
    arguments stay.  Otherwise the list is passed as it is: a function
    with a parameter that is called without arguments receives
    [undefined], and the context is not put into a first argument.
    Stated on the wrapper: two functions of the same name and parameter
    names whose bodies agree on every such list, in the heap of the
    call, are traced alike. *)
Theorem first_arg_mode_injects_into_a_plain_first_argument
    (ext : Externals) (fnName : option string) (cfg : ITraceFnConfig)
    (f g : JsFunction) (args : list jsval) (w : World) :
  let argNames :=
    default (fn_argNames (default f (tf_originalFn cfg)))
            (tf_fnArgNames cfg) in
  let base := tf_config cfg in
  let call_config parent :=
    mkConfig (cfg_id base) (cfg_autoTracing base)
      (cfg_callStackNamesChain base) (cfg_className base) (cfg_data base)
      (cfg_filePath base)
      (Some (default (fn_name (default f (tf_originalFn cfg)))
                     (nullish (cfg_fnName base) fnName)))
      parent (cfg_serviceColor base) (cfg_serviceName base)
      (cfg_spanHash base) in
  nullish (tf_injectMode cfg) (TC_injectMode (statics w))
  = Some IN_FIRST_ARG_OBJECT →
  fn_name f = fn_name g →
  fn_argNames f = fn_argNames g →
  (∀ received ctx parent w0 w0' w',
     TraceContext_new ext (call_config parent) w0 = (Ok ctx, w0') →
     match new_args argNames args ctx with
     | [] =>
         ∃ l, received = [VRef l]
              ∧ heap w' !! l = Some (mkObj KPlain [("$ctx", VCtx ctx)])
     | first :: rest =>
         if isPlainObject (heap w') first then
           ∃ l, received = VRef l :: rest
                ∧ first ≠ VRef l
                ∧ isPlainObject (heap w') (VRef l) = true
                ∧ read_prop (heap w') (VRef l) "$ctx" = VCtx ctx
                ∧ ∀ k, k ≠ "$ctx" →
                    read_prop (heap w') (VRef l) k
                    = read_prop (heap w') first k
         else received = first :: rest
     end →
     fn_call f received w' = fn_call g received w') →
  traceFn ext fnName cfg f args w = traceFn ext fnName cfg g args w.
Proof.
  cbv zeta. intros Hmode Hname Hnames Hbody.
  apply traceFn_body_ext; [exact Hname|exact Hnames|].
  intros parent w0 ctx w0' w1 received w2 Hctx.
  rewrite bool_decide_true by exact Hmode.
  intros Hrun. apply (Hbody received ctx parent w0 w0' w2 Hctx).
  destruct (inject_first_arg_run
              (new_args
                 (default (fn_argNames (default f (tf_originalFn cfg)))
                          (tf_fnArgNames cfg)) args ctx) ctx w1)
    as (received' & w2' & Hrun' & Hshape).
  rewrite Hrun in Hrun'. injection Hrun' as <- <-. exact Hshape.
Qed.

Lemma first_arg_mode_injects_into_a_plain_first_argument_witness :
  let cfg :=
    mkTraceFnConfig empty_config None (Some IN_FIRST_ARG_OBJECT) LogArgsOff
                    None None None None in
  let render :=
    mkFunction "render" ["props"]
      (λ received,
         mret (VStr match received with
                    | [VUndef] => "no props"
                    | _ => "props"
                    end)) in
  fst (traceFn Reference.ext None cfg render [] Scenario.world0)
  = Ok (VStr "no props").
Proof.
  cbv zeta.
  rewrite <- (first_arg_mode_injects_into_a_plain_first_argument
                Reference.ext None
                (mkTraceFnConfig empty_config None (Some IN_FIRST_ARG_OBJECT)
                                 LogArgsOff None None None None)
                (mkFunction "render" ["props"] (λ _, mret (VStr "no props")))
                _ [] Scenario.world0).
  - vm_compute. reflexivity.
  - reflexivity.
  - reflexivity.
  - reflexivity.
  - intros received ctx parent w0 w0' w' _ Hshape.
    change (received = [VUndef]) in Hshape.
    subst received. reflexivity.
Defined.

(** ** The status of a Sentry span *)

(** X20: the two status conversions of the Sentry driver are inverse to
    each other.  Our status is sent as the string value of its
    enumeration member; a Sentry status reads as the member with that
    value and as [null] for every other string.  So the status
    [traceFinish] writes through the setter of a Sentry span is the
    status the getter reads, also after [finish()]. *)
Theorem sentry_status_conversions_are_inverse :
  (∀ s : SpanStatus,
     Sentry.ourSpanStatusToTheir (Some s) = Some (Sentry.SpanStatus_value s))
  ∧ (∀ s : option SpanStatus,
       Sentry.theirSpanStatusToOur (Sentry.ourSpanStatusToTheir s) = s)
  ∧ (∀ (t : string) (s : SpanStatus),
       Sentry.theirSpanStatusToOur (Some t) = Some s ↔
       t = Sentry.SpanStatus_value s)
  ∧ (∀ (span : Sentry.ISentrySpan) (s : option SpanStatus),
       Sentry.get_status (Sentry.set_status s span) = s
       ∧ Sentry.get_status (Sentry.finish (Sentry.set_status s span)) = s).
Proof.
  assert (Hback : ∀ s : option SpanStatus,
            Sentry.theirSpanStatusToOur (Sentry.ourSpanStatusToTheir s) = s).
  { intros [[]|]; reflexivity. }
  split; [intros []; reflexivity|]. split; [exact Hback|]. split.
  - intros t s. split.
    + unfold Sentry.theirSpanStatusToOur.
      repeat match goal with
             | |- context [String.eqb t ?x] =>
                 destruct (String.eqb_spec t x) as [->|?]
             end;
        intros H; inversion H; reflexivity.
    + intros ->. now destruct s.
  - intros span s. split; apply Hback.
Qed.

(** ** Payloads through [JSON.stringify] and [JSON.parse] *)

Lemma alloc_json_arr (l : list json) (h : list jsobj) :
  alloc_json (JArr l) h =
    let '(h1, vs) := alloc_json_list l h in
    (h1 ++ [mkObj KArray (imap (λ i v, (pretty i, v)) vs)], VRef (length h1)).
Proof.
  cbn [alloc_json].
  match goal with
  | |- (let '(_, _) := ?f l h in _) = _ =>
      assert (Hgo : ∀ l h, f l h = alloc_json_list l h)
  end.
  { clear. induction l as [|x r IH]; intros h; [reflexivity|].
    simpl. destruct (alloc_json x h) as [h1 v]. now rewrite IH. }
  now rewrite Hgo.
Qed.

Lemma alloc_json_obj (kvs : list (string * json)) (h : list jsobj) :
  alloc_json (JObj kvs) h =
    let '(h1, ps) := alloc_json_members kvs h in
    (h1 ++ [mkObj KPlain (foldl (λ acc kv, set_in kv.1 kv.2 acc) [] ps)],
     VRef (length h1)).
Proof.
  cbn [alloc_json].
  match goal with
  | |- (let '(_, _) := ?f kvs h in _) = _ =>
      assert (Hgo : ∀ l h, f l h = alloc_json_members l h)
  end.
  { clear. induction l as [|[k x] r IH]; intros h; [reflexivity|].
    simpl. destruct (alloc_json x h) as [h1 v]. now rewrite IH. }
  now rewrite Hgo.
Qed.

Lemma json_rect' (P : json → Prop) :
  P JNull → (∀ b, P (JBool b)) → (∀ n, P (JNum n)) → (∀ s, P (JStr s)) →
  (∀ l, Forall P l → P (JArr l)) →
  (∀ kvs, Forall (λ kv : string * json, P kv.2) kvs → P (JObj kvs)) →
  ∀ j, P j.
Proof.
  intros Hnull Hbool Hnum Hstr Harr Hobj. fix IH 1.
  intros [|b|n|s|l|kvs].
  - exact Hnull.
  - apply Hbool.
  - apply Hnum.
  - apply Hstr.
  - apply Harr. revert l. fix IHl 1.
    intros [|x l]; constructor; [apply IH|apply IHl].
  - apply Hobj. revert kvs. fix IHl 1.
    intros [|[k x] l]; constructor; [apply IH|apply IHl].
Qed.

(** Serialization does not depend on objects allocated later nor on a
    larger budget. *)

Lemma to_json_mono (fuel : nat) (h : list jsobj) :
  ∀ (v : jsval) (r : option json) (fuel' : nat) (h2 : list jsobj),
    to_json fuel h v = Some r → (fuel ≤ fuel')%nat →
    to_json fuel' (h ++ h2) v = Some r.
Proof.
  induction fuel as [|fuel IH]; intros v r fuel' h2 Hv Hle.
  - destruct v; try discriminate Hv; destruct fuel'; exact Hv.
  - destruct fuel' as [|fuel']; [lia|].
    destruct v; try exact Hv.
    cbn [to_json] in *.
    destruct (h !! l) as [o|] eqn:Ho; [|discriminate Hv].
    rewrite (lookup_app_l_Some _ _ _ _ Ho). cbn [mbind option_bind] in *.
    destruct (okind o).
    + destruct (mapM _ (oprops o)) as [kvs|] eqn:Hm; [|discriminate Hv].
      apply mapM_Some in Hm.
      erewrite (proj2 (mapM_Some _ _ kvs)); [exact Hv|].
      eapply Forall2_impl; [exact Hm|]. intros kv kj Hkv. cbn in *.
      destruct (to_json fuel h kv.2) as [j|] eqn:Hj; [|discriminate Hkv].
      rewrite (IH _ _ fuel' h2 Hj) by lia. exact Hkv.
    + destruct (mapM _ (oprops o)) as [js|] eqn:Hm; [|discriminate Hv].
      apply mapM_Some in Hm.
      erewrite (proj2 (mapM_Some _ _ js)); [exact Hv|].
      eapply Forall2_impl; [exact Hm|]. intros kv kj Hkv. cbn in *.
      destruct (to_json fuel h kv.2) as [j|] eqn:Hj; [|discriminate Hkv].
      rewrite (IH _ _ fuel' h2 Hj) by lia. exact Hkv.
    + destruct (mapM _ (oprops o)) as [kvs|] eqn:Hm; [|discriminate Hv].
      apply mapM_Some in Hm.
      erewrite (proj2 (mapM_Some _ _ kvs)); [exact Hv|].
      eapply Forall2_impl; [exact Hm|]. intros kv kj Hkv. cbn in *.
      destruct (to_json fuel h kv.2) as [j|] eqn:Hj; [|discriminate Hkv].
      rewrite (IH _ _ fuel' h2 Hj) by lia. exact Hkv.
Qed.

(** [JSON.parse] allocates behind the heap it is given, one object at
    least for every level of the value. *)

Lemma alloc_json_grows (j : json) :
  ∀ h, ∃ e, (alloc_json j h).1 = h ++ e ∧ (json_depth j ≤ length e)%nat.
Proof.
  induction j as [|b|n|s|l IH|kvs IH] using json_rect'; intros h;
    try (exists []; split; [now rewrite app_nil_r|cbn; lia]).
  - rewrite alloc_json_arr.
    assert (Hl : ∃ e, (alloc_json_list l h).1 = h ++ e
                 ∧ (foldr (λ x d, Nat.max (json_depth x) d) 0 l ≤ length e)%nat).
    { revert h. induction IH as [|x r Hx _ IHr]; intros h.
      - exists []. split; [now rewrite app_nil_r|cbn; lia].
      - cbn [alloc_json_list foldr].
        destruct (Hx h) as (e1 & He1 & Hd1).
        destruct (alloc_json x h) as [h1 v]. cbn [fst] in He1. subst h1.
        destruct (IHr (h ++ e1)) as (e2 & He2 & Hd2).
        destruct (alloc_json_list r (h ++ e1)) as [h2 vs]. cbn [fst] in *.
        subst h2. exists (e1 ++ e2). split; [now rewrite app_assoc|].
        rewrite length_app. lia. }
    destruct Hl as (e & He & Hd).
    destruct (alloc_json_list l h) as [h1 vs]. cbn [fst] in *. subst h1.
    exists (e ++ [mkObj KArray (imap (λ i v, (pretty i, v)) vs)]).
    split; [now rewrite app_assoc|]. rewrite length_app. cbn. lia.
  - rewrite alloc_json_obj.
    assert (Hl : ∃ e, (alloc_json_members kvs h).1 = h ++ e
                 ∧ (foldr (λ (kv : string * json) d,
                             Nat.max (json_depth kv.2) d) 0 kvs
                    ≤ length e)%nat).
    { revert h. induction IH as [|[k x] r Hx _ IHr]; intros h.
      - exists []. split; [now rewrite app_nil_r|cbn; lia].
      - cbn [alloc_json_members foldr snd].
        destruct (Hx h) as (e1 & He1 & Hd1). cbn [snd] in *.
        destruct (alloc_json x h) as [h1 v]. cbn [fst] in He1. subst h1.
        destruct (IHr (h ++ e1)) as (e2 & He2 & Hd2).
        destruct (alloc_json_members r (h ++ e1)) as [h2 ps]. cbn [fst] in *.
        subst h2. exists (e1 ++ e2). split; [now rewrite app_assoc|].
        rewrite length_app. lia. }
    destruct Hl as (e & He & Hd).
    destruct (alloc_json_members kvs h) as [h1 ps]. cbn [fst] in *. subst h1.
    eexists (e ++ [_]).
    split; [now rewrite app_assoc|]. rewrite length_app. cbn. lia.
Qed.

Lemma json_depth_elem (x : json) (l : list json) :
  x ∈ l →
  (json_depth x ≤ foldr (λ x d, Nat.max (json_depth x) d) 0 l)%nat.
Proof.
  induction 1 as [x l|x y l _ IH]; cbn [foldr]; lia.
Qed.

Lemma json_depth_member (kv : string * json) (l : list (string * json)) :
  kv ∈ l →
  (json_depth kv.2
   ≤ foldr (λ (kv : string * json) d, Nat.max (json_depth kv.2) d) 0 l)%nat.
Proof.
  induction 1 as [x l|x y l _ IH]; cbn [foldr]; lia.
Qed.

(** Assigning members with distinct keys to the empty object keeps
    them in order. *)

Lemma set_in_fresh {V} (k : string) (v : V) (ps : list (string * V)) :
  k ∉ ps.*1 → set_in k v ps = ps ++ [(k, v)].
Proof.
  induction ps as [|[k' v'] ps IH]; intros Hk; [reflexivity|].
  cbn [set_in]. cbn [fmap list_fmap fst] in Hk.
  rewrite not_elem_of_cons in Hk. destruct Hk as [Hne Hk].
  destruct (String.eqb_spec k' k) as [->|_]; [contradiction|].
  cbn [app]. now rewrite IH.
Qed.

Lemma foldl_set_in_distinct {V} (ps acc : list (string * V)) :
  NoDup (acc ++ ps).*1 →
  foldl (λ acc kv, set_in kv.1 kv.2 acc) acc ps = acc ++ ps.
Proof.
  revert acc. induction ps as [|[k v] ps IH]; intros acc Hnd.
  - now rewrite app_nil_r.
  - cbn [foldl fst snd].
    rewrite set_in_fresh.
    + rewrite IH; [now rewrite <- app_assoc|].
      now rewrite <- app_assoc.
    + rewrite fmap_app in Hnd. apply NoDup_app in Hnd as (_ & Hd & _).
      intros Hin. apply (Hd k Hin). cbn. left.
Qed.

Lemma alloc_json_list_grows (l : list json) :
  ∀ h, ∃ e, (alloc_json_list l h).1 = h ++ e.
Proof.
  induction l as [|x r IH]; intros h.
  - exists []. now rewrite app_nil_r.
  - cbn [alloc_json_list]. destruct (alloc_json_grows x h) as (e1 & He1 & _).
    destruct (alloc_json x h) as [h1 v]. cbn [fst] in He1. subst h1.
    destruct (IH (h ++ e1)) as (e2 & He2).
    destruct (alloc_json_list r (h ++ e1)) as [h2 vs]. cbn [fst] in *.
    subst h2. exists (e1 ++ e2). now rewrite app_assoc.
Qed.

Lemma alloc_json_members_grows (l : list (string * json)) :
  ∀ h, ∃ e, (alloc_json_members l h).1 = h ++ e.
Proof.
  induction l as [|[k x] r IH]; intros h.
  - exists []. now rewrite app_nil_r.
  - cbn [alloc_json_members].
    destruct (alloc_json_grows x h) as (e1 & He1 & _).
    destruct (alloc_json x h) as [h1 v]. cbn [fst] in He1. subst h1.
    destruct (IH (h ++ e1)) as (e2 & He2).
    destruct (alloc_json_members r (h ++ e1)) as [h2 vs]. cbn [fst] in *.
    subst h2. exists (e1 ++ e2). now rewrite app_assoc.
Qed.

Lemma alloc_json_members_keys (l : list (string * json)) :
  ∀ h, (alloc_json_members l h).2.*1 = l.*1.
Proof.
  induction l as [|[k x] r IH]; intros h; [reflexivity|].
  cbn [alloc_json_members]. destruct (alloc_json x h) as [h1 v].
  specialize (IH h1). destruct (alloc_json_members r h1) as [h2 ps].
  cbn in *. now rewrite IH.
Qed.

(** What [JSON.parse] builds serializes to the parsed value. *)

Lemma alloc_json_copy (j : json) :
  json_ok j = true →
  ∀ h, to_json (json_depth j) (alloc_json j h).1 (alloc_json j h).2
       = Some (Some j).
Proof.
  induction j as [|b|n|s|l IH|kvs IH] using json_rect'; intros Hok h;
    try reflexivity.
  - (* arrays *)
    assert (Hl : ∀ h,
      Forall2 (λ v x, to_json (json_depth x) (alloc_json_list l h).1 v
                      = Some (Some x))
              (alloc_json_list l h).2 l).
    { cbn [json_ok] in Hok. clear h. revert Hok.
      induction IH as [|x r Hx _ IHr]; intros Hok h; [constructor|].
      cbn [forallb] in Hok. apply andb_true_iff in Hok as [Hokx Hokr].
      cbn [alloc_json_list]. specialize (Hx Hokx h).
      destruct (alloc_json x h) as [h1 v]. cbn [fst snd] in Hx.
      specialize (IHr Hokr h1).
      destruct (alloc_json_list_grows r h1) as (e & He).
      destruct (alloc_json_list r h1) as [h2 vs]. cbn [fst snd] in *.
      subst h2. constructor; [|exact IHr].
      now apply (to_json_mono _ _ _ _ (json_depth x) e Hx). }
    rewrite alloc_json_arr. specialize (Hl h).
    destruct (alloc_json_list l h) as [h1 vs]. cbn [fst snd] in *.
    cbn [json_depth to_json].
    rewrite lookup_app_r by lia. rewrite Nat.sub_diag.
    cbn [lookup list_lookup mbind option_bind okind oprops].
    set (D := foldr (λ x d, Nat.max (json_depth x) d) 0 l).
    erewrite (proj2 (mapM_Some _ _ l)); [reflexivity|].
    apply Forall2_same_length_lookup. split.
    { rewrite length_imap. now apply Forall2_length in Hl. }
    intros i kv x Hkv Hx. rewrite list_lookup_imap in Hkv.
    destruct (vs !! i) as [v|] eqn:Hv; [|discriminate Hkv].
    cbn in Hkv. inversion Hkv; subst kv. cbn [snd].
    pose proof (Forall2_lookup_lr _ _ _ _ _ _ Hl Hv Hx) as Hj.
    rewrite (to_json_mono _ _ _ _ D _ Hj); [reflexivity|].
    apply json_depth_elem. now apply list_elem_of_lookup_2 in Hx.
  - (* objects *)
    cbn [json_ok] in Hok. apply andb_true_iff in Hok as [Hnd Hok].
    apply bool_decide_eq_true in Hnd.
    assert (Hl : ∀ h,
      Forall2 (λ (p : string * jsval) (kx : string * json),
                 p.1 = kx.1
                 ∧ to_json (json_depth kx.2) (alloc_json_members kvs h).1 p.2
                   = Some (Some kx.2))
              (alloc_json_members kvs h).2 kvs).
    { clear h Hnd. revert Hok.
      induction IH as [|[k x] r Hx _ IHr]; intros Hok h; [constructor|].
      cbn [forallb snd] in Hok. apply andb_true_iff in Hok as [Hokx Hokr].
      cbn [alloc_json_members]. cbn [snd] in Hx. specialize (Hx Hokx h).
      destruct (alloc_json x h) as [h1 v]. cbn [fst snd] in Hx.
      specialize (IHr Hokr h1).
      destruct (alloc_json_members_grows r h1) as (e & He).
      destruct (alloc_json_members r h1) as [h2 ps]. cbn [fst snd] in *.
      subst h2. constructor; [|exact IHr]. split; [reflexivity|].
      now apply (to_json_mono _ _ _ _ (json_depth x) e Hx). }
    rewrite alloc_json_obj. specialize (Hl h).
    pose proof (alloc_json_members_keys kvs h) as Hkeys.
    destruct (alloc_json_members kvs h) as [h1 ps]. cbn [fst snd] in *.
    rewrite (foldl_set_in_distinct ps []) by (cbn [app]; now rewrite Hkeys).
    cbn [app json_depth to_json].
    rewrite lookup_app_r by lia. rewrite Nat.sub_diag.
    cbn [lookup list_lookup mbind option_bind okind oprops].
    set (D := foldr (λ (kv : string * json) d,
                       Nat.max (json_depth kv.2) d) 0 kvs).
    erewrite (proj2 (mapM_Some _ _
                (prod_map id Some <$> kvs))).
    + cbn [mbind option_bind]. do 3 f_equal.
      clear. induction kvs as [|[k x] r IH]; [reflexivity|].
      cbn. now rewrite IH.
    + apply Forall2_same_length_lookup. split.
      { rewrite length_fmap. now apply Forall2_length in Hl. }
      intros i p y Hp Hy. rewrite list_lookup_fmap in Hy.
      destruct (kvs !! i) as [kx|] eqn:Hkx; [|discriminate Hy].
      cbn in Hy. inversion Hy; subst y.
      destruct (Forall2_lookup_lr _ _ _ _ _ _ Hl Hp Hkx) as [Hk Hj].
      rewrite (to_json_mono _ _ _ _ D _ Hj).
      * cbn. rewrite Hk. now destruct kx.
      * apply json_depth_member. now apply list_elem_of_lookup_2 in Hkx.
Qed.

(** Plain data can be serialized, and the text has distinct keys. *)

Lemma omap_keys_sublist (kvs : list (string * option json)) :
  (omap (λ kj : string * option json, j ← kj.2; Some (kj.1, j)) kvs).*1
  `sublist_of` kvs.*1.
Proof.
  induction kvs as [|[k [j|]] kvs IH]; cbn.
  - constructor.
  - now constructor.
  - now constructor.
Qed.

Lemma to_json_plain (h : list jsobj) (n : nat) :
  ∀ v, plain_data h n v = true →
       ∃ r, to_json n h v = Some r
            ∧ ∀ j, r = Some j → json_ok j = true.
Proof.
  induction n as [|n IH]; intros v Hv.
  - destruct v; try discriminate Hv; eexists; (split; [reflexivity|]);
      intros j Hj; inversion Hj; reflexivity.
  - destruct v; try discriminate Hv;
      try (eexists; (split; [reflexivity|]);
           intros j Hj; inversion Hj; reflexivity).
    cbn [plain_data to_json] in *.
    destruct (h !! l) as [o|]; [|discriminate Hv].
    apply andb_true_iff in Hv as [Hv Hall].
    apply andb_true_iff in Hv as [Hkind Hnd].
    apply bool_decide_eq_true in Hnd.
    apply negb_true_iff, bool_decide_eq_false in Hkind.
    rewrite forallb_forall in Hall.
    cbn [mbind option_bind].
    assert (Hitems : ∃ kvs,
      mapM (λ kv : string * jsval, j ← to_json n h kv.2; Some (kv.1, j))
           (oprops o) = Some kvs
      ∧ kvs.*1 = (oprops o).*1
      ∧ Forall (λ kj : string * option json,
                  ∀ j, kj.2 = Some j → json_ok j = true) kvs).
    { clear Hnd Hkind. induction (oprops o) as [|[k v] ps IHps].
      - exists []. repeat split. constructor.
      - destruct (IH v) as (r & Hr & Hok).
        { apply (Hall (k, v)). now left. }
        destruct IHps as (kvs & Hm & Hk & Hf).
        { intros x Hx. apply Hall. now right. }
        exists ((k, r) :: kvs). cbn [mapM snd fst]. rewrite Hr.
        cbn [mbind option_bind]. rewrite Hm. cbn.
        split; [reflexivity|]. split; [now rewrite Hk|].
        constructor; [exact Hok|exact Hf]. }
    destruct Hitems as (kvs & Hm & Hk & Hf).
    destruct (okind o) eqn:Hko; [| |contradiction].
    + rewrite Hm. eexists. split; [reflexivity|].
      intros j Hj. inversion Hj; subst j. cbn [json_ok].
      apply andb_true_iff. split.
      * apply bool_decide_eq_true.
        apply (sublist_NoDup _ kvs.*1); [now rewrite Hk|].
        apply omap_keys_sublist.
      * clear -Hf. induction Hf as [|[k [j|]] kvs Hj _ IHf]; [reflexivity| |].
        -- cbn. rewrite (Hj j eq_refl). exact IHf.
        -- exact IHf.
    + assert (Harr : ∃ js,
        mapM (λ kv : string * jsval, default JNull <$> to_json n h kv.2)
             (oprops o) = Some js
        ∧ forallb json_ok js = true).
      { clear -Hm Hf. revert kvs Hm Hf.
        induction (oprops o) as [|[k v] ps IHps]; intros kvs Hm Hf.
        - exists []. now split.
        - cbn [mapM snd fst] in *.
          destruct (to_json n h v) as [r|]; [|discriminate Hm].
          cbn [mbind option_bind] in Hm.
          destruct (mapM _ ps) as [kvs'|] eqn:Hps; [|discriminate Hm].
          cbn in Hm. inversion Hm; subst kvs.
          apply Forall_cons in Hf as [Hr Hf].
          destruct (IHps kvs' eq_refl Hf) as (js & Hjs & Hok).
          exists (default JNull r :: js). cbn. rewrite Hjs. cbn.
          split; [reflexivity|]. rewrite Hok.
          destruct r as [j|]; [|reflexivity]. cbn.
          now rewrite (Hr j eq_refl). }
      destruct Harr as (js & Hjs & Hok). rewrite Hjs.
      eexists. split; [reflexivity|].
      intros j Hj. inversion Hj; subst j. exact Hok.
Qed.

Lemma to_json_holds_context (h : list jsobj) (l : loc) (o : jsobj)
    (k : string) (c : TraceContext) (n : nat) :
  h !! l = Some o → (k, VCtx c) ∈ oprops o → to_json n h (VRef l) = None.
Proof.
  intros Ho Hin. destruct n as [|n]; [reflexivity|].
  cbn [to_json]. rewrite Ho. cbn [mbind option_bind].
  destruct (okind o);
    (rewrite (mapM_fails _ _ (k, VCtx c) Hin); [reflexivity|]);
    destruct n; reflexivity.
Qed.

Lemma to_json_holds_itself (h : list jsobj) (l : loc) (o : jsobj)
    (k : string) (n : nat) :
  h !! l = Some o → (k, VRef l) ∈ oprops o → to_json n h (VRef l) = None.
Proof.
  intros Ho Hin. induction n as [|n IH]; [reflexivity|].
  cbn [to_json]. rewrite Ho. cbn [mbind option_bind].
  destruct (okind o);
    (rewrite (mapM_fails _ _ (k, VRef l) Hin); [reflexivity|]);
    cbn [snd]; now rewrite IH.
Qed.

(** ** Tokens and payloads *)

(** X21: [toHash] of a context whose data is an object that holds, under
    any key, a trace context or the object itself.  The serialization of
    the data fails, so the call throws the [TypeError] of
    [JSON.stringify] and leaves the world as it is: there is no token. *)
Theorem toHash_throws_on_unserializable_data
    (ext : Externals) (w : World) (P : TraceContext)
    (l : loc) (o : jsobj) (k : string) (v : jsval) :
  data_of w P = VRef l →
  heap w !! l = Some o →
  (k, v) ∈ oprops o →
  v = VRef l ∨ (∃ c, v = VCtx c) →
  toHash ext P w
  = (Throw (TypeError "Converting circular structure to JSON"), w).
Proof.
  intros Hd Ho Hin Hv.
  assert (Hjson : to_json (S (length (heap w))) (heap w) (data_of w P) = None).
  { rewrite Hd. destruct Hv as [->|[c ->]].
    - exact (to_json_holds_itself _ _ _ _ _ Ho Hin).
    - exact (to_json_holds_context _ _ _ _ _ _ Ho Hin). }
  unfold toHash, mbind, M_bind, bind, get_world. now rewrite Hjson.
Qed.

Lemma toHash_throws_on_unserializable_data_witness :
  let w := snd (set_data Scenario.shared0 (VRef 0) Calls.world_item) in
  toHash Reference.ext Scenario.shared0 w
  = (Throw (TypeError "Converting circular structure to JSON"), w).
Proof.
  apply (toHash_throws_on_unserializable_data Reference.ext _ _ 0
           (mkObj KPlain [("a", VNum 1); ("$ctx", VCtx Scenario.shared0)])
           "$ctx" (VCtx Scenario.shared0)).
  - vm_compute. reflexivity.
  - vm_compute. reflexivity.
  - cbn [oprops]. apply elem_of_cons. right. apply elem_of_cons. now left.
  - right. now exists Scenario.shared0.
Defined.

(** X22: [toHash] of a context whose data is plain (primitives, plain
    objects and arrays, without cycle) returns a token and changes
    nothing.  When the third-party codec functions are inverse to each
    other on the token's text, [fromHash] of the token returns, in any
    process, a context whose data serializes to the same JSON value as
    the data of the encoded context. *)
Theorem token_carries_plain_data
    (ext : Externals) (w : World) (P : TraceContext) :
  plain_data (heap w) (S (length (heap w))) (data_of w P) = true →
  ∃ data token,
    to_json (S (length (heap w))) (heap w) (data_of w P) = Some data
    ∧ toHash ext P w = (Ok token, w)
    ∧ (codec_ok ext (json_of_hashData (hashData_of ext w P data)) →
       ∀ w2, ∃ R w2',
         fromHash ext token w2 = (Ok R, w2')
         ∧ to_json (S (length (heap w2'))) (heap w2') (data_of w2' R)
           = Some data).
Proof.
  intros Hplain.
  destruct (to_json_plain _ _ _ Hplain) as (data & Hdata & Hok).
  set (hd := hashData_of ext w P data).
  exists data, (hashEncode ext hd). split; [exact Hdata|]. split.
  { unfold toHash, mbind, M_bind, bind, get_world. now rewrite Hdata. }
  intros Hcodec w2.
  pose proof (hashDecode_hashEncode ext hd Hcodec) as Hdec.
  pose proof (config_of_json_of_hashData hd w2) as Hcfg.
  change (hd_data hd) with data in Hcfg.
  destruct (match data with
            | Some d => alloc_json d (heap w2)
            | None => (heap w2, VUndef)
            end) as [h dv] eqn:Halloc.
  match type of Hcfg with
  | _ = (Ok ?c, _) => set (config := c) in *
  end.
  destruct (TraceContext_new_plain ext config (set_heap h w2) I)
    as (R & w2' & Hnew & Hheap & Hd).
  exists R, w2'. split.
  { unfold fromHash. rewrite Hdec.
    rewrite (bind_ok _ _ _ _ _ Hcfg). exact Hnew. }
  rewrite Hheap, Hd. cbn [heap set_heap cfg_data config].
  destruct data as [j|].
  - pose proof (alloc_json_copy j (Hok j eq_refl) (heap w2)) as Hcopy.
    destruct (alloc_json_grows j (heap w2)) as (e & He & Hlen).
    rewrite Halloc in Hcopy, He. cbn [fst snd] in Hcopy, He.
    rewrite <- (app_nil_r h).
    eapply to_json_mono; [exact Hcopy|].
    rewrite app_nil_r, He, length_app. lia.
  - inversion Halloc; subst. reflexivity.
Qed.

Lemma token_carries_plain_data_witness :
  ∃ token R w',
    toHash Reference.ext (fst Inheritance.parent) (snd Inheritance.parent)
    = (Ok token, snd Inheritance.parent)
    ∧ fromHash Reference.ext token initial_world = (Ok R, w')
    ∧ to_json (S (length (heap w'))) (heap w') (data_of w' R)
      = Some (Some (JObj [("a", JNum 1); ("region", JStr "eu");
                          ("limits", JObj [("rate", JNum 5);
                                           ("burst", JArr [JNum 1; JNum 2])])])).
Proof.
  destruct (token_carries_plain_data Reference.ext
              (snd Inheritance.parent) (fst Inheritance.parent))
    as (data & token & Hdata & Hto & Hfrom).
  - vm_compute. reflexivity.
  - assert (Hd : data
      = Some (JObj [("a", JNum 1); ("region", JStr "eu");
                    ("limits", JObj [("rate", JNum 5);
                                     ("burst", JArr [JNum 1; JNum 2])])])).
    { apply (inj Some). rewrite <- Hdata. vm_compute. reflexivity. }
    subst data.
    destruct (Hfrom ltac:(split; vm_compute; reflexivity) initial_world)
      as (R & w' & Hrun & Hjson).
    exists token, R, w'. split; [exact Hto|]. split; [exact Hrun|exact Hjson].
Defined.

Lemma replace_first_absent (b : string) :
  "$"%char ∉ list_ascii_of_string b →
  replace_first TRACE_HASH_PREFIX "" b = b.
Proof.
  induction b as [|c b IH]; intros Hc; [reflexivity|].
  cbn [list_ascii_of_string] in Hc.
  apply not_elem_of_cons in Hc as [Hne Hc].
  cbn [replace_first TRACE_HASH_PREFIX String.prefix].
  destruct (Ascii.ascii_dec "$" c) as [E|_]; [congruence|].
  now rewrite (IH Hc).
Qed.

(** X23: decoding does not need the token prefix.  For a text without
    the character [$] (the base64 alphabet has none), [hashDecode] gives
    the same value for the text and for the text behind
    [TRACE_HASH_PREFIX], and [fromHash] behaves the same on both. *)
Theorem token_prefix_is_optional (ext : Externals) (b : string) :
  "$"%char ∉ list_ascii_of_string b →
  hashDecode ext (TRACE_HASH_PREFIX +:+ b) = hashDecode ext b
  ∧ ∀ w, fromHash ext (TRACE_HASH_PREFIX +:+ b) w = fromHash ext b w.
Proof.
  intros Hb.
  assert (Hdec : hashDecode ext (TRACE_HASH_PREFIX +:+ b) = hashDecode ext b).
  { unfold hashDecode. rewrite (replace_first_absent b Hb).
    replace (replace_first TRACE_HASH_PREFIX "" (TRACE_HASH_PREFIX +:+ b))
      with b by (destruct b; vm_compute; reflexivity).
    reflexivity. }
  split; [exact Hdec|]. intros w. unfold fromHash. now rewrite Hdec.
Qed.

Lemma token_prefix_is_optional_witness :
  ∃ R w',
    fromHash Reference.ext "{}" initial_world = (Ok R, w')
    ∧ fromHash Reference.ext "$TRACE_HASH_{}" initial_world = (Ok R, w').
Proof.
  destruct (token_prefix_is_optional Reference.ext "{}") as [_ Hfrom].
  - vm_compute. intros H. repeat (apply elem_of_cons in H as [H|H]; [discriminate H|]).
    now apply elem_of_nil in H.
  - change "$TRACE_HASH_{}" with (TRACE_HASH_PREFIX +:+ "{}").
    rewrite (Hfrom initial_world).
    destruct (fromHash Reference.ext "{}" initial_world) as [[R| |] w'] eqn:E;
      [now exists R, w'|vm_compute in E; discriminate E..].
Defined.
